(** * sc-signal: Clipper, Lowpass, Hysteresis and Scaler

    A shallow embedding of the four processing classes of
    [@ircam/sc-signal] (src/Clipper.js, src/Lowpass.js, src/Hysteresis.js,
    src/Scaler.js) and of the properties their specification states.

    The classes compute on JavaScript numbers.  Their code is embedded once,
    over an interface [JSNumber] of the operators it uses, and read at two
    instances:

    - [F64.number]: IEEE-754 binary64 as the standard library's [spec_float]
      specifies it (53 bits of precision, round to nearest even), with the
      comparison operators and [Math.max]/[Math.min] of ECMAScript.  This is
      what the code computes, NaN, the infinities and the signed zeros
      included, and every definition evaluates there.
    - [Exact.number]: the real numbers, that is the same code with every
      operation exact.  Statements about limits are made there. *)

From Stdlib Require Import ZArith Bool List String Lia.
From Stdlib Require Import Reals Lra.
From Stdlib Require Import Floats.SpecFloat.
Import ListNotations.


(** ** The operators the code applies to numbers *)

Class JSNumber (num : Type) : Type := {
  num_0 : num;                       (* the literal 0 *)
  num_1 : num;                       (* the literal 1 *)
  num_2 : num;                       (* the literal 2 *)
  js_add : num -> num -> num;        (* a + b *)
  js_sub : num -> num -> num;        (* a - b *)
  js_mul : num -> num -> num;        (* a * b *)
  js_div : num -> num -> num;        (* a / b *)
  js_lt : num -> num -> bool;        (* a < b *)
  js_le : num -> num -> bool;        (* a <= b *)
  js_eq : num -> num -> bool;        (* a === b *)
  Math_max : num -> num -> num;      (* Math.max(a, b) *)
  Math_min : num -> num -> num;      (* Math.min(a, b) *)
  Math_abs : num -> num              (* Math.abs(a) *)
}.

(** The global [Infinity], the default bound of a Clipper. *)
Class JSInfinity (num : Type) : Type := {
  js_Infinity : num;
  js_neg_Infinity : num              (* -Infinity *)
}.

(** [Math.log] and [Math.exp], which only the Scaler calls. *)
Class JSMath (num : Type) : Type := {
  Math_log : num -> num;
  Math_exp : num -> num
}.

Declare Scope js_scope.
Delimit Scope js_scope with js.
Notation "a + b" := (js_add a b) : js_scope.
Notation "a - b" := (js_sub a b) : js_scope.
Notation "a * b" := (js_mul a b) : js_scope.
Notation "a / b" := (js_div a b) : js_scope.
Notation "a < b" := (js_lt a b) : js_scope.
Notation "a > b" := (js_lt b a) (only parsing) : js_scope.
Notation "a <= b" := (js_le a b) : js_scope.
Notation "a >= b" := (js_le b a) (only parsing) : js_scope.
Notation "a === b" := (js_eq a b) (at level 70, no associativity) : js_scope.

(** The same operators with another division in place of [/]: what a
    computation returns under all of them does not come from a division. *)
Definition with_div {num : Type} (N : JSNumber num)
  (division : num -> num -> num) : JSNumber num :=
  {| num_0 := num_0; num_1 := num_1; num_2 := num_2;
     js_add := js_add; js_sub := js_sub; js_mul := js_mul;
     js_div := division;
     js_lt := js_lt; js_le := js_le; js_eq := js_eq;
     Math_max := Math_max; Math_min := Math_min; Math_abs := Math_abs |}.

(** A destructured option and its default, [{ option = value }]: [None] is
    an option left out, or [undefined]. *)
Definition default {A : Type} (value : A) (option : option A) : A :=
  match option with
  | Some v => v
  | None => value
  end.

(** ** IEEE-754 binary64 *)

Module F64.

Definition prec : Z := 53.
Definition emax : Z := 1024.

Definition f64 : Type := spec_float.

Definition NaN : f64 := S754_nan.
Definition Infinity : f64 := S754_infinity false.
Definition neg_Infinity : f64 := S754_infinity true.
Definition pos_zero : f64 := S754_zero false.
Definition neg_zero : f64 := S754_zero true.

(** The double of an integer literal (exact for the small ones used here). *)
Definition of_Z (z : Z) : f64 := binary_normalize prec emax z 0 false.

Definition one : f64 := Eval vm_compute in of_Z 1.
Definition two : f64 := Eval vm_compute in of_Z 2.

Definition add : f64 -> f64 -> f64 := SFadd prec emax.
Definition sub : f64 -> f64 -> f64 := SFsub prec emax.
Definition mul : f64 -> f64 -> f64 := SFmul prec emax.
Definition div : f64 -> f64 -> f64 := SFdiv prec emax.

(** The double of the decimal literal [n/d], for [n] and [d] exact. *)
Definition of_ratio (n d : Z) : f64 := div (of_Z n) (of_Z d).

Definition is_nan (x : f64) : bool :=
  match x with S754_nan => true | _ => false end.

Definition is_finite (x : f64) : bool :=
  match x with S754_finite _ _ _ | S754_zero _ => true | _ => false end.

Definition is_zero (x : f64) : bool :=
  match x with S754_zero _ => true | _ => false end.

(** A double the machine can hold: canonical mantissa, exponent in range. *)
Definition valid (x : f64) : bool := valid_binary prec emax x.

(** [Math.max(a, b)] (ECMAScript 21.3.2.24): NaN if either is NaN,
    [+0] counts as larger than [-0], else the larger, the first on a tie. *)
Definition max (a b : f64) : f64 :=
  if is_nan a || is_nan b then NaN
  else match a, b with
       | S754_zero true, S754_zero false => b
       | _, _ => if SFltb a b then b else a
       end.

(** [Math.min(a, b)] (ECMAScript 21.3.2.25), symmetrically. *)
Definition min (a b : f64) : f64 :=
  if is_nan a || is_nan b then NaN
  else match a, b with
       | S754_zero false, S754_zero true => b
       | _, _ => if SFltb b a then b else a
       end.

#[global] Instance number : JSNumber f64 := {|
  num_0 := pos_zero;
  num_1 := one;
  num_2 := two;
  js_add := add;
  js_sub := sub;
  js_mul := mul;
  js_div := div;
  js_lt := SFltb;
  js_le := SFleb;
  js_eq := SFeqb;
  Math_max := max;
  Math_min := min;
  Math_abs := SFabs
|}.

#[global] Instance infinity : JSInfinity f64 := {|
  js_Infinity := Infinity;
  js_neg_Infinity := neg_Infinity
|}.

(** [Math.log] and [Math.exp] are implementation-approximated in
    ECMAScript: they stay parameters of the instance. *)
Definition math (log exp : f64 -> f64) : JSMath f64 :=
  {| Math_log := log; Math_exp := exp |}.

(** The instance that answers NaN to both: it serves to evaluate scalers
    on the paths that read neither a logarithm nor an exponential. *)
Definition math_nan : JSMath f64 := math (fun _ => NaN) (fun _ => NaN).

End F64.

(** ** Doubles as integers *)

(** Every finite double is a multiple of [2^-1074].  Counted in that unit
    the doubles are integers, the operations of the machine are the exact
    ones followed by a rounding, and the rounding is a function on the
    integers. *)
Module Rounding.
Import F64.

(** The quotient of [M] by [2^k], rounded to nearest, ties to even. *)
Definition round_even (M k : Z) : Z :=
  let q := (M / 2 ^ k)%Z in
  let r := (M mod 2 ^ k)%Z in
  if (2 * r <? 2 ^ k)%Z then q
  else if (2 * r =? 2 ^ k)%Z then (if Z.even q then q else (q + 1)%Z)
  else (q + 1)%Z.

(** [V], a count of units of [2^-(1074 + lo)], rounded to the doubles: to
    the nearest multiple of [2^kk], where [kk] leaves 53 bits and is [lo]
    at least, ties to the even multiple. *)
Definition nearest (lo V : Z) : Z :=
  let kk := Z.max (Z.log2 V + 1 - 53) lo in
  (round_even V kk * 2 ^ kk)%Z.

(** The magnitude of a double in units of [2^-1074]. *)
Definition ulps (x : f64) : Z :=
  match x with
  | S754_finite _ m e => (Zpos m * 2 ^ (e + 1074))%Z
  | _ => 0%Z
  end.

(** A double the machine holds that is [+0] or finite and positive. *)
Definition nonneg (x : f64) : bool :=
  valid x
  && match x with
     | S754_zero false | S754_finite false _ _ => true
     | _ => false
     end.

(** What [process(1)] returns, and stores, for a Lowpass of coefficients
    [a] and [1 - a] whose last output is [y]: [1 * a + y * (1 - a)]. *)
Definition step (a y : f64) : f64 := add (mul one a) (mul y (sub one a)).

End Rounding.

(** ** Exact arithmetic *)

(** The operators on the reals.  There is no NaN and no infinity there: a
    division by zero and the logarithm of a number that is not positive have
    no meaning, and the statements made at this instance carry the
    hypotheses that keep the code away from them. *)
Module Exact.

Definition ltb (a b : R) : bool := if Rlt_dec a b then true else false.
Definition leb (a b : R) : bool := if Rle_dec a b then true else false.
Definition eqb (a b : R) : bool := if Req_dec_T a b then true else false.

#[global] Instance number : JSNumber R := {|
  num_0 := 0%R;
  num_1 := 1%R;
  num_2 := 2%R;
  js_add := Rplus;
  js_sub := Rminus;
  js_mul := Rmult;
  js_div := Rdiv;
  js_lt := ltb;
  js_le := leb;
  js_eq := eqb;
  Math_max := Rmax;
  Math_min := Rmin;
  Math_abs := Rabs
|}.

#[global] Instance math : JSMath R := {| Math_log := ln; Math_exp := exp |}.

End Exact.

(** ** src/Clipper.js *)

Module Clipper.
Section Clipper.
Context {num : Type} {N : JSNumber num}.
Local Open Scope js_scope.

Record t : Type := { min : num; max : num }.

(** The body of the constructor, once the options have their values. *)
Definition new (min max : num) : t := {| min := min; max := max |}.

(** [constructor({ min = -Infinity, max = Infinity } = {})] *)
Definition constructor {I : JSInfinity num} (min max : option num) : t :=
  new (default js_neg_Infinity min) (default js_Infinity max).

Inductive attribute : Type :=
| set_min (v : num)
| set_max (v : num).

Definition assign (this : t) (a : attribute) : t :=
  match a with
  | set_min v => {| min := v; max := max this |}
  | set_max v => {| min := min this; max := v |}
  end.

(** [set(attributes)]: [Object.assign(this, attributes)] *)
Definition set (this : t) (attributes : list attribute) : t :=
  fold_left assign attributes this.

(** [process(inputValue)] *)
Definition process (this : t) (inputValue : num) : num :=
  Math_min (max this) (Math_max (min this) inputValue).

End Clipper.
Arguments t : clear implicits.
Arguments attribute : clear implicits.
End Clipper.

(** ** src/Lowpass.js *)

Module Lowpass.
Section Lowpass.
Context {num : Type} {N : JSNumber num}.
(** [hertzToNormalised(frequency, { sampleRate })], imported from
    [@ircam/sc-utils]: a collaborator, any function here. *)
Variable hertzToNormalised : num -> num -> num.
Local Open Scope js_scope.

Record t : Type := {
  sampleRate : num;
  lowpassFrequency : num;
  inputScale : num;
  feedbackScale : num;
  outputValueLast : option num     (* [None] is [undefined] *)
}.

(** [init()] *)
Definition init (this : t) : t :=
  let inputScale :=
    Math_max num_0 (Math_min num_1
      (hertzToNormalised (lowpassFrequency this) (sampleRate this))) in
  {| sampleRate := sampleRate this;
     lowpassFrequency := lowpassFrequency this;
     inputScale := inputScale;
     feedbackScale := num_1 - inputScale;
     outputValueLast := outputValueLast this |}.

(** The body of the constructor, once the options have their values: the
    two fields are stored and [init] derives the coefficients;
    [outputValueLast] has not been assigned yet. *)
Definition new (sampleRate lowpassFrequency : num) : t :=
  init {| sampleRate := sampleRate;
          lowpassFrequency := lowpassFrequency;
          inputScale := num_0;
          feedbackScale := num_0;
          outputValueLast := None |}.

(** [constructor({ sampleRate = 2, lowpassFrequency = 0.5 } = {})]; the
    literal 0.5 is the double 1/2. *)
Definition constructor (sampleRate lowpassFrequency : option num) : t :=
  new (default num_2 sampleRate) (default (num_1 / num_2) lowpassFrequency).

(** The own properties [Object.assign] can write.  The first two are the
    documented options. *)
Inductive attribute : Type :=
| set_sampleRate (v : num)
| set_lowpassFrequency (v : num)
| set_inputScale (v : num)
| set_feedbackScale (v : num)
| set_outputValueLast (v : option num).

Definition documented (a : attribute) : bool :=
  match a with
  | set_sampleRate _ | set_lowpassFrequency _ => true
  | _ => false
  end.

Definition assign (this : t) (a : attribute) : t :=
  match a with
  | set_sampleRate v =>
      {| sampleRate := v; lowpassFrequency := lowpassFrequency this;
         inputScale := inputScale this; feedbackScale := feedbackScale this;
         outputValueLast := outputValueLast this |}
  | set_lowpassFrequency v =>
      {| sampleRate := sampleRate this; lowpassFrequency := v;
         inputScale := inputScale this; feedbackScale := feedbackScale this;
         outputValueLast := outputValueLast this |}
  | set_inputScale v =>
      {| sampleRate := sampleRate this;
         lowpassFrequency := lowpassFrequency this;
         inputScale := v; feedbackScale := feedbackScale this;
         outputValueLast := outputValueLast this |}
  | set_feedbackScale v =>
      {| sampleRate := sampleRate this;
         lowpassFrequency := lowpassFrequency this;
         inputScale := inputScale this; feedbackScale := v;
         outputValueLast := outputValueLast this |}
  | set_outputValueLast v =>
      {| sampleRate := sampleRate this;
         lowpassFrequency := lowpassFrequency this;
         inputScale := inputScale this; feedbackScale := feedbackScale this;
         outputValueLast := v |}
  end.

(** [set(attributes)]: [Object.assign(this, attributes); this.init()] *)
Definition set (this : t) (attributes : list attribute) : t :=
  init (fold_left assign attributes this).

(** [process(inputValue)]: the output and the object afterwards. *)
Definition process (this : t) (inputValue : num) : num * t :=
  let last :=
    match outputValueLast this with
    | None => inputValue
    | Some last => last
    end in
  let feedback := last * feedbackScale this in
  let outputValue := inputValue * inputScale this + feedback in
  (outputValue,
   {| sampleRate := sampleRate this;
      lowpassFrequency := lowpassFrequency this;
      inputScale := inputScale this;
      feedbackScale := feedbackScale this;
      outputValueLast := Some outputValue |}).

(** [reset()] *)
Definition reset (this : t) : t :=
  {| sampleRate := sampleRate this;
     lowpassFrequency := lowpassFrequency this;
     inputScale := inputScale this;
     feedbackScale := feedbackScale this;
     outputValueLast := None |}.

(** The outputs of successive [process] calls, and the object after them. *)
Fixpoint run (this : t) (inputs : list num) : list num * t :=
  match inputs with
  | [] => ([], this)
  | x :: rest =>
      let (y, this') := process this x in
      let (ys, this'') := run this' rest in
      (y :: ys, this'')
  end.

(** The object after [n] calls [process(inputValue)] in a row. *)
Fixpoint feed (this : t) (inputValue : num) (n : nat) : t :=
  match n with
  | O => this
  | S n => snd (process (feed this inputValue n) inputValue)
  end.

(** What the call after those [n] returns. *)
Definition output (this : t) (inputValue : num) (n : nat) : num :=
  fst (process (feed this inputValue n) inputValue).

(** The objects a program can hold: built by the constructor, then passed
    through the methods in any order. *)
Inductive reachable : t -> Prop :=
| reachable_new (sampleRate lowpassFrequency : num) :
    reachable (new sampleRate lowpassFrequency)
| reachable_set (this : t) (attributes : list attribute) :
    reachable this -> reachable (set this attributes)
| reachable_process (this : t) (inputValue : num) :
    reachable this -> reachable (snd (process this inputValue))
| reachable_reset (this : t) :
    reachable this -> reachable (reset this).

(** The objects as they are immediately after construction or immediately
    after [reset()]. *)
Inductive fresh : t -> Prop :=
| fresh_new (sampleRate lowpassFrequency : num) :
    fresh (new sampleRate lowpassFrequency)
| fresh_reset (this : t) :
    reachable this -> fresh (reset this).

End Lowpass.
Arguments t : clear implicits.
Arguments attribute : clear implicits.
End Lowpass.

(** ** src/Hysteresis.js *)

Module Hysteresis.
Section Hysteresis.
Context {num : Type} {N : JSNumber num}.
Variable hertzToNormalised : num -> num -> num.
Local Open Scope js_scope.

(** The objects stored in [this.up] and [this.down]. *)
Record coefficients : Type := {
  inputScale : num;
  feedbackScale : num
}.

Record t : Type := {
  sampleRate : num;
  lowpassFrequencyUp : num;
  lowpassFrequencyDown : num;
  up : coefficients;
  down : coefficients;
  outputValueLast : option num
}.

(** [init()] *)
Definition init (this : t) : t :=
  let inputScaleUp :=
    Math_max num_0 (Math_min num_1
      (hertzToNormalised (lowpassFrequencyUp this) (sampleRate this))) in
  let feedbackScaleUp := num_1 - inputScaleUp in
  let inputScaleDown :=
    Math_max num_0 (Math_min num_1
      (hertzToNormalised (lowpassFrequencyDown this) (sampleRate this))) in
  let feedbackScaleDown := num_1 - inputScaleDown in
  {| sampleRate := sampleRate this;
     lowpassFrequencyUp := lowpassFrequencyUp this;
     lowpassFrequencyDown := lowpassFrequencyDown this;
     up := {| inputScale := inputScaleUp;
              feedbackScale := feedbackScaleUp |};
     down := {| inputScale := inputScaleDown;
                feedbackScale := feedbackScaleDown |};
     outputValueLast := outputValueLast this |}.

(** The body of the constructor, once the options have their values. *)
Definition new (sampleRate lowpassFrequencyUp lowpassFrequencyDown : num)
  : t :=
  let unset := {| inputScale := num_0; feedbackScale := num_0 |} in
  init {| sampleRate := sampleRate;
          lowpassFrequencyUp := lowpassFrequencyUp;
          lowpassFrequencyDown := lowpassFrequencyDown;
          up := unset;
          down := unset;
          outputValueLast := None |}.

(** [constructor({ sampleRate = 2, lowpassFrequencyUp = 0.5,
    lowpassFrequencyDown = 0.5 } = {})] *)
Definition constructor
  (sampleRate lowpassFrequencyUp lowpassFrequencyDown : option num) : t :=
  new (default num_2 sampleRate)
      (default (num_1 / num_2) lowpassFrequencyUp)
      (default (num_1 / num_2) lowpassFrequencyDown).

Inductive attribute : Type :=
| set_sampleRate (v : num)
| set_lowpassFrequencyUp (v : num)
| set_lowpassFrequencyDown (v : num)
| set_up (v : coefficients)
| set_down (v : coefficients)
| set_outputValueLast (v : option num).

Definition documented (a : attribute) : bool :=
  match a with
  | set_sampleRate _ | set_lowpassFrequencyUp _
  | set_lowpassFrequencyDown _ => true
  | _ => false
  end.

Definition assign (this : t) (a : attribute) : t :=
  match a with
  | set_sampleRate v =>
      {| sampleRate := v;
         lowpassFrequencyUp := lowpassFrequencyUp this;
         lowpassFrequencyDown := lowpassFrequencyDown this;
         up := up this; down := down this;
         outputValueLast := outputValueLast this |}
  | set_lowpassFrequencyUp v =>
      {| sampleRate := sampleRate this;
         lowpassFrequencyUp := v;
         lowpassFrequencyDown := lowpassFrequencyDown this;
         up := up this; down := down this;
         outputValueLast := outputValueLast this |}
  | set_lowpassFrequencyDown v =>
      {| sampleRate := sampleRate this;
         lowpassFrequencyUp := lowpassFrequencyUp this;
         lowpassFrequencyDown := v;
         up := up this; down := down this;
         outputValueLast := outputValueLast this |}
  | set_up v =>
      {| sampleRate := sampleRate this;
         lowpassFrequencyUp := lowpassFrequencyUp this;
         lowpassFrequencyDown := lowpassFrequencyDown this;
         up := v; down := down this;
         outputValueLast := outputValueLast this |}
  | set_down v =>
      {| sampleRate := sampleRate this;
         lowpassFrequencyUp := lowpassFrequencyUp this;
         lowpassFrequencyDown := lowpassFrequencyDown this;
         up := up this; down := v;
         outputValueLast := outputValueLast this |}
  | set_outputValueLast v =>
      {| sampleRate := sampleRate this;
         lowpassFrequencyUp := lowpassFrequencyUp this;
         lowpassFrequencyDown := lowpassFrequencyDown this;
         up := up this; down := down this;
         outputValueLast := v |}
  end.

(** [set(attributes)] *)
Definition set (this : t) (attributes : list attribute) : t :=
  init (fold_left assign attributes this).

Inductive direction : Type := Up | Down.

(** [this[direction]] *)
Definition select (this : t) (d : direction) : coefficients :=
  match d with Up => up this | Down => down this end.

(** The test of [process]: [inputValue > this.outputValueLast]. *)
Definition direction_of (inputValue last : num) : direction :=
  if inputValue > last then Up else Down.

(** [process(inputValue)] *)
Definition process (this : t) (inputValue : num) : num * t :=
  let last :=
    match outputValueLast this with
    | None => inputValue
    | Some last => last
    end in
  let direction := direction_of inputValue last in
  let c := select this direction in
  let feedback := last * feedbackScale c in
  let outputValue := inputValue * inputScale c + feedback in
  (outputValue,
   {| sampleRate := sampleRate this;
      lowpassFrequencyUp := lowpassFrequencyUp this;
      lowpassFrequencyDown := lowpassFrequencyDown this;
      up := up this; down := down this;
      outputValueLast := Some outputValue |}).

(** [reset()] *)
Definition reset (this : t) : t :=
  {| sampleRate := sampleRate this;
     lowpassFrequencyUp := lowpassFrequencyUp this;
     lowpassFrequencyDown := lowpassFrequencyDown this;
     up := up this; down := down this;
     outputValueLast := None |}.

Fixpoint run (this : t) (inputs : list num) : list num * t :=
  match inputs with
  | [] => ([], this)
  | x :: rest =>
      let (y, this') := process this x in
      let (ys, this'') := run this' rest in
      (y :: ys, this'')
  end.

(** The object after [n] calls [process(inputValue)] in a row. *)
Fixpoint feed (this : t) (inputValue : num) (n : nat) : t :=
  match n with
  | O => this
  | S n => snd (process (feed this inputValue n) inputValue)
  end.

(** What the call after those [n] returns. *)
Definition output (this : t) (inputValue : num) (n : nat) : num :=
  fst (process (feed this inputValue n) inputValue).

(** The objects a program can hold: built by the constructor, then passed
    through the methods in any order. *)
Inductive reachable : t -> Prop :=
| reachable_new (sampleRate lowpassFrequencyUp lowpassFrequencyDown : num) :
    reachable (new sampleRate lowpassFrequencyUp lowpassFrequencyDown)
| reachable_set (this : t) (attributes : list attribute) :
    reachable this -> reachable (set this attributes)
| reachable_process (this : t) (inputValue : num) :
    reachable this -> reachable (snd (process this inputValue))
| reachable_reset (this : t) :
    reachable this -> reachable (reset this).

(** The objects as they are immediately after construction or immediately
    after [reset()]. *)
Inductive fresh : t -> Prop :=
| fresh_new (sampleRate lowpassFrequencyUp lowpassFrequencyDown : num) :
    fresh (new sampleRate lowpassFrequencyUp lowpassFrequencyDown)
| fresh_reset (this : t) :
    reachable this -> fresh (reset this).

End Hysteresis.
Arguments coefficients : clear implicits.
Arguments t : clear implicits.
Arguments attribute : clear implicits.
End Hysteresis.

(** ** src/Scaler.js *)

Module Scaler.
Section Scaler.
Context {num : Type} {N : JSNumber num} {M : JSMath num}.
Local Open Scope js_scope.
Local Open Scope string_scope.

Record t : Type := {
  inputStart : num;
  inputEnd : num;
  outputStart : num;
  outputEnd : num;
  clip : bool;
  type : string;
  base : num;
  inputRange : num;
  outputRange : num;
  inputMin : num;
  inputMax : num;
  logBase : num
}.

(** The first statement of [init]: the abbreviations of [type]. *)
Definition normalise_type (type : string) : string :=
  if String.eqb type "lin" then "linear"
  else if String.eqb type "log" then "logarithmic"
  else if String.eqb type "exp" then "exponential"
  else type.

(** [init()] *)
Definition init (this : t) : t :=
  let type := normalise_type (type this) in
  let base := Math_max num_0 (base this) in
  {| inputStart := inputStart this;
     inputEnd := inputEnd this;
     outputStart := outputStart this;
     outputEnd := outputEnd this;
     clip := clip this;
     type := type;
     base := base;
     inputRange := inputEnd this - inputStart this;
     outputRange := outputEnd this - outputStart this;
     inputMin := Math_min (inputStart this) (inputEnd this);
     inputMax := Math_max (inputStart this) (inputEnd this);
     logBase := Math_log base |}.

(** The body of the constructor, once the options have their values. *)
Definition new (inputStart inputEnd outputStart outputEnd : num)
  (clip : bool) (type : string) (base : num) : t :=
  init {| inputStart := inputStart;
          inputEnd := inputEnd;
          outputStart := outputStart;
          outputEnd := outputEnd;
          clip := clip;
          type := type;
          base := base;
          inputRange := num_0;
          outputRange := num_0;
          inputMin := num_0;
          inputMax := num_0;
          logBase := num_0 |}.

(** [constructor({ inputStart = 0, inputEnd = 1, outputStart = 0,
    outputEnd = 1, clip = false, type = 'linear', base = 1 } = {})] *)
Definition constructor
  (inputStart inputEnd outputStart outputEnd : option num)
  (clip : option bool) (type : option string) (base : option num) : t :=
  new (default num_0 inputStart) (default num_1 inputEnd)
      (default num_0 outputStart) (default num_1 outputEnd)
      (default false clip) (default "linear" type) (default num_1 base).

(** The documented options, as [Object.assign] writes them. *)
Inductive attribute : Type :=
| set_inputStart (v : num)
| set_inputEnd (v : num)
| set_outputStart (v : num)
| set_outputEnd (v : num)
| set_clip (v : bool)
| set_type (v : string)
| set_base (v : num).

Definition assign (this : t) (a : attribute) : t :=
  {| inputStart := match a with set_inputStart v => v | _ => inputStart this end;
     inputEnd := match a with set_inputEnd v => v | _ => inputEnd this end;
     outputStart :=
       match a with set_outputStart v => v | _ => outputStart this end;
     outputEnd := match a with set_outputEnd v => v | _ => outputEnd this end;
     clip := match a with set_clip v => v | _ => clip this end;
     type := match a with set_type v => v | _ => type this end;
     base := match a with set_base v => v | _ => base this end;
     inputRange := inputRange this;
     outputRange := outputRange this;
     inputMin := inputMin this;
     inputMax := inputMax this;
     logBase := logBase this |}.

(** [set(attributes)] *)
Definition set (this : t) (attributes : list attribute) : t :=
  init (fold_left assign attributes this).

(** The guard of [process]: an input or an output range of width zero. *)
Definition degenerate (this : t) : bool :=
  (inputRange this === num_0) || (outputRange this === num_0).

(** The test of the linear branch: [this.base === 1 || this.type ===
    'linear']. *)
Definition linear (this : t) : bool :=
  (base this === num_1) || String.eqb (type this) "linear".

(** [process(inputValue)] *)
Definition process (this : t) (inputValue : num) : num :=
  if degenerate this then
    if inputValue <= inputMin this then outputStart this
    else outputEnd this
  else
    let input :=
      if clip this
      then Math_max (inputMin this) (Math_min (inputMax this) inputValue)
      else inputValue in
    if linear this then
      outputStart this + outputRange this
        * (input - inputStart this) / inputRange this
    else if String.eqb (type this) "logarithmic" then
      outputStart this + outputRange this
        * Math_log ((base this - num_1) * (input - inputStart this)
                    / inputRange this + num_1)
        / logBase this
    else
      outputStart this + outputRange this
        * (Math_exp (logBase this * (input - inputStart this)
                     / inputRange this) - num_1)
        / (base this - num_1).

End Scaler.
Arguments t : clear implicits.
Arguments attribute : clear implicits.
End Scaler.

(** ** The helper of the tests *)

Section Tests.
Context {num : Type} {N : JSNumber num}.
Local Open Scope js_scope.

(** [assertWithRelativeError(value, valueExpected, relativeError)] passes:
    both of its assertions, [isAtLeast] and [isAtMost], hold. *)
Definition withRelativeError (value valueExpected relativeError : num)
  : bool :=
  (value >= valueExpected - Math_abs value * relativeError)
  && (value <= valueExpected + Math_abs value * relativeError).

(** [assertWithin(value, valueMin, valueMax)] passes. *)
Definition within (value valueMin valueMax : num) : bool :=
  (value >= valueMin) && (value <= valueMax).

End Tests.

(** ** The collaborator *)

Section ScUtils.
Context {num : Type} {N : JSNumber num}.
Local Open Scope js_scope.

(** [hertzToNormalised] belongs to [@ircam/sc-utils], outside this
    repository, and the classes above take it as a parameter.  Where an
    object has to be evaluated the conversion is the one the examples in the
    documentation of Lowpass and Hysteresis show: a frequency as a fraction
    of half the sample rate, so that a sample rate of 2 leaves it as it is. *)
Definition hertzToNormalised (frequencyHertz sampleRate : num) : num :=
  num_2 * frequencyHertz / sampleRate.

End ScUtils.

(** ** Vocabulary of the statements *)

Section Vocabulary.
Context {num : Type} {N : JSNumber num}.
Variable hertzToNormalised : num -> num -> num.
Local Open Scope js_scope.

(** The expression both [init] methods assign to [inputScale]. *)
Definition coefficient (frequency sampleRate : num) : num :=
  Math_max num_0 (Math_min num_1 (hertzToNormalised frequency sampleRate)).

(** [0 <= a && a <= 1] *)
Definition in_unit_interval (a : num) : bool :=
  (num_0 <= a) && (a <= num_1).

End Vocabulary.

(** ** Objects the statements below are evaluated on *)

Module Examples.
Import F64.

(** [new Clipper({ min: 0, max: 1 })] *)
Definition clipper_unit : Clipper.t f64 := Clipper.new pos_zero one.

(** [new Clipper({ min: 1, max: 0 })]: the bounds the wrong way round. *)
Definition clipper_inverted : Clipper.t f64 := Clipper.new one pos_zero.

(** [new Lowpass({ sampleRate: 2, lowpassFrequency: 0.9 })], the example
    of the documentation. *)
Definition lowpass_09 : Lowpass.t f64 :=
  Lowpass.new hertzToNormalised two (of_ratio 9 10).

(** [new Lowpass({ sampleRate: 2, lowpassFrequency: 0.3 })] *)
Definition lowpass_03 : Lowpass.t f64 :=
  Lowpass.new hertzToNormalised two (of_ratio 3 10).

(** [new Lowpass({ sampleRate: 2, lowpassFrequency: 1 })] *)
Definition lowpass_1 : Lowpass.t f64 :=
  Lowpass.new hertzToNormalised two one.

(** [new Lowpass({ sampleRate: 0, lowpassFrequency: 0 })] *)
Definition lowpass_0_0 : Lowpass.t f64 :=
  Lowpass.new hertzToNormalised pos_zero pos_zero.

(** [2 ** -54], and [0.5] *)
Definition two_pow_m54 : f64 := S754_finite false 4503599627370496 (-106).
Definition half : f64 := Eval vm_compute in of_ratio 1 2.

(** [new Lowpass({ sampleRate: 2, lowpassFrequency: 2 ** -54 })], and the
    same object after [process(0)]: its [outputValueLast] is 0. *)
Definition lowpass_tiny : Lowpass.t f64 :=
  Lowpass.new hertzToNormalised two two_pow_m54.

Definition lowpass_tiny_zero : Lowpass.t f64 :=
  snd (Lowpass.process lowpass_tiny pos_zero).

(** In exact arithmetic,
    [new Lowpass({ sampleRate: 2, lowpassFrequency: 0.25 })] after
    [process(0)]. *)
Definition lowpass_quarter_zero : Lowpass.t R :=
  snd (Lowpass.process (Lowpass.new hertzToNormalised 2%R (1 / 4)%R) 0%R).

(** [new Hysteresis({ sampleRate: 2, lowpassFrequencyUp: 0.9,
    lowpassFrequencyDown: 0.1 })], the example of the documentation. *)
Definition hysteresis_09_01 : Hysteresis.t f64 :=
  Hysteresis.new hertzToNormalised two (of_ratio 9 10) (of_ratio 1 10).

(** [new Hysteresis({ sampleRate: 2, lowpassFrequencyUp: 0.9,
    lowpassFrequencyDown: 0.3 })] *)
Definition hysteresis_09_03 : Hysteresis.t f64 :=
  Hysteresis.new hertzToNormalised two (of_ratio 9 10) (of_ratio 3 10).

(** [new Scaler({ inputStart: 5, inputEnd: 5 })]: an input range of
    width zero, the other options at their defaults. *)
Definition scaler_step : Scaler.t f64 :=
  Scaler.constructor (M := math_nan)
    (Some (of_Z 5)) (Some (of_Z 5)) None None None None None.







(** The doubles [k * 2 ** -54] from [2 ** -54] up to, and without, one
    half: a mantissa of 53 bits at the exponent [j - 106], its bits of
    weight under [2 ** -54] clear. *)
Definition on_grid (y : f64) : Prop :=
  exists (m : positive) (j : Z),
    y = S754_finite false m (j - 106)
    /\ (2 ^ 52 <= Zpos m < 2 ^ 53)%Z
    /\ (0 <= j <= 52)%Z
    /\ (2 ^ (52 - j) | Zpos m)%Z.

(** What the outputs of [lowpass_tiny_zero] run through. *)
Definition on_grid_or_end (y : f64) : Prop :=
  y = pos_zero \/ on_grid y \/ y = half.

End Examples.

(** * Properties *)

(** ** The order of doubles *)

Section CompareFacts.
Import F64.

Lemma compare_cont_Eq (p q : positive) :
  Pos.compare_cont Eq p q = Pos.compare p q.
Proof. reflexivity. Qed.

Lemma compare_cont_spec (p q : positive) :
  CompareSpec (p = q) (p < q)%positive (q < p)%positive
    (Pos.compare_cont Eq p q).
Proof. exact (Pos.compare_spec p q). Qed.

Lemma SFcompare_refl (x : f64) :
  is_nan x = false -> SFcompare x x = Some Eq.
Proof.
  destruct x as [s|s| |s m e]; simpl; try discriminate; intros _;
    destruct s; try reflexivity;
    rewrite Z.compare_refl, compare_cont_Eq, Pos.compare_refl; reflexivity.
Qed.

Lemma SFcompare_antisym (x y : f64) :
  SFcompare y x = option_map CompOpp (SFcompare x y).
Proof.
  destruct x as [s|s| |s m e], y as [s'|s'| |s' m' e']; simpl;
    try reflexivity; try (destruct s; reflexivity);
    try (destruct s'; reflexivity);
    try (destruct s, s'; reflexivity).
  destruct s, s'; try reflexivity;
    rewrite (Z.compare_antisym e e'), !compare_cont_Eq,
      (Pos.compare_antisym m m');
    destruct (e ?= e')%Z; simpl; try reflexivity;
    destruct (m ?= m')%positive; reflexivity.
Qed.

(** [x === y] holds of identical doubles and of the two zeros only. *)
Lemma SFcompare_Eq_inv (x y : f64) :
  SFcompare x y = Some Eq -> x = y \/ (is_zero x = true /\ is_zero y = true).
Proof.
  destruct x as [s|s| |s m e], y as [s'|s'| |s' m' e']; simpl;
    try discriminate; auto;
    try (destruct s; discriminate); try (destruct s'; discriminate).
  - destruct s, s'; try discriminate; auto.
  - destruct s, s'; try discriminate; rewrite compare_cont_Eq;
      destruct (Z.compare_spec e e'); try discriminate;
      destruct (Pos.compare_spec m m'); try discriminate;
      subst; auto.
Qed.

Lemma SFltb_trans (x y z : f64) :
  SFltb x y = true -> SFltb y z = true -> SFltb x z = true.
Proof.
  unfold SFltb.
  destruct x as [s|s| |s m e], y as [s'|s'| |s' m' e'],
    z as [s''|s''| |s'' m'' e'']; simpl; try discriminate; auto;
    try (destruct s; simpl; try discriminate; auto; fail);
    try (destruct s'; simpl; try discriminate; auto; fail);
    try (destruct s''; simpl; try discriminate; auto; fail);
    try (destruct s, s'; simpl; try discriminate; auto; fail);
    try (destruct s, s''; simpl; try discriminate; auto; fail);
    try (destruct s', s''; simpl; try discriminate; auto; fail);
    try (destruct s, s', s''; simpl; try discriminate; auto; fail).
  destruct s, s', s''; simpl; try discriminate; auto;
    destruct (Z.compare_spec e e'), (Z.compare_spec e' e''),
      (Z.compare_spec e e''); simpl; try discriminate; auto; try lia;
    destruct (compare_cont_spec m m'), (compare_cont_spec m' m''),
      (compare_cont_spec m m''); simpl; try discriminate; auto; lia.
Qed.

Lemma SFcompare_zero_l (s s' : bool) (z : f64) :
  SFcompare (S754_zero s) z = SFcompare (S754_zero s') z.
Proof. destruct z; reflexivity. Qed.

Lemma SFcompare_Eq_compat_l (x y z : f64) :
  SFcompare x y = Some Eq -> SFcompare x z = SFcompare y z.
Proof.
  intros H. destruct (SFcompare_Eq_inv _ _ H) as [-> | [Hx Hy]]; trivial.
  destruct x, y; try discriminate. apply SFcompare_zero_l.
Qed.

Lemma SFcompare_Eq_compat_r (x y z : f64) :
  SFcompare x y = Some Eq -> SFcompare z x = SFcompare z y.
Proof.
  intros H. rewrite (SFcompare_antisym x z), (SFcompare_antisym y z).
  now rewrite (SFcompare_Eq_compat_l _ _ z H).
Qed.

Lemma SFltb_SFleb (x y : f64) : SFltb x y = true -> SFleb x y = true.
Proof. unfold SFltb, SFleb. now destruct (SFcompare x y) as [[]|]. Qed.

Lemma SFleb_refl (x : f64) : is_nan x = false -> SFleb x x = true.
Proof. intros H. unfold SFleb. now rewrite SFcompare_refl. Qed.

Lemma SFleb_not_nan (x y : f64) :
  SFleb x y = true -> is_nan x = false /\ is_nan y = false.
Proof. destruct x, y; simpl; auto; discriminate. Qed.

Lemma SFltb_not_nan (x y : f64) :
  SFltb x y = true -> is_nan x = false /\ is_nan y = false.
Proof. destruct x, y; simpl; auto; discriminate. Qed.

Lemma SFcompare_not_nan (x y : f64) :
  is_nan x = false -> is_nan y = false -> exists c, SFcompare x y = Some c.
Proof. destruct x, y; simpl; try discriminate; eauto. Qed.

(** Of two numbers, none of them NaN, one is below the other. *)
Lemma SFltb_false_SFleb (x y : f64) :
  is_nan x = false -> is_nan y = false ->
  SFltb x y = false -> SFleb y x = true.
Proof.
  intros Hx Hy. unfold SFltb, SFleb. rewrite (SFcompare_antisym x y).
  destruct (SFcompare_not_nan x y Hx Hy) as [c ->].
  destruct c; simpl; auto; discriminate.
Qed.

Lemma SFleb_SFltb_false (x y : f64) :
  SFleb x y = true -> SFltb y x = false.
Proof.
  unfold SFltb, SFleb. rewrite (SFcompare_antisym x y).
  destruct (SFcompare x y) as [[]|]; simpl; auto; discriminate.
Qed.

(** *** [Math.max] and [Math.min] on doubles *)

Lemma max_cases (a b : f64) :
  is_nan a = false -> is_nan b = false -> max a b = a \/ max a b = b.
Proof.
  intros Ha Hb. unfold max. rewrite Ha, Hb. simpl.
  destruct a as [[]| | |], b as [[]| | |]; auto;
    match goal with |- context [if ?c then _ else _] => destruct c end; auto.
Qed.

Lemma min_cases (a b : f64) :
  is_nan a = false -> is_nan b = false -> min a b = a \/ min a b = b.
Proof.
  intros Ha Hb. unfold min. rewrite Ha, Hb. simpl.
  destruct a as [[]| | |], b as [[]| | |]; auto;
    match goal with |- context [if ?c then _ else _] => destruct c end; auto.
Qed.

Lemma max_lt (a b : f64) : SFltb a b = true -> max a b = b.
Proof.
  intros H. destruct (SFltb_not_nan _ _ H) as [Ha Hb].
  unfold max. rewrite Ha, Hb, H. simpl.
  destruct a as [[]| | |], b as [[]| | |]; reflexivity.
Qed.

Lemma min_lt (a b : f64) : SFltb a b = true -> min a b = a.
Proof.
  intros H. destruct (SFltb_not_nan _ _ H) as [Ha Hb].
  unfold min. rewrite Ha, Hb, (SFleb_SFltb_false _ _ (SFltb_SFleb _ _ H)).
  simpl. destruct a as [[]| | |], b as [[]| | |]; try reflexivity.
  discriminate.
Qed.

Lemma le_max_l (a b : f64) :
  is_nan a = false -> is_nan b = false -> SFleb a (max a b) = true.
Proof.
  intros Ha Hb. unfold max. rewrite Ha, Hb. simpl.
  assert (G : SFleb a (if SFltb a b then b else a) = true).
  { destruct (SFltb a b) eqn:E.
    - now apply SFltb_SFleb.
    - now apply SFleb_refl. }
  destruct a as [[]| | |], b as [[]| | |]; auto.
Qed.

Lemma min_le_l (a b : f64) :
  is_nan a = false -> is_nan b = false -> SFleb (min a b) a = true.
Proof.
  intros Ha Hb. unfold min. rewrite Ha, Hb. simpl.
  assert (G : SFleb (if SFltb b a then b else a) a = true).
  { destruct (SFltb b a) eqn:E.
    - now apply SFltb_SFleb.
    - now apply SFleb_refl. }
  destruct a as [[]| | |], b as [[]| | |]; auto.
Qed.

(** [Math.max(a, b) === b] as soon as [a <= b]. *)
Lemma max_le (a b : f64) :
  SFleb a b = true -> SFcompare (max a b) b = Some Eq.
Proof.
  intros H. destruct (SFleb_not_nan _ _ H) as [Ha Hb].
  unfold max. rewrite Ha, Hb. simpl.
  assert (G : SFcompare (if SFltb a b then b else a) b = Some Eq).
  { unfold SFltb, SFleb in *.
    destruct (SFcompare a b) as [[]|] eqn:E; try discriminate; auto.
    now apply SFcompare_refl. }
  destruct a as [[]| | |], b as [[]| | |]; auto.
Qed.

(** [Math.min(a, b) === b] as soon as [b <= a]. *)
Lemma min_le (a b : f64) :
  SFleb b a = true -> SFcompare (min a b) b = Some Eq.
Proof.
  intros H. destruct (SFleb_not_nan _ _ H) as [Hb Ha].
  unfold min. rewrite Ha, Hb. simpl.
  assert (G : SFcompare (if SFltb b a then b else a) b = Some Eq).
  { unfold SFltb, SFleb in *.
    destruct (SFcompare b a) as [[]|] eqn:E; try discriminate.
    - rewrite (SFcompare_antisym b a), E. reflexivity.
    - now apply SFcompare_refl. }
  destruct a as [[]| | |], b as [[]| | |]; auto.
Qed.

End CompareFacts.

(** ** Clipper *)

Section ClipperFacts.
Import F64.
Local Open Scope js_scope.

Lemma Clipper_process_within (c : Clipper.t f64) (x : f64) :
  (Clipper.min c <= Clipper.max c) = true -> is_nan x = false ->
  (Clipper.min c <= Clipper.process c x) = true
  /\ (Clipper.process c x <= Clipper.max c) = true.
Proof.
  intros Hmm Hx. destruct (SFleb_not_nan _ _ Hmm) as [Hlo Hhi].
  unfold Clipper.process. simpl.
  assert (Hm : is_nan (max (Clipper.min c) x) = false).
  { destruct (max_cases (Clipper.min c) x Hlo Hx) as [-> | ->]; trivial. }
  split.
  - destruct (min_cases (Clipper.max c) _ Hhi Hm) as [-> | ->]; trivial.
    now apply le_max_l.
  - now apply min_le_l.
Qed.

Lemma Clipper_process_inside (c : Clipper.t f64) (x : f64) :
  (Clipper.min c <= x) = true -> (x <= Clipper.max c) = true ->
  SFcompare (Clipper.process c x) x = Some Eq.
Proof.
  intros Hlo Hhi. unfold Clipper.process. simpl in *.
  pose proof (max_le _ _ Hlo) as E1.
  assert (H1 : SFleb (max (Clipper.min c) x) (Clipper.max c) = true).
  { unfold SFleb. rewrite (SFcompare_Eq_compat_l _ _ (Clipper.max c) E1).
    exact Hhi. }
  pose proof (min_le _ _ H1) as E2.
  now rewrite (SFcompare_Eq_compat_r _ _ _ E1) in E2.
Qed.

(** C6.  [process(x)] is [Math.min(max, Math.max(min, x))].  Hence, when
    [min <= max] and [x] is finite, [min <= process(x) <= max]; and when
    [min <= x <= max], [process(x) === x], the result being [x] itself
    unless [x] is a zero (of two zeros [Math.max] returns [+0] and
    [Math.min] returns [-0], and the two are [===]). *)
Theorem Clipper_process_clamp (c : Clipper.t f64) (x : f64) :
  Clipper.process c x
    = Math_min (Clipper.max c) (Math_max (Clipper.min c) x)
  /\ ((Clipper.min c <= Clipper.max c) = true -> is_finite x = true ->
      (Clipper.min c <= Clipper.process c x) = true
      /\ (Clipper.process c x <= Clipper.max c) = true)
  /\ ((Clipper.min c <= x) = true -> (x <= Clipper.max c) = true ->
      (Clipper.process c x === x) = true
      /\ (is_zero x = false -> Clipper.process c x = x)).
Proof.
  split; [reflexivity | split].
  - intros Hmm Hx. apply Clipper_process_within; trivial.
    now destruct x.
  - intros Hlo Hhi. pose proof (Clipper_process_inside c x Hlo Hhi) as E.
    split.
    + change (SFeqb (Clipper.process c x) x = true).
      unfold SFeqb. now rewrite E.
    + intros Hz. destruct (SFcompare_Eq_inv _ _ E) as [-> | [_ Hz']];
        congruence.
Qed.

Lemma Clipper_process_clamp_witness :
  let c := Examples.clipper_unit in
  let x := of_ratio 1 2 in
  ((Clipper.min c <= Clipper.process c x) = true
   /\ (Clipper.process c x <= Clipper.max c) = true)
  /\ (Clipper.process c x === x) = true
  /\ Clipper.process c x = x.
Proof.
  intros c x.
  destruct (Clipper_process_clamp c x) as (_ & Hin & Hid).
  split; [ apply Hin; vm_compute; reflexivity | ].
  destruct Hid as [Heq Hsame]; [ vm_compute; reflexivity .. | ].
  split; [ exact Heq | apply Hsame; vm_compute; reflexivity ].
Defined.

(** C9, amended.  When [min > max], [process(x)] is [max] for every [x]
    that is not NaN, the infinities included. *)
Theorem Clipper_process_inverted (c : Clipper.t f64) (x : f64) :
  (Clipper.min c > Clipper.max c) = true -> is_nan x = false ->
  Clipper.process c x = Clipper.max c.
Proof.
  simpl. intros Hinv Hx. destruct (SFltb_not_nan _ _ Hinv) as [Hhi Hlo].
  unfold Clipper.process. simpl. apply min_lt.
  unfold max. rewrite Hlo, Hx. simpl.
  assert (G : SFltb (Clipper.max c)
                (if SFltb (Clipper.min c) x then x else Clipper.min c)
              = true).
  { destruct (SFltb (Clipper.min c) x) eqn:E; trivial.
    eapply SFltb_trans; eassumption. }
  destruct (Clipper.min c) as [[]| | |] eqn:Emin, x as [[]| | |]; auto.
Qed.

Lemma Clipper_process_inverted_witness :
  Clipper.process Examples.clipper_inverted Infinity = pos_zero
  /\ Clipper.process Examples.clipper_inverted neg_Infinity = pos_zero.
Proof.
  split.
  - apply (Clipper_process_inverted Examples.clipper_inverted Infinity);
      vm_compute; reflexivity.
  - apply (Clipper_process_inverted Examples.clipper_inverted neg_Infinity);
      vm_compute; reflexivity.
Defined.

(** C9 as stated fails on NaN, which [Math.max] and [Math.min] return as
    soon as they receive it: with [min = 1 > max = 0], [process(NaN)] is
    NaN and not [max]. *)
Lemma Clipper_NaN_propagates :
  (Clipper.min Examples.clipper_inverted
   > Clipper.max Examples.clipper_inverted) = true
  /\ Clipper.process Examples.clipper_inverted NaN = NaN
  /\ Clipper.process Examples.clipper_inverted NaN
     <> Clipper.max Examples.clipper_inverted.
Proof.
  split; [ reflexivity | split; [ reflexivity | discriminate ] ].
Qed.

End ClipperFacts.

(** ** Scaler: the degenerate ranges *)

Section ScalerDegenerate.
Context {num : Type} {N : JSNumber num} {M : JSMath num}.
Local Open Scope js_scope.

Lemma degenerate_true (s : Scaler.t num) :
  (Scaler.inputRange s === num_0) = true
  \/ (Scaler.outputRange s === num_0) = true ->
  Scaler.degenerate s = true.
Proof.
  unfold Scaler.degenerate. intros [-> | ->]; auto using orb_true_r.
Qed.

(** The first [return] of [process]. *)
Lemma Scaler_process_step (s : Scaler.t num) (inputValue : num) :
  Scaler.degenerate s = true ->
  Scaler.process s inputValue
  = if inputValue <= Scaler.inputMin s then Scaler.outputStart s
    else Scaler.outputEnd s.
Proof. intros H. unfold Scaler.process. now rewrite H. Qed.

End ScalerDegenerate.

Section ScalerDegenerateAll.
Context {num : Type} {N : JSNumber num} {M : JSMath num}.
Local Open Scope js_scope.

(** C3.  When [inputRange === 0] or [outputRange === 0], [process(input)]
    is [outputStart] if [input <= inputMin] and [outputEnd] otherwise.  The
    statement holds for every instance of the operators, so for every
    double, the infinities included; and the result is the same under
    every division operator: none is performed. *)
Theorem Scaler_process_degenerate (s : Scaler.t num) (inputValue : num) :
  (Scaler.inputRange s === num_0) = true
  \/ (Scaler.outputRange s === num_0) = true ->
  Scaler.process s inputValue
  = (if inputValue <= Scaler.inputMin s then Scaler.outputStart s
     else Scaler.outputEnd s)
  /\ forall division : num -> num -> num,
     Scaler.process (N := with_div N division) s inputValue
     = Scaler.process s inputValue.
Proof.
  intros H. pose proof (degenerate_true s H) as Hd. split.
  - now apply Scaler_process_step.
  - intros division. rewrite (Scaler_process_step s inputValue Hd).
    now apply (Scaler_process_step (N := with_div N division)).
Qed.

End ScalerDegenerateAll.

Lemma Scaler_process_degenerate_witness :
  let M := F64.math_nan in
  Scaler.process Examples.scaler_step F64.Infinity = F64.one
  /\ Scaler.process Examples.scaler_step F64.neg_Infinity = F64.pos_zero
  /\ Scaler.process Examples.scaler_step (F64.of_Z 5) = F64.pos_zero.
Proof.
  intros M.
  assert (H : (Scaler.inputRange Examples.scaler_step === num_0)%js = true
              \/ (Scaler.outputRange Examples.scaler_step === num_0)%js
                 = true)
    by (left; vm_compute; reflexivity).
  split; [ | split ].
  - destruct (Scaler_process_degenerate Examples.scaler_step F64.Infinity H)
      as [-> _].
    vm_compute. reflexivity.
  - destruct (Scaler_process_degenerate Examples.scaler_step
                F64.neg_Infinity H) as [-> _].
    vm_compute. reflexivity.
  - destruct (Scaler_process_degenerate Examples.scaler_step (F64.of_Z 5) H)
      as [-> _].
    vm_compute. reflexivity.
Defined.

Section ScalerDegenerateF64.
Import F64.
Context {M : JSMath f64}.
Local Open Scope js_scope.

(** C10.  When [inputRange === 0] or [outputRange === 0], [process(NaN)]
    is [outputEnd], since [NaN <= inputMin] is false: the NaN received is
    not returned, and the result is NaN only if [outputEnd] is. *)
Theorem Scaler_NaN_to_outputEnd (s : Scaler.t f64) :
  (Scaler.inputRange s === num_0) = true
  \/ (Scaler.outputRange s === num_0) = true ->
  Scaler.process s NaN = Scaler.outputEnd s
  /\ (is_nan (Scaler.outputEnd s) = false ->
      is_nan (Scaler.process s NaN) = false).
Proof.
  intros H.
  rewrite (Scaler_process_step s NaN (degenerate_true s H)).
  split; [ reflexivity | trivial ].
Qed.

End ScalerDegenerateF64.

Lemma Scaler_NaN_to_outputEnd_witness :
  Scaler.process (M := F64.math_nan) Examples.scaler_step F64.NaN = F64.one
  /\ F64.is_nan
       (Scaler.process (M := F64.math_nan) Examples.scaler_step F64.NaN)
     = false.
Proof.
  destruct (Scaler_NaN_to_outputEnd (M := F64.math_nan) Examples.scaler_step)
    as [H1 H2].
  - left. vm_compute. reflexivity.
  - split; [ exact H1 | apply H2; vm_compute; reflexivity ].
Defined.

(** ** Hysteresis: the choice of the coefficients *)

Section HysteresisFacts.
Import F64.
Local Open Scope js_scope.

(** C2.  In the running state, [process(input)] takes the pair [up] if and
    only if [input > outputValueLast], the pair [down] otherwise, so
    whenever [input <= outputValueLast]; the output is
    [input * inputScale + outputValueLast * feedbackScale] with the pair
    taken and the current [outputValueLast], and becomes the new
    [outputValueLast]. *)
Theorem Hysteresis_process_running
  (this : Hysteresis.t f64) (last inputValue : f64) :
  Hysteresis.outputValueLast this = Some last ->
  let d := Hysteresis.direction_of inputValue last in
  let c := Hysteresis.select this d in
  (d = Hysteresis.Up <-> (inputValue > last) = true)
  /\ (d = Hysteresis.Down <-> (inputValue > last) = false)
  /\ ((inputValue <= last) = true -> d = Hysteresis.Down)
  /\ (d = Hysteresis.Up -> c = Hysteresis.up this)
  /\ (d = Hysteresis.Down -> c = Hysteresis.down this)
  /\ fst (Hysteresis.process this inputValue)
     = inputValue * Hysteresis.inputScale c
       + last * Hysteresis.feedbackScale c
  /\ Hysteresis.outputValueLast (snd (Hysteresis.process this inputValue))
     = Some (fst (Hysteresis.process this inputValue)).
Proof.
  intros Hlast d c. subst d c. unfold Hysteresis.process.
  rewrite Hlast. unfold Hysteresis.direction_of. simpl.
  repeat match goal with |- _ /\ _ => split end.
  - destruct (SFltb last inputValue); split; auto; discriminate.
  - destruct (SFltb last inputValue); split; auto; discriminate.
  - intros H. now rewrite (SFleb_SFltb_false _ _ H).
  - intros ->. reflexivity.
  - intros ->. reflexivity.
  - reflexivity.
  - reflexivity.
Qed.

Lemma Hysteresis_process_running_witness :
  let this := snd (Hysteresis.process Examples.hysteresis_09_01 pos_zero) in
  fst (Hysteresis.process this one)
  = one * Hysteresis.inputScale (Hysteresis.up this)
    + pos_zero * Hysteresis.feedbackScale (Hysteresis.up this).
Proof.
  intros this.
  destruct (Hysteresis_process_running this pos_zero one eq_refl)
    as (_ & _ & _ & Hup & _ & Hout & _).
  rewrite Hout, Hup; reflexivity.
Defined.

End HysteresisFacts.

(** ** [set] and the coefficients *)

Section SetFacts.
Context {num : Type} {N : JSNumber num}.
Variable hertzToNormalised : num -> num -> num.
Local Open Scope js_scope.

Lemma Lowpass_assign_documented (attributes : list (Lowpass.attribute num)) :
  forall this : Lowpass.t num,
  forallb Lowpass.documented attributes = true ->
  Lowpass.outputValueLast (fold_left Lowpass.assign attributes this)
  = Lowpass.outputValueLast this.
Proof.
  induction attributes as [|a attributes IH]; intros this H; simpl in *.
  - reflexivity.
  - apply andb_prop in H. destruct H as [Ha H].
    rewrite (IH _ H). destruct a; try discriminate; reflexivity.
Qed.

Lemma Hysteresis_assign_documented
  (attributes : list (Hysteresis.attribute num)) :
  forall this : Hysteresis.t num,
  forallb Hysteresis.documented attributes = true ->
  Hysteresis.outputValueLast (fold_left Hysteresis.assign attributes this)
  = Hysteresis.outputValueLast this.
Proof.
  induction attributes as [|a attributes IH]; intros this H; simpl in *.
  - reflexivity.
  - apply andb_prop in H. destruct H as [Ha H].
    rewrite (IH _ H). destruct a; try discriminate; reflexivity.
Qed.

(** C8.  [set], called with documented options only, leaves
    [outputValueLast] as it was, unset or not, and assigns the coefficients
    anew from the fields as they are after the assignment. *)
Theorem set_keeps_outputValueLast :
  (forall (this : Lowpass.t num) (attributes : list (Lowpass.attribute num)),
      forallb Lowpass.documented attributes = true ->
      let this' := Lowpass.set hertzToNormalised this attributes in
      Lowpass.outputValueLast this' = Lowpass.outputValueLast this
      /\ Lowpass.inputScale this'
         = coefficient hertzToNormalised (Lowpass.lowpassFrequency this')
             (Lowpass.sampleRate this')
      /\ Lowpass.feedbackScale this' = num_1 - Lowpass.inputScale this')
  /\ (forall (this : Hysteresis.t num)
        (attributes : list (Hysteresis.attribute num)),
      forallb Hysteresis.documented attributes = true ->
      let this' := Hysteresis.set hertzToNormalised this attributes in
      Hysteresis.outputValueLast this' = Hysteresis.outputValueLast this
      /\ Hysteresis.inputScale (Hysteresis.up this')
         = coefficient hertzToNormalised (Hysteresis.lowpassFrequencyUp this')
             (Hysteresis.sampleRate this')
      /\ Hysteresis.feedbackScale (Hysteresis.up this')
         = num_1 - Hysteresis.inputScale (Hysteresis.up this')
      /\ Hysteresis.inputScale (Hysteresis.down this')
         = coefficient hertzToNormalised
             (Hysteresis.lowpassFrequencyDown this')
             (Hysteresis.sampleRate this')
      /\ Hysteresis.feedbackScale (Hysteresis.down this')
         = num_1 - Hysteresis.inputScale (Hysteresis.down this')).
Proof.
  split; intros this attributes H this'; subst this'.
  - unfold Lowpass.set. simpl.
    rewrite (Lowpass_assign_documented _ _ H). auto.
  - unfold Hysteresis.set. simpl.
    rewrite (Hysteresis_assign_documented _ _ H). repeat split.
Qed.

(** Every object a program can hold carries the coefficients of its
    fields. *)
Lemma Lowpass_reachable_coefficients (this : Lowpass.t num) :
  Lowpass.reachable hertzToNormalised this ->
  Lowpass.inputScale this
  = coefficient hertzToNormalised (Lowpass.lowpassFrequency this)
      (Lowpass.sampleRate this)
  /\ Lowpass.feedbackScale this = num_1 - Lowpass.inputScale this.
Proof.
  induction 1; simpl; auto.
Qed.

Lemma Hysteresis_reachable_coefficients (this : Hysteresis.t num) :
  Hysteresis.reachable hertzToNormalised this ->
  (Hysteresis.inputScale (Hysteresis.up this)
   = coefficient hertzToNormalised (Hysteresis.lowpassFrequencyUp this)
       (Hysteresis.sampleRate this)
   /\ Hysteresis.feedbackScale (Hysteresis.up this)
      = num_1 - Hysteresis.inputScale (Hysteresis.up this))
  /\ (Hysteresis.inputScale (Hysteresis.down this)
      = coefficient hertzToNormalised (Hysteresis.lowpassFrequencyDown this)
          (Hysteresis.sampleRate this)
      /\ Hysteresis.feedbackScale (Hysteresis.down this)
         = num_1 - Hysteresis.inputScale (Hysteresis.down this)).
Proof.
  induction 1; simpl; auto.
Qed.

End SetFacts.

Lemma set_keeps_outputValueLast_witness :
  let this := snd (Lowpass.process Examples.lowpass_09 F64.one) in
  let this' :=
    Lowpass.set hertzToNormalised this
      [Lowpass.set_lowpassFrequency (F64.of_ratio 3 10);
       Lowpass.set_sampleRate F64.two] in
  Lowpass.outputValueLast this' = Some F64.one
  /\ Lowpass.inputScale this' = F64.of_ratio 3 10.
Proof.
  intros this this'.
  destruct (set_keeps_outputValueLast (@hertzToNormalised _ F64.number))
    as [HL _].
  destruct (HL this
              [Lowpass.set_lowpassFrequency (F64.of_ratio 3 10);
               Lowpass.set_sampleRate F64.two] eq_refl) as (Hlast & Hin & _).
  fold this' in Hlast, Hin. split.
  - rewrite Hlast. vm_compute. reflexivity.
  - rewrite Hin. vm_compute. reflexivity.
Defined.

(** ** The coefficients in doubles *)

Section CoefficientFacts.
Import F64.
Variable hertzToNormalised : f64 -> f64 -> f64.
Local Open Scope js_scope.

Lemma clamp_in_unit_interval (x : f64) :
  is_nan x = false ->
  in_unit_interval (Math_max num_0 (Math_min num_1 x)) = true.
Proof.
  intros Hx. unfold in_unit_interval. simpl.
  assert (Hm : is_nan (min one x) = false).
  { destruct (min_cases one x eq_refl Hx) as [-> | ->]; trivial. }
  rewrite (le_max_l pos_zero (min one x) eq_refl Hm). simpl.
  destruct (max_cases pos_zero (min one x) eq_refl Hm) as [-> | ->].
  - reflexivity.
  - unfold min. rewrite Hx. simpl.
    destruct (SFltb x one) eqn:E.
    + now apply SFltb_SFleb.
    + reflexivity.
Qed.

(** NaN goes through both clamps. *)
Lemma clamp_NaN : Math_max num_0 (Math_min num_1 NaN) = NaN.
Proof. reflexivity. Qed.

Lemma init_coefficients_F64 :
  (forall sampleRate lowpassFrequency : f64,
      let this := Lowpass.new hertzToNormalised sampleRate lowpassFrequency in
      Lowpass.feedbackScale this = num_1 - Lowpass.inputScale this
      /\ (is_nan (hertzToNormalised lowpassFrequency sampleRate) = false ->
          in_unit_interval (Lowpass.inputScale this) = true))
  /\ (forall (this : Lowpass.t f64) (attributes : list (Lowpass.attribute f64)),
      let this' := Lowpass.set hertzToNormalised this attributes in
      Lowpass.feedbackScale this' = num_1 - Lowpass.inputScale this'
      /\ (is_nan (hertzToNormalised (Lowpass.lowpassFrequency this')
                    (Lowpass.sampleRate this')) = false ->
          in_unit_interval (Lowpass.inputScale this') = true))
  /\ (forall sampleRate lowpassFrequencyUp lowpassFrequencyDown : f64,
      let this :=
        Hysteresis.new hertzToNormalised sampleRate lowpassFrequencyUp
          lowpassFrequencyDown in
      Hysteresis.feedbackScale (Hysteresis.up this)
      = num_1 - Hysteresis.inputScale (Hysteresis.up this)
      /\ Hysteresis.feedbackScale (Hysteresis.down this)
         = num_1 - Hysteresis.inputScale (Hysteresis.down this)
      /\ (is_nan (hertzToNormalised lowpassFrequencyUp sampleRate) = false ->
          in_unit_interval (Hysteresis.inputScale (Hysteresis.up this))
          = true)
      /\ (is_nan (hertzToNormalised lowpassFrequencyDown sampleRate) = false ->
          in_unit_interval (Hysteresis.inputScale (Hysteresis.down this))
          = true))
  /\ (forall (this : Hysteresis.t f64)
        (attributes : list (Hysteresis.attribute f64)),
      let this' := Hysteresis.set hertzToNormalised this attributes in
      Hysteresis.feedbackScale (Hysteresis.up this')
      = num_1 - Hysteresis.inputScale (Hysteresis.up this')
      /\ Hysteresis.feedbackScale (Hysteresis.down this')
         = num_1 - Hysteresis.inputScale (Hysteresis.down this')
      /\ (is_nan (hertzToNormalised (Hysteresis.lowpassFrequencyUp this')
                    (Hysteresis.sampleRate this')) = false ->
          in_unit_interval (Hysteresis.inputScale (Hysteresis.up this'))
          = true)
      /\ (is_nan (hertzToNormalised (Hysteresis.lowpassFrequencyDown this')
                    (Hysteresis.sampleRate this')) = false ->
          in_unit_interval (Hysteresis.inputScale (Hysteresis.down this'))
          = true)).
Proof.
  split; [ | split; [ | split ] ]; intros;
    repeat match goal with |- _ /\ _ => split end;
    try reflexivity; intros; now apply clamp_in_unit_interval.
Qed.

End CoefficientFacts.

Section CoefficientExact.
Variable hertzToNormalised : R -> R -> R.
Local Open Scope R_scope.

Lemma clamp_exact (x : R) : 0 <= Rmax 0 (Rmin 1 x) <= 1.
Proof.
  unfold Rmax, Rmin. destruct (Rle_dec 1 x); destruct (Rle_dec 0 _); lra.
Qed.

Lemma init_coefficients_exact :
  (forall this : Lowpass.t R,
      let this' := Lowpass.init hertzToNormalised this in
      0 <= Lowpass.inputScale this' <= 1
      /\ Lowpass.inputScale this' + Lowpass.feedbackScale this' = 1)
  /\ (forall this : Hysteresis.t R,
      let this' := Hysteresis.init hertzToNormalised this in
      (0 <= Hysteresis.inputScale (Hysteresis.up this') <= 1
       /\ Hysteresis.inputScale (Hysteresis.up this')
          + Hysteresis.feedbackScale (Hysteresis.up this') = 1)
      /\ (0 <= Hysteresis.inputScale (Hysteresis.down this') <= 1
          /\ Hysteresis.inputScale (Hysteresis.down this')
             + Hysteresis.feedbackScale (Hysteresis.down this') = 1)).
Proof.
  split; intros this this'; subst this'; simpl;
    repeat match goal with
           | |- _ /\ _ => split
           | |- _ <= _ => apply clamp_exact
           | |- _ = _ => ring
           end.
Qed.

End CoefficientExact.

(** ** The first call of [process] *)

Section RoundingFacts.
Import F64.

Lemma digits2_pos_times_one (m : positive) :
  Zpos (digits2_pos (m * 4503599627370496)) = (Zpos (digits2_pos m) + 52)%Z.
Proof.
  rewrite Pos.mul_comm. cbn [Pos.mul digits2_pos].
  rewrite !Pos2Z.inj_succ. lia.
Qed.

Lemma shr_times_one (m : positive) :
  iter_pos shr_1 52
    {| shr_m := Zpos (m * 4503599627370496); shr_r := false; shr_s := false |}
  = {| shr_m := Zpos m; shr_r := false; shr_s := false |}.
Proof.
  rewrite Pos.mul_comm. cbn [Pos.mul]. reflexivity.
Qed.

Lemma shr_fexp_canonical (m : positive) (e : Z) :
  fexp prec emax (Zpos (digits2_pos m) + e) = e ->
  shr_fexp prec emax (Zpos m) e loc_Exact
  = ({| shr_m := Zpos m; shr_r := false; shr_s := false |}, e).
Proof.
  intros Hc. unfold shr_fexp, Zdigits2. rewrite Hc, Z.sub_diag. reflexivity.
Qed.

Lemma shr_fexp_times_one (m : positive) (e : Z) :
  fexp prec emax (Zpos (digits2_pos m) + e) = e ->
  shr_fexp prec emax (Zpos (m * 4503599627370496)) (e + -52) loc_Exact
  = ({| shr_m := Zpos m; shr_r := false; shr_s := false |}, e).
Proof.
  intros Hc. unfold shr_fexp, Zdigits2.
  rewrite digits2_pos_times_one.
  replace (Z.pos (digits2_pos m) + 52 + (e + -52))%Z
    with (Z.pos (digits2_pos m) + e)%Z by lia.
  rewrite Hc.
  replace (e - (e + -52))%Z with 52%Z by lia.
  unfold shr, shr_record_of_loc. rewrite shr_times_one.
  f_equal. lia.
Qed.

(** A product by 1 is exact: the 52 bits the mantissa of 1 appends are
    shifted out again and nothing is rounded. *)
Lemma mul_one_r (x : f64) :
  valid x = true -> is_finite x = true -> mul x one = x.
Proof.
  destruct x as [s|s| |s m e]; try discriminate; intros Hv _.
  - simpl. now rewrite xorb_false_r.
  - unfold valid, valid_binary, bounded, canonical_mantissa in Hv.
    apply andb_prop in Hv. destruct Hv as [Hc Hb].
    apply Z.eqb_eq in Hc.
    unfold mul, one, SFmul, binary_round_aux.
    rewrite xorb_false_r, (@shr_fexp_times_one m e Hc).
    cbn [shr_m loc_of_shr_record round_nearest_even].
    rewrite (@shr_fexp_canonical m e Hc).
    cbn [shr_m]. now rewrite Hb.
Qed.

(** [v * 1 + v * (1 - 1)] *)
Lemma first_output_one (v : f64) :
  valid v = true -> is_finite v = true ->
  add (mul v one) (mul v (sub one one)) = v.
Proof.
  intros Hv Hf. rewrite (@mul_one_r v Hv Hf).
  destruct v as [[]| | |[] m e]; try discriminate; reflexivity.
Qed.

(** [v * 0 + v * (1 - 0)] *)
Lemma first_output_zero (v : f64) :
  valid v = true -> is_finite v = true ->
  add (mul v pos_zero) (mul v (sub one pos_zero)) = v.
Proof.
  intros Hv Hf. change (sub one pos_zero) with one.
  rewrite (@mul_one_r v Hv Hf).
  destruct v as [[]| | |[] m e]; try discriminate; reflexivity.
Qed.

Lemma clamp_above (x : f64) :
  SFleb one x = true -> max pos_zero (min one x) = one.
Proof.
  intros H. destruct (SFleb_not_nan _ _ H) as [_ Hx].
  unfold min. rewrite Hx, (SFleb_SFltb_false _ _ H). reflexivity.
Qed.

Lemma clamp_below (x : f64) :
  SFleb x pos_zero = true -> max pos_zero (min one x) = pos_zero.
Proof.
  destruct x as [[]|[]| |[] m e]; try discriminate; reflexivity.
Qed.

(** A zero times finite coefficients, summed, is a zero. *)
Lemma first_output_of_zero (v a b : f64) :
  is_zero v = true -> is_finite a = true -> is_finite b = true ->
  SFeqb (add (mul v a) (mul v b)) v = true.
Proof.
  destruct v as [[]| | |]; try discriminate;
    destruct a as [[]| | |[] ? ?]; try discriminate;
    destruct b as [[]| | |[] ? ?]; try discriminate; reflexivity.
Qed.

End RoundingFacts.

Section FreshFacts.
Context {num : Type} {N : JSNumber num}.
Variable hertzToNormalised : num -> num -> num.

Lemma Lowpass_fresh_unset (this : Lowpass.t num) :
  Lowpass.fresh hertzToNormalised this ->
  Lowpass.reachable hertzToNormalised this
  /\ Lowpass.outputValueLast this = None.
Proof.
  destruct 1; split; try reflexivity.
  - apply Lowpass.reachable_new.
  - now apply Lowpass.reachable_reset.
Qed.

Lemma Hysteresis_fresh_unset (this : Hysteresis.t num) :
  Hysteresis.fresh hertzToNormalised this ->
  Hysteresis.reachable hertzToNormalised this
  /\ Hysteresis.outputValueLast this = None.
Proof.
  destruct 1; split; try reflexivity.
  - apply Hysteresis.reachable_new.
  - now apply Hysteresis.reachable_reset.
Qed.

End FreshFacts.

Section FirstProcessF64.
Import F64.
Variable hertzToNormalised : f64 -> f64 -> f64.
Local Open Scope js_scope.

Lemma SFltb_irrefl (x : f64) : SFltb x x = false.
Proof.
  unfold SFltb. destruct (is_nan x) eqn:E.
  - now destruct x.
  - now rewrite (SFcompare_refl x E).
Qed.

Lemma Lowpass_first_output_F64 (this : Lowpass.t f64) (v : f64) :
  Lowpass.fresh hertzToNormalised this ->
  let out := fst (Lowpass.process this v) in
  out = v * Lowpass.inputScale this + v * Lowpass.feedbackScale this
  /\ Lowpass.outputValueLast (snd (Lowpass.process this v)) = Some out
  /\ (valid v = true -> is_finite v = true ->
      (num_1 <= hertzToNormalised (Lowpass.lowpassFrequency this)
                  (Lowpass.sampleRate this)) = true
      \/ (hertzToNormalised (Lowpass.lowpassFrequency this)
            (Lowpass.sampleRate this) <= num_0) = true ->
      out = v)
  /\ (is_zero v = true -> is_finite (Lowpass.inputScale this) = true ->
      is_finite (Lowpass.feedbackScale this) = true ->
      (out === v) = true).
Proof.
  intros Hfresh out.
  destruct (Lowpass_fresh_unset _ _ Hfresh) as [Hreach Hnone].
  destruct (Lowpass_reachable_coefficients _ _ Hreach) as [Ha Hb].
  assert (Hout : out = v * Lowpass.inputScale this
                       + v * Lowpass.feedbackScale this).
  { subst out. unfold Lowpass.process. now rewrite Hnone. }
  split; [ exact Hout | split; [ reflexivity | split ] ].
  - intros Hv Hf Hc. rewrite Hout, Hb, Ha. unfold coefficient. simpl in *.
    destruct Hc as [Hc | Hc].
    + rewrite (clamp_above _ Hc). now apply first_output_one.
    + rewrite (clamp_below _ Hc). now apply first_output_zero.
  - intros Hz Hfa Hfb. rewrite Hout. now apply first_output_of_zero.
Qed.

Lemma Hysteresis_first_output_F64 (this : Hysteresis.t f64) (v : f64) :
  Hysteresis.fresh hertzToNormalised this ->
  let out := fst (Hysteresis.process this v) in
  let c := Hysteresis.down this in
  out = v * Hysteresis.inputScale c + v * Hysteresis.feedbackScale c
  /\ Hysteresis.outputValueLast (snd (Hysteresis.process this v)) = Some out
  /\ (valid v = true -> is_finite v = true ->
      (num_1 <= hertzToNormalised (Hysteresis.lowpassFrequencyDown this)
                  (Hysteresis.sampleRate this)) = true
      \/ (hertzToNormalised (Hysteresis.lowpassFrequencyDown this)
            (Hysteresis.sampleRate this) <= num_0) = true ->
      out = v)
  /\ (is_zero v = true -> is_finite (Hysteresis.inputScale c) = true ->
      is_finite (Hysteresis.feedbackScale c) = true ->
      (out === v) = true).
Proof.
  intros Hfresh out c.
  destruct (Hysteresis_fresh_unset _ _ Hfresh) as [Hreach Hnone].
  destruct (Hysteresis_reachable_coefficients _ _ Hreach) as [_ [Ha Hb]].
  assert (Hout : out = v * Hysteresis.inputScale c
                       + v * Hysteresis.feedbackScale c).
  { subst out c. unfold Hysteresis.process. rewrite Hnone.
    unfold Hysteresis.direction_of. simpl. now rewrite SFltb_irrefl. }
  split; [ exact Hout | split; [ reflexivity | split ] ].
  - intros Hv Hf Hc. rewrite Hout. subst c. rewrite Hb, Ha.
    unfold coefficient. simpl in *.
    destruct Hc as [Hc | Hc].
    + rewrite (clamp_above _ Hc). now apply first_output_one.
    + rewrite (clamp_below _ Hc). now apply first_output_zero.
  - intros Hz Hfa Hfb. rewrite Hout. now apply first_output_of_zero.
Qed.

End FirstProcessF64.

Section FirstProcessExact.
Variable hertzToNormalised : R -> R -> R.

Lemma Lowpass_first_output_exact (this : Lowpass.t R) (v : R) :
  Lowpass.fresh hertzToNormalised this ->
  fst (Lowpass.process this v) = v.
Proof.
  intros Hfresh.
  destruct (Lowpass_fresh_unset _ _ Hfresh) as [Hreach Hnone].
  destruct (Lowpass_reachable_coefficients _ _ Hreach) as [_ Hb].
  unfold Lowpass.process. rewrite Hnone, Hb. simpl. ring.
Qed.

Lemma ltb_irrefl (x : R) : Exact.ltb x x = false.
Proof. unfold Exact.ltb. destruct (Rlt_dec x x); trivial. lra. Qed.

Lemma Hysteresis_first_output_exact (this : Hysteresis.t R) (v : R) :
  Hysteresis.fresh hertzToNormalised this ->
  fst (Hysteresis.process this v) = v.
Proof.
  intros Hfresh.
  destruct (Hysteresis_fresh_unset _ _ Hfresh) as [Hreach Hnone].
  destruct (Hysteresis_reachable_coefficients _ _ Hreach) as [_ [_ Hb]].
  unfold Hysteresis.process. rewrite Hnone.
  unfold Hysteresis.direction_of. simpl. rewrite ltb_irrefl. simpl.
  rewrite Hb. simpl. ring.
Qed.

End FirstProcessExact.

(** C1, amended.  The first call [process(v)] after construction or after
    [reset()] seeds [outputValueLast] with [v]: it returns
    [v * inputScale + v * feedbackScale] (for a Hysteresis, with the pair
    [down], since [v > v] is false) and stores it.  In doubles that sum is
    [v] itself when [v] is finite and the normalised cutoff is at least 1
    or at most 0, so that [inputScale] is 1 or 0, and it is [=== v] when
    [v] is a zero and the coefficients are finite.  In exact arithmetic it
    is [v] for every [v]. *)
Theorem first_process :
  (forall (h : F64.f64 -> F64.f64 -> F64.f64) (this : Lowpass.t F64.f64)
      (v : F64.f64),
      Lowpass.fresh h this ->
      let out := fst (Lowpass.process this v) in
      out = (v * Lowpass.inputScale this
             + v * Lowpass.feedbackScale this)%js
      /\ Lowpass.outputValueLast (snd (Lowpass.process this v)) = Some out
      /\ (F64.valid v = true -> F64.is_finite v = true ->
          (num_1 <= h (Lowpass.lowpassFrequency this)
                      (Lowpass.sampleRate this))%js = true
          \/ (h (Lowpass.lowpassFrequency this) (Lowpass.sampleRate this)
              <= num_0)%js = true ->
          out = v)
      /\ (F64.is_zero v = true ->
          F64.is_finite (Lowpass.inputScale this) = true ->
          F64.is_finite (Lowpass.feedbackScale this) = true ->
          (out === v)%js = true))
  /\ (forall (h : F64.f64 -> F64.f64 -> F64.f64) (this : Hysteresis.t F64.f64)
        (v : F64.f64),
      Hysteresis.fresh h this ->
      let out := fst (Hysteresis.process this v) in
      let c := Hysteresis.down this in
      out = (v * Hysteresis.inputScale c
             + v * Hysteresis.feedbackScale c)%js
      /\ Hysteresis.outputValueLast (snd (Hysteresis.process this v))
         = Some out
      /\ (F64.valid v = true -> F64.is_finite v = true ->
          (num_1 <= h (Hysteresis.lowpassFrequencyDown this)
                      (Hysteresis.sampleRate this))%js = true
          \/ (h (Hysteresis.lowpassFrequencyDown this)
                (Hysteresis.sampleRate this) <= num_0)%js = true ->
          out = v)
      /\ (F64.is_zero v = true ->
          F64.is_finite (Hysteresis.inputScale c) = true ->
          F64.is_finite (Hysteresis.feedbackScale c) = true ->
          (out === v)%js = true))
  /\ (forall (h : R -> R -> R) (this : Lowpass.t R) (v : R),
      Lowpass.fresh h this -> fst (Lowpass.process this v) = v)
  /\ (forall (h : R -> R -> R) (this : Hysteresis.t R) (v : R),
      Hysteresis.fresh h this -> fst (Hysteresis.process this v) = v).
Proof.
  split; [ | split; [ | split ] ].
  - intros h this v. apply Lowpass_first_output_F64.
  - intros h this v. apply Hysteresis_first_output_F64.
  - intros h this v. apply Lowpass_first_output_exact.
  - intros h this v. apply Hysteresis_first_output_exact.
Qed.

Lemma first_process_witness :
  fst (Lowpass.process Examples.lowpass_1 (F64.of_ratio 3 10))
  = F64.of_ratio 3 10
  /\ (fst (Lowpass.process Examples.lowpass_09 F64.neg_zero)
      === F64.neg_zero)%js = true.
Proof.
  destruct first_process as (HL & _).
  split.
  - destruct (HL hertzToNormalised Examples.lowpass_1 (F64.of_ratio 3 10)
                (Lowpass.fresh_new _ _ _)) as (_ & _ & H & _).
    apply H; [ vm_compute; reflexivity .. | left; vm_compute; reflexivity ].
  - destruct (HL hertzToNormalised Examples.lowpass_09 F64.neg_zero
                (Lowpass.fresh_new _ _ _)) as (_ & _ & _ & H).
    apply H; vm_compute; reflexivity.
Defined.

(** C1 as stated fails in doubles.  With a cutoff of 0.3 at sample rate 2
    the coefficients are 0.3 and 0.7, and the first [process(3)] returns
    [3 * 0.3 + 3 * 0.7 = 0.8999999999999999 + 2.0999999999999996], the
    double below 3; so does a Hysteresis whose cutoff [down] is 0.3.  With
    a cutoff of 1 the coefficients are 1 and 0, and the first
    [process(Infinity)] is [Infinity + Infinity * 0], that is NaN. *)
Lemma first_output_rounds :
  Lowpass.fresh hertzToNormalised Examples.lowpass_03
  /\ fst (Lowpass.process Examples.lowpass_03 (F64.of_Z 3))
     = S754_finite false 6755399441055743 (-51)
  /\ F64.of_Z 3 = S754_finite false 6755399441055744 (-51)
  /\ (fst (Lowpass.process Examples.lowpass_03 (F64.of_Z 3))
      === F64.of_Z 3)%js = false
  /\ Hysteresis.fresh hertzToNormalised Examples.hysteresis_09_03
  /\ (fst (Hysteresis.process Examples.hysteresis_09_03 (F64.of_Z 3))
      === F64.of_Z 3)%js = false
  /\ fst (Lowpass.process Examples.lowpass_1 F64.Infinity) = F64.NaN.
Proof.
  split; [ apply Lowpass.fresh_new | ].
  split; [ vm_compute; reflexivity | ].
  split; [ vm_compute; reflexivity | ].
  split; [ vm_compute; reflexivity | ].
  split; [ apply Hysteresis.fresh_new | ].
  split; vm_compute; reflexivity.
Qed.

(** ** Scaler: there and back *)

Section ExactFacts.
Local Open Scope R_scope.


Lemma eqb_true (x y : R) : Exact.eqb x y = true -> x = y.
Proof. unfold Exact.eqb. now destruct (Req_dec_T x y). Qed.





End ExactFacts.


Section RoundTripFails.
Local Open Scope R_scope.





End RoundTripFails.

(** ** The step response *)

Section ExactAddition.
Import F64.
Local Open Scope Z_scope.

Lemma iter_pos_shr_exact (p : positive) :
  forall q : positive,
  iter_pos shr_1 p
    {| shr_m := Zpos (Pos.iter xO q p); shr_r := false; shr_s := false |}
  = {| shr_m := Zpos q; shr_r := false; shr_s := false |}.
Proof.
  induction p as [p IH|p IH|]; intros q; simpl.
  - now rewrite !IH.
  - now rewrite !IH.
  - reflexivity.
Qed.

Lemma Zpos_iter_xO (p q : positive) :
  Zpos (Pos.iter xO q p) = Zpos q * 2 ^ Zpos p.
Proof.
  rewrite Z.mul_comm. exact (shift_pos_correct p q).
Qed.

Lemma digits2_pos_size (p : positive) : digits2_pos p = Pos.size p.
Proof. induction p as [p IH|p IH|]; simpl; now rewrite ?IH. Qed.

Lemma digits2_pos_bounds (p : positive) :
  2 ^ (Zpos (digits2_pos p) - 1) <= Zpos p < 2 ^ Zpos (digits2_pos p).
Proof.
  rewrite digits2_pos_size. split.
  - pose proof (Pos.size_le p) as H.
    apply Pos2Z.pos_le_pos in H. rewrite Pos2Z.inj_pow in H.
    replace (Zpos (Pos.size p)) with (Z.succ (Zpos (Pos.size p) - 1)) in H
      by lia.
    rewrite Z.pow_succ_r in H by lia. change (Zpos p~0) with (2 * Zpos p) in H.
    lia.
  - pose proof (Pos.size_gt p) as H.
    apply Pos2Z.pos_lt_pos in H. now rewrite Pos2Z.inj_pow in H.
Qed.

Lemma digits2_pos_unique (p : positive) (d : Z) :
  2 ^ (d - 1) <= Zpos p < 2 ^ d -> Zpos (digits2_pos p) = d.
Proof.
  intros [Hlo Hhi]. pose proof (digits2_pos_bounds p) as [Hlo' Hhi'].
  assert (0 < d).
  { destruct (Z.lt_ge_cases 0 d) as [|Hd]; trivial.
    destruct (Z.eq_dec d 0) as [-> | Hne]; [ simpl in Hhi; lia | ].
    rewrite Z.pow_neg_r in Hhi by lia. lia. }
  assert (H1 : Zpos (digits2_pos p) - 1 < d).
  { apply (Z.pow_lt_mono_r_iff 2); lia. }
  assert (H2 : d - 1 < Zpos (digits2_pos p)).
  { apply (Z.pow_lt_mono_r_iff 2); lia. }
  lia.
Qed.

Lemma shl_align_noop (mx : positive) (ex ex' : Z) :
  ex <= ex' -> shl_align mx ex ex' = (mx, ex).
Proof.
  intros H. unfold shl_align. destruct (ex' - ex) eqn:E; trivial.
  pose proof (Pos2Z.neg_is_neg p). lia.
Qed.

Lemma shl_align_value (mx : positive) (ex ex' : Z) :
  ex' <= ex -> Zpos (fst (shl_align mx ex ex')) = Zpos mx * 2 ^ (ex - ex').
Proof.
  intros H. unfold shl_align. destruct (ex' - ex) eqn:E; cbn [fst].
  - replace (ex - ex') with 0 by lia. rewrite Z.pow_0_r. lia.
  - pose proof (Pos2Z.is_pos p). lia.
  - rewrite Zpos_iter_xO. f_equal. f_equal.
    pose proof (Pos2Z.opp_neg p). lia.
Qed.

(** A positive integer [q * 2^n] with [q] of 53 bits rounds to itself. *)
Lemma binary_round_exact (q s : positive) (n e : Z) :
  Zpos (digits2_pos q) = 53 -> 0 <= n -> -1074 <= e + n <= 971 ->
  Zpos s = Zpos q * 2 ^ n ->
  binary_round prec emax false s e = S754_finite false q (e + n).
Proof.
  intros Hq Hn He Hs.
  assert (Hd : Zpos (digits2_pos s) = 53 + n).
  { apply digits2_pos_unique. pose proof (digits2_pos_bounds q) as Hb.
    rewrite Hq in Hb. rewrite Hs.
    replace (53 + n - 1) with (52 + n) by lia.
    rewrite !Z.pow_add_r by lia. simpl (53 - 1) in Hb.
    assert (0 < 2 ^ n) by (apply Z.pow_pos_nonneg; lia). nia. }
  assert (Hf : fexp prec emax (53 + n + e) = e + n).
  { unfold fexp, emin, prec, emax. lia. }
  unfold binary_round. rewrite Hd, Hf, shl_align_noop by lia.
  unfold binary_round_aux.
  assert (Hshr : shr_fexp prec emax (Zpos s) e loc_Exact
                 = ({| shr_m := Zpos q; shr_r := false; shr_s := false |},
                    e + n)).
  { unfold shr_fexp, Zdigits2. rewrite Hd, Hf.
    replace (e + n - e) with n by lia.
    destruct n as [|p|p]; try lia.
    - simpl. rewrite Z.add_0_r. simpl in Hs.
      replace s with q by lia. reflexivity.
    - unfold shr, shr_record_of_loc.
      assert (s = Pos.iter xO q p) as ->.
      { apply Pos2Z.inj. now rewrite Zpos_iter_xO. }
      now rewrite iter_pos_shr_exact. }
  rewrite Hshr. cbn [shr_m loc_of_shr_record round_nearest_even].
  rewrite shr_fexp_canonical.
  - cbn [shr_m]. replace (e + n <=? emax - prec) with true; trivial.
    symmetry. apply Z.leb_le. unfold emax, prec. lia.
  - rewrite Hq. unfold fexp, emin, prec, emax. lia.
Qed.

Lemma add_tiny_on_grid (y : f64) :
  Examples.on_grid y -> Examples.on_grid (add Examples.two_pow_m54 y) \/ add Examples.two_pow_m54 y = Examples.half.
Proof.
  intros (m & j & -> & Hm & Hj & (c & Hc)).
  unfold add, Examples.two_pow_m54.
  change (SFadd prec emax (S754_finite false 4503599627370496 (-106))
            (S754_finite false m (j - 106)))
    with (binary_normalize prec emax
            (Zpos (fst (shl_align 4503599627370496 (-106)
                          (Z.min (-106) (j - 106))))
             + Zpos (fst (shl_align m (j - 106) (Z.min (-106) (j - 106)))))
            (Z.min (-106) (j - 106)) false).
  rewrite Z.min_l by lia.
  rewrite !shl_align_value by lia.
  replace (-106 - -106) with 0 by lia.
  replace (j - 106 - -106) with j by lia.
  rewrite Z.pow_0_r, Z.mul_1_r.
  change (Zpos 4503599627370496) with (2 ^ 52).
  assert (Hpj : 0 < 2 ^ j) by (apply Z.pow_pos_nonneg; lia).
  assert (Hpk : 0 < 2 ^ (52 - j)) by (apply Z.pow_pos_nonneg; lia).
  assert (Hsplit : 2 ^ 52 = 2 ^ (52 - j) * 2 ^ j).
  { rewrite <- Z.pow_add_r by lia. f_equal. lia. }
  set (m2 := Zpos m + 2 ^ (52 - j)).
  assert (Hsum : 2 ^ 52 + Zpos m * 2 ^ j = m2 * 2 ^ j).
  { subst m2. rewrite Hsplit. ring. }
  rewrite Hsum.
  assert (Hm2 : 2 ^ 52 < m2 < 2 ^ 54).
  { subst m2. assert (2 ^ (52 - j) <= 2 ^ 52)
      by (apply Z.pow_le_mono_r; lia).
    change (2 ^ 54) with (2 * 2 ^ 53). change (2 ^ 53) with (2 * 2 ^ 52) in *.
    lia. }
  destruct (Z.lt_ge_cases m2 (2 ^ 53)) as [Hlt | Hge].
  - (* no carry *)
    left. destruct (m2 * 2 ^ j) as [|s|s] eqn:Es; try nia.
    cbn [binary_normalize].
    rewrite (binary_round_exact (Z.to_pos m2) s j (-106)).
    + exists (Z.to_pos m2), j. rewrite Z2Pos.id by lia.
      repeat split; try lia.
      * f_equal. lia.
      * exists (c + 1). subst m2. rewrite Hc. lia.
    + apply digits2_pos_unique. rewrite Z2Pos.id by lia. simpl (53 - 1). lia.
    + lia.
    + lia.
    + rewrite Z2Pos.id by lia. lia.
  - (* a carry: the sum has 54 bits and is even *)
    assert (Heven : exists q, m2 = 2 * q).
    { destruct (Z.eq_dec j 52) as [-> | Hne].
      - exists (2 ^ 52). subst m2. simpl (52 - 52) in *.
        change (2 ^ 0) with 1 in *. change (2 ^ 53) with (2 * 2 ^ 52) in *.
        lia.
      - exists ((c + 1) * 2 ^ (51 - j)). subst m2. rewrite Hc.
        replace (2 ^ (52 - j)) with (2 * 2 ^ (51 - j)).
        + ring.
        + rewrite <- Z.pow_succ_r by lia. f_equal. lia. }
    destruct Heven as [q Hq].
    assert (Hqb : 2 ^ 52 <= q < 2 ^ 53).
    { change (2 ^ 54) with (2 * 2 ^ 53) in Hm2.
      change (2 ^ 53) with (2 * 2 ^ 52) in *. lia. }
    assert (Hs' : m2 * 2 ^ j = q * 2 ^ (j + 1)).
    { rewrite Hq, Z.pow_add_r, Z.pow_1_r by lia. ring. }
    rewrite Hs'.
    destruct (q * 2 ^ (j + 1)) as [|s|s] eqn:Es;
      try (assert (0 < 2 ^ (j + 1)) by (apply Z.pow_pos_nonneg; lia); nia).
    cbn [binary_normalize].
    rewrite (binary_round_exact (Z.to_pos q) s (j + 1) (-106)).
    + destruct (Z.eq_dec j 52) as [-> | Hne].
      * right. unfold Examples.half. f_equal.
        assert (q = 2 ^ 52) as ->.
        { subst m2. simpl (52 - 52) in *. change (2 ^ 0) with 1 in *.
          change (2 ^ 53) with (2 * 2 ^ 52) in *. lia. }
        reflexivity.
      * left. exists (Z.to_pos q), (j + 1). rewrite Z2Pos.id by lia.
        repeat split; try lia.
        -- f_equal. lia.
        -- exists (c + 1). subst m2. rewrite Hc in Hq.
           replace (2 ^ (52 - j)) with (2 * 2 ^ (52 - (j + 1))) in Hq.
           ++ nia.
           ++ rewrite <- Z.pow_succ_r by lia. f_equal. lia.
    + apply digits2_pos_unique. rewrite Z2Pos.id by lia. simpl (53 - 1). lia.
    + lia.
    + lia.
    + rewrite Z2Pos.id by lia. lia.
Qed.

End ExactAddition.

(** ** Rounding in doubles *)

Section RoundingTheory.
Import F64 Rounding.
Local Open Scope Z_scope.


Lemma iter_pos_nat {A : Type} (f : A -> A) (p : positive) :
  forall x : A, iter_pos f p x = Nat.iter (Pos.to_nat p) f x.
Proof.
  induction p as [p IH|p IH|]; intros x; simpl iter_pos.
  - rewrite !IH, Pos2Nat.inj_xI.
    replace (S (2 * Pos.to_nat p))
      with (Pos.to_nat p + (Pos.to_nat p + 1))%nat by lia.
    rewrite !Nat.iter_add. reflexivity.
  - rewrite !IH, Pos2Nat.inj_xO.
    replace (2 * Pos.to_nat p)%nat
      with (Pos.to_nat p + Pos.to_nat p)%nat by lia.
    rewrite Nat.iter_add. reflexivity.
  - reflexivity.
Qed.

Lemma shr_1_spec (m : Z) (r s : bool) :
  0 <= m ->
  shr_1 {| shr_m := m; shr_r := r; shr_s := s |}
  = {| shr_m := m / 2; shr_r := Z.odd m; shr_s := r || s |}.
Proof.
  intros Hm. destruct m as [|[p|p|]|p]; try lia; unfold shr_1.
  - reflexivity.
  - f_equal. rewrite Pos2Z.inj_xI.
    apply (Z.div_unique _ 2 _ 1); lia.
  - f_equal. rewrite Pos2Z.inj_xO.
    apply (Z.div_unique _ 2 _ 0); lia.
  - reflexivity.
Qed.

(** [n + 1] shifts: the quotient, the bit shifted out last, and whether a
    bit was shifted out before it. *)
Lemma iter_shr_1 (M : Z) (n : nat) :
  0 <= M ->
  Nat.iter (S n) shr_1 {| shr_m := M; shr_r := false; shr_s := false |}
  = {| shr_m := M / 2 ^ Z.of_nat (S n);
       shr_r := Z.odd (M / 2 ^ Z.of_nat n);
       shr_s := negb (M mod 2 ^ Z.of_nat n =? 0) |}.
Proof.
  intros HM. induction n as [|n IH].
  - change (Nat.iter 1 shr_1 ?x) with (shr_1 x). rewrite shr_1_spec by lia.
    change (2 ^ Z.of_nat 1) with 2. change (2 ^ Z.of_nat 0) with 1.
    rewrite Z.div_1_r, Z.mod_1_r. reflexivity.
  - change (Nat.iter (S (S n)) shr_1 ?x) with (shr_1 (Nat.iter (S n) shr_1 x)).
    rewrite IH.
    assert (Hp : 0 < 2 ^ Z.of_nat n) by (apply Z.pow_pos_nonneg; lia).
    assert (Hs : 2 ^ Z.of_nat (S n) = 2 ^ Z.of_nat n * 2).
    { rewrite Nat2Z.inj_succ, Z.pow_succ_r by lia. ring. }
    rewrite shr_1_spec by (apply Z.div_pos; lia).
    f_equal.
    + rewrite Z.div_div by lia.
      f_equal. rewrite (Nat2Z.inj_succ (S n)), Z.pow_succ_r by lia. ring.
    + (* a bit was lost iff the remainder modulo 2^(n+1) is not zero *)
      rewrite Hs.
      rewrite Z.rem_mul_r by lia.
      rewrite (Zmod_odd (M / 2 ^ Z.of_nat n)).
      pose proof (Z.mod_pos_bound M (2 ^ Z.of_nat n) Hp) as Hb.
      destruct (Z.odd (M / 2 ^ Z.of_nat n));
        destruct (M mod 2 ^ Z.of_nat n =? 0) eqn:E; simpl;
        [ apply Z.eqb_eq in E | apply Z.eqb_neq in E
        | apply Z.eqb_eq in E | apply Z.eqb_neq in E ];
        symmetry;
        first [ apply negb_true_iff, Z.eqb_neq; lia
              | apply negb_false_iff, Z.eqb_eq; lia ].
Qed.

Lemma loc_of_shr (M : Z) (p : positive) :
  0 <= M ->
  let mrs :=
    iter_pos shr_1 p {| shr_m := M; shr_r := false; shr_s := false |} in
  shr_m mrs = M / 2 ^ Zpos p
  /\ round_nearest_even (shr_m mrs) (loc_of_shr_record mrs)
     = round_even M (Zpos p).
Proof.
  intros HM mrs. subst mrs. rewrite iter_pos_nat.
  destruct (Pos.to_nat p) as [|n] eqn:En; [ lia | ].
  rewrite iter_shr_1 by lia.
  assert (Hk : Zpos p = Z.of_nat n + 1) by lia.
  replace (Z.of_nat (S n)) with (Zpos p) by lia.
  split; [ reflexivity | ].
  cbn [shr_m]. unfold round_even.
  set (k1 := Z.of_nat n) in *.
  assert (Hp : 0 < 2 ^ k1) by (apply Z.pow_pos_nonneg; lia).
  assert (Hs : 2 ^ Zpos p = 2 ^ k1 * 2).
  { rewrite Hk, Z.pow_add_r by lia. reflexivity. }
  assert (Hrem : M mod 2 ^ Zpos p
                 = M mod 2 ^ k1 + 2 ^ k1 * ((M / 2 ^ k1) mod 2)).
  { rewrite Hs. apply Z.rem_mul_r; lia. }
  rewrite (Zmod_odd (M / 2 ^ k1)) in Hrem.
  pose proof (Z.mod_pos_bound M (2 ^ k1) Hp) as Hb.
  set (low := M mod 2 ^ k1) in *.
  set (rem := M mod 2 ^ Zpos p) in *.
  destruct (Z.odd (M / 2 ^ k1)); destruct (low =? 0) eqn:E;
    [ apply Z.eqb_eq in E | apply Z.eqb_neq in E
    | apply Z.eqb_eq in E | apply Z.eqb_neq in E ];
    cbn [negb loc_of_shr_record round_nearest_even].
  - replace (2 * rem <? 2 ^ Zpos p) with false
      by (symmetry; apply Z.ltb_ge; lia).
    replace (2 * rem =? 2 ^ Zpos p) with true
      by (symmetry; apply Z.eqb_eq; lia).
    reflexivity.
  - replace (2 * rem <? 2 ^ Zpos p) with false
      by (symmetry; apply Z.ltb_ge; lia).
    replace (2 * rem =? 2 ^ Zpos p) with false
      by (symmetry; apply Z.eqb_neq; lia).
    reflexivity.
  - replace (2 * rem <? 2 ^ Zpos p) with true
      by (symmetry; apply Z.ltb_lt; lia).
    reflexivity.
  - replace (2 * rem <? 2 ^ Zpos p) with true
      by (symmetry; apply Z.ltb_lt; lia).
    reflexivity.
Qed.

Lemma round_even_0 (M : Z) : round_even M 0 = M.
Proof.
  unfold round_even. rewrite Z.pow_0_r, Z.mod_1_r, Z.div_1_r. reflexivity.
Qed.

(** The quotient rounded is the quotient or the next integer. *)
Lemma round_even_cases (M k : Z) :
  round_even M k = M / 2 ^ k \/ round_even M k = M / 2 ^ k + 1.
Proof.
  unfold round_even.
  destruct (2 * (M mod 2 ^ k) <? 2 ^ k); auto.
  destruct (2 * (M mod 2 ^ k) =? 2 ^ k); auto.
  destruct (Z.even (M / 2 ^ k)); auto.
Qed.

Lemma shr_noop (mrs : shr_record) (e n : Z) :
  n <= 0 -> shr mrs e n = (mrs, e).
Proof. intros H. destruct n; trivial. pose proof (Pos2Z.is_pos p). lia. Qed.

Lemma fexp_eq (x : Z) : fexp prec emax x = Z.max (x - 53) (-1074).
Proof. reflexivity. Qed.

Lemma digits2_pos_le (q : positive) (n : Z) :
  Zpos q < 2 ^ n -> Zpos (digits2_pos q) <= n.
Proof.
  intros H. pose proof (digits2_pos_bounds q) as [Hlo _].
  destruct (Z.le_gt_cases (Zpos (digits2_pos q)) n) as [|Hgt]; trivial.
  assert (2 ^ n <= 2 ^ (Zpos (digits2_pos q) - 1))
    by (apply Z.pow_le_mono_r; lia).
  lia.
Qed.

(** What [binary_round_aux] returns for a positive mantissa that has to be
    shifted right, or not at all. *)
Lemma binary_round_aux_spec (M : positive) (e : Z) :
  let t := Z.max (Zpos (digits2_pos M) + e - 53) (-1074) in
  e <= t ->
  let q := round_even (Zpos M) (t - e) in
  0 <= q <= 2 ^ 53
  /\ (-1074 < t -> 2 ^ 52 <= q)
  /\ binary_round_aux prec emax false (Zpos M) e loc_Exact
     = if q =? 0 then S754_zero false
       else if q <? 2 ^ 53 then
         if t <=? 971 then S754_finite false (Z.to_pos q) t
         else S754_infinity false
       else
         if t + 1 <=? 971 then S754_finite false 4503599627370496 (t + 1)
         else S754_infinity false.
Proof.
  intros t Het q.
  set (d := Zpos (digits2_pos M)) in *.
  pose proof (digits2_pos_bounds M) as [Hlo Hhi]. fold d in Hlo, Hhi.
  assert (Hd : 0 < d) by (subst d; lia).
  set (k := t - e) in *.
  assert (Hk : 0 <= k) by (subst k; lia).
  assert (Hpk : 0 < 2 ^ k) by (apply Z.pow_pos_nonneg; lia).
  assert (HQhi : Zpos M / 2 ^ k < 2 ^ 53).
  { apply Z.div_lt_upper_bound; trivial.
    rewrite <- Z.pow_add_r by lia.
    apply Z.lt_le_trans with (1 := Hhi). apply Z.pow_le_mono_r; lia. }
  assert (HQlo : 0 <= Zpos M / 2 ^ k) by (apply Z.div_pos; lia).
  assert (HQn : -1074 < t -> 2 ^ 52 <= Zpos M / 2 ^ k).
  { intros Ht. apply Z.div_le_lower_bound; trivial.
    rewrite <- Z.pow_add_r by lia.
    apply Z.le_trans with (2 := Hlo). apply Z.pow_le_mono_r; lia. }
  assert (Hq : 0 <= q <= 2 ^ 53 /\ (-1074 < t -> 2 ^ 52 <= q)).
  { destruct (round_even_cases (Zpos M) k) as [E | E]; fold q in E;
      rewrite E; split; try lia; intros Ht; specialize (HQn Ht); lia. }
  destruct Hq as [Hq Hqn]. split; [ exact Hq | split; [ exact Hqn | ] ].
  (* the first shift *)
  assert (H1 : let '(mrs, e') := shr_fexp prec emax (Zpos M) e loc_Exact in
               round_nearest_even (shr_m mrs) (loc_of_shr_record mrs) = q
               /\ e' = t).
  { unfold shr_fexp, Zdigits2. rewrite fexp_eq. fold d t k.
    cbn [shr_record_of_loc]. destruct k as [|p|p] eqn:Ek; try lia.
    - cbn [shr shr_m loc_of_shr_record round_nearest_even].
      subst q. rewrite round_even_0. split; [ reflexivity | lia ].
    - cbn [shr].
      destruct (loc_of_shr (Zpos M) p) as [_ H]; [ lia | ].
      split; [ exact H | lia ]. }
  unfold binary_round_aux.
  destruct (shr_fexp prec emax (Zpos M) e loc_Exact) as [mrs e'].
  destruct H1 as [-> ->].
  (* the second one *)
  destruct (Z.eqb_spec q 0) as [E0 | E0].
  - rewrite E0. unfold shr_fexp, Zdigits2. rewrite fexp_eq, shr_noop by lia.
    reflexivity.
  - destruct (Z.ltb_spec q (2 ^ 53)) as [Elt | Ege].
    + destruct q as [|q'|q'] eqn:Eq; try lia.
      unfold shr_fexp, Zdigits2. rewrite fexp_eq.
      pose proof (digits2_pos_le q' 53 Elt) as Hdq.
      rewrite shr_noop by lia. cbn [shr_record_of_loc shr_m].
      reflexivity.
    + assert (Eq : q = Zpos 9007199254740992)
        by (change (Zpos 9007199254740992) with (2 ^ 53); lia).
      rewrite Eq. unfold shr_fexp, Zdigits2. rewrite fexp_eq.
      change (Zpos (digits2_pos 9007199254740992)) with 54.
      replace (Z.max (54 + t - 53) (-1074) - t) with 1 by lia.
      reflexivity.
Qed.


Lemma round_even_spec (V k : Z) :
  0 <= k ->
  let q := V / 2 ^ k in
  let r := V mod 2 ^ k in
  V = q * 2 ^ k + r /\ 0 <= r < 2 ^ k
  /\ ((2 * r < 2 ^ k /\ round_even V k = q)
      \/ (2 * r = 2 ^ k /\ Z.even q = true /\ round_even V k = q)
      \/ (2 * r = 2 ^ k /\ Z.even q = false /\ round_even V k = q + 1)
      \/ (2 ^ k < 2 * r /\ round_even V k = q + 1)).
Proof.
  intros Hk q r.
  assert (Hp : 0 < 2 ^ k) by (apply Z.pow_pos_nonneg; lia).
  split; [ | split ].
  - subst q r. rewrite Z.mul_comm. apply Z.div_mod. lia.
  - apply Z.mod_pos_bound; lia.
  - unfold round_even. fold q r.
    destruct (Z.ltb_spec (2 * r) (2 ^ k)); [ left; auto | ].
    destruct (Z.eqb_spec (2 * r) (2 ^ k)).
    + destruct (Z.even q) eqn:E; [ right; left | right; right; left ]; auto.
    + right; right; right. split; [ lia | reflexivity ].
Qed.

Lemma round_even_error (V k : Z) :
  0 <= k -> 2 * Z.abs (round_even V k * 2 ^ k - V) <= 2 ^ k.
Proof.
  intros Hk. destruct (round_even_spec V k Hk) as (HV & Hr & Hc).
  set (q := V / 2 ^ k) in *. set (r := V mod 2 ^ k) in *.
  set (P := 2 ^ k) in *.
  destruct Hc as [[H ->] | [(H & _ & ->) | [(H & _ & ->) | [H ->]]]]; lia.
Qed.

Lemma round_even_exact (V k : Z) :
  0 <= k -> V mod 2 ^ k = 0 -> round_even V k * 2 ^ k = V.
Proof.
  intros Hk H0. destruct (round_even_spec V k Hk) as (HV & Hr & Hc).
  assert (Hp : 0 < 2 ^ k) by (apply Z.pow_pos_nonneg; lia).
  rewrite H0 in *.
  destruct Hc as [[H ->] | [(H & _ & ->) | [(H & _ & ->) | [H ->]]]]; lia.
Qed.

Lemma round_even_mono (V V' k : Z) :
  0 <= k -> V <= V' -> round_even V k <= round_even V' k.
Proof.
  intros Hk HV.
  destruct (round_even_spec V k Hk) as (E & Hr & Hc).
  destruct (round_even_spec V' k Hk) as (E' & Hr' & Hc').
  assert (Hp : 0 < 2 ^ k) by (apply Z.pow_pos_nonneg; lia).
  assert (Hq : V / 2 ^ k <= V' / 2 ^ k) by (apply Z.div_le_mono; lia).
  set (q := V / 2 ^ k) in *. set (r := V mod 2 ^ k) in *.
  set (q' := V' / 2 ^ k) in *. set (r' := V' mod 2 ^ k) in *.
  set (P := 2 ^ k) in *.
  destruct (Z.eq_dec q q') as [Eq | Ne].
  - rewrite <- Eq in *.
    destruct Hc as [[H ->] | [(H & Hev & ->) | [(H & Hev & ->) | [H ->]]]];
    destruct Hc' as [[H' ->] | [(H' & Hev' & ->) | [(H' & Hev' & ->)
                                                   | [H' ->]]]];
      try lia; congruence.
  - assert (Hlt : q + 1 <= q') by lia.
    destruct Hc as [[H ->] | [(H & Hev & ->) | [(H & Hev & ->) | [H ->]]]];
    destruct Hc' as [[H' ->] | [(H' & Hev' & ->) | [(H' & Hev' & ->)
                                                   | [H' ->]]]];
      lia.
Qed.

Lemma round_even_nonneg (V k : Z) : 0 <= k -> 0 <= V -> 0 <= round_even V k.
Proof.
  intros Hk HV.
  assert (Hp : 0 < 2 ^ k) by (apply Z.pow_pos_nonneg; lia).
  assert (0 <= V / 2 ^ k) by (apply Z.div_pos; lia).
  destruct (round_even_cases V k); lia.
Qed.

(** Rounding does not cross a multiple of [2^k]. *)
Lemma round_even_le (V k c : Z) :
  0 <= k -> V <= c * 2 ^ k -> round_even V k <= c.
Proof.
  intros Hk H.
  assert (Hp : 0 < 2 ^ k) by (apply Z.pow_pos_nonneg; lia).
  apply Z.le_trans with (round_even (c * 2 ^ k) k).
  - now apply round_even_mono.
  - pose proof (round_even_exact (c * 2 ^ k) k Hk (Z.mod_mul c (2 ^ k) ltac:(lia))).
    nia.
Qed.

Lemma round_even_ge (V k c : Z) :
  0 <= k -> c * 2 ^ k <= V -> c <= round_even V k.
Proof.
  intros Hk H.
  assert (Hp : 0 < 2 ^ k) by (apply Z.pow_pos_nonneg; lia).
  apply Z.le_trans with (round_even (c * 2 ^ k) k).
  - pose proof (round_even_exact (c * 2 ^ k) k Hk (Z.mod_mul c (2 ^ k) ltac:(lia))).
    nia.
  - now apply round_even_mono.
Qed.

Lemma round_even_scale (V k s : Z) :
  0 <= k -> 0 <= s -> round_even (V * 2 ^ s) (k + s) = round_even V k.
Proof.
  intros Hk Hs.
  assert (Hpk : 0 < 2 ^ k) by (apply Z.pow_pos_nonneg; lia).
  assert (Hps : 0 < 2 ^ s) by (apply Z.pow_pos_nonneg; lia).
  unfold round_even. rewrite Z.pow_add_r by lia.
  rewrite Z.div_mul_cancel_r by lia.
  rewrite Z.mul_mod_distr_r by lia.
  replace (2 * (V mod 2 ^ k * 2 ^ s) <? 2 ^ k * 2 ^ s)
    with (2 * (V mod 2 ^ k) <? 2 ^ k).
  - replace (2 * (V mod 2 ^ k * 2 ^ s) =? 2 ^ k * 2 ^ s)
      with (2 * (V mod 2 ^ k) =? 2 ^ k); trivial.
    destruct (Z.eqb_spec (2 * (V mod 2 ^ k)) (2 ^ k));
      symmetry; [ apply Z.eqb_eq | apply Z.eqb_neq ]; nia.
  - destruct (Z.ltb_spec (2 * (V mod 2 ^ k)) (2 ^ k));
      symmetry; [ apply Z.ltb_lt | apply Z.ltb_ge ]; nia.
Qed.

Lemma log2_bounds (V : Z) :
  0 <= V -> V < 2 ^ (Z.log2 V + 1) /\ (0 < V -> 2 ^ Z.log2 V <= V).
Proof.
  intros HV. destruct (Z.eq_dec V 0) as [-> | Hne].
  - split; [ reflexivity | lia ].
  - destruct (Z.log2_spec V) as [Hlo Hhi]; [ lia | ].
    split; [ exact Hhi | trivial ].
Qed.

Lemma pow2_split (a b : Z) : 0 <= b <= a -> 2 ^ a = 2 ^ (a - b) * 2 ^ b.
Proof. intros H. rewrite <- Z.pow_add_r by lia. f_equal. lia. Qed.

Lemma nearest_0 (lo : Z) : 0 <= lo -> nearest lo 0 = 0.
Proof.
  intros Hlo. unfold nearest. simpl Z.log2.
  rewrite Z.max_r by lia. unfold round_even.
  rewrite Z.mod_0_l, Z.div_0_l by (apply Z.pow_nonzero; lia).
  assert (0 < 2 ^ lo) by (apply Z.pow_pos_nonneg; lia).
  replace (2 * 0 <? 2 ^ lo) with true by (symmetry; apply Z.ltb_lt; lia).
  reflexivity.
Qed.

Lemma nearest_nonneg (lo V : Z) : 0 <= lo -> 0 <= V -> 0 <= nearest lo V.
Proof.
  intros Hlo HV. unfold nearest.
  set (kk := Z.max (Z.log2 V + 1 - 53) lo).
  assert (0 <= kk) by (subst kk; lia).
  assert (0 < 2 ^ kk) by (apply Z.pow_pos_nonneg; lia).
  pose proof (round_even_nonneg V kk ltac:(lia) HV). nia.
Qed.

Lemma nearest_error (lo V : Z) :
  0 <= lo ->
  2 * Z.abs (nearest lo V - V) <= 2 ^ Z.max (Z.log2 V + 1 - 53) lo.
Proof. intros Hlo. unfold nearest. apply round_even_error. lia. Qed.

Lemma nearest_exact (lo V : Z) :
  0 <= lo -> V mod 2 ^ Z.max (Z.log2 V + 1 - 53) lo = 0 -> nearest lo V = V.
Proof. intros Hlo H. unfold nearest. apply round_even_exact; trivial. lia. Qed.

Lemma nearest_mono (lo V V' : Z) :
  0 <= lo -> 0 <= V <= V' -> nearest lo V <= nearest lo V'.
Proof.
  intros Hlo [HV HVV]. unfold nearest.
  pose proof (Z.log2_le_mono V V' HVV) as Hlog.
  pose proof (Z.log2_nonneg V) as Hl0.
  set (D := Z.log2 V + 1) in *. set (D' := Z.log2 V' + 1) in *.
  set (kk := Z.max (D - 53) lo). set (kk' := Z.max (D' - 53) lo).
  assert (Hkk : 0 <= kk <= kk') by (subst kk kk' D D'; lia).
  assert (Hp : 0 < 2 ^ kk) by (apply Z.pow_pos_nonneg; lia).
  assert (Hp' : 0 < 2 ^ kk') by (apply Z.pow_pos_nonneg; lia).
  destruct (Z.eq_dec kk kk') as [E | Hne].
  - rewrite <- E. apply Z.mul_le_mono_nonneg_r; [ lia | ].
    apply round_even_mono; lia.
  - assert (HD : D < D') by (subst kk kk'; lia).
    assert (Ek' : kk' = D' - 53) by (subst kk kk'; lia).
    assert (HV' : 0 < V').
    { destruct (Z.eq_dec V' 0) as [E0 | ]; [ | lia ].
      subst D'. rewrite E0 in HD. simpl in HD. subst D. lia. }
    destruct (log2_bounds V HV) as [Hhi _]. fold D in Hhi.
    destruct (log2_bounds V' ltac:(lia)) as [_ Hlo']. specialize (Hlo' HV').
    replace (Z.log2 V') with (D' - 1) in Hlo' by (subst D'; lia).
    (* both sides against 2^(D'-1) *)
    apply Z.le_trans with (2 ^ (D' - 1)).
    + destruct (Z.le_gt_cases kk D) as [Hle | Hgt].
      * apply Z.le_trans with (2 ^ D).
        -- rewrite (pow2_split D kk) by lia.
           apply Z.mul_le_mono_nonneg_r; [ lia | ].
           apply round_even_le; [ lia | ].
           rewrite <- pow2_split by lia. lia.
        -- apply Z.pow_le_mono_r; lia.
      * apply Z.le_trans with (2 ^ kk).
        -- replace (2 ^ kk) with (1 * 2 ^ kk) at 2 by lia.
           apply Z.mul_le_mono_nonneg_r; [ lia | ].
           apply round_even_le; [ lia | ].
           assert (2 ^ D <= 2 ^ kk) by (apply Z.pow_le_mono_r; lia). lia.
        -- apply Z.pow_le_mono_r; lia.
    + rewrite (pow2_split (D' - 1) kk') by lia.
      apply Z.mul_le_mono_nonneg_r; [ lia | ].
      apply round_even_ge; [ lia | ].
      rewrite <- pow2_split by lia. lia.
Qed.


Lemma digits2_pos_log2 (M : positive) :
  Zpos (digits2_pos M) = Z.log2 (Zpos M) + 1.
Proof.
  pose proof (digits2_pos_bounds M) as [Hlo Hhi].
  assert (Z.log2 (Zpos M) = Zpos (digits2_pos M) - 1); [ | lia ].
  apply Z.log2_unique; [ lia | ].
  replace (Z.succ (Zpos (digits2_pos M) - 1)) with (Zpos (digits2_pos M))
    by lia.
  split; assumption.
Qed.

Lemma canonical_bounds (m : positive) (e : Z) :
  bounded prec emax m e = true ->
  -1074 <= e <= 971 /\ Zpos m < 2 ^ 53 /\ (-1074 < e -> 2 ^ 52 <= Zpos m).
Proof.
  unfold bounded, canonical_mantissa. intros H.
  apply andb_prop in H. destruct H as [Hc Hb].
  apply Z.eqb_eq in Hc. apply Z.leb_le in Hb. rewrite fexp_eq in Hc.
  change (emax - prec) with 971 in Hb.
  pose proof (digits2_pos_bounds m) as [Hlo Hhi].
  set (d := Zpos (digits2_pos m)) in *.
  split; [ lia | split ].
  - apply Z.lt_le_trans with (1 := Hhi). apply Z.pow_le_mono_r; lia.
  - intros He. apply Z.le_trans with (2 := Hlo). apply Z.pow_le_mono_r; lia.
Qed.

Lemma bounded_intro (q : positive) (t : Z) :
  -1074 <= t <= 971 -> Zpos q < 2 ^ 53 -> (-1074 < t -> 2 ^ 52 <= Zpos q) ->
  bounded prec emax q t = true.
Proof.
  intros Ht Hq Hn. unfold bounded, canonical_mantissa.
  apply andb_true_intro. split.
  - apply Z.eqb_eq. rewrite fexp_eq.
    pose proof (digits2_pos_le q 53 Hq) as Hd.
    destruct (Z.eq_dec t (-1074)) as [-> | Hne]; [ lia | ].
    rewrite (digits2_pos_unique q 53); [ lia | ].
    split; [ apply Hn; lia | exact Hq ].
  - apply Z.leb_le. change (emax - prec) with 971. lia.
Qed.

Lemma binary_round_aux_nearest (M : positive) (e lo : Z) :
  0 <= lo -> 0 <= e + 1074 + lo ->
  e <= Z.max (Zpos (digits2_pos M) + e - 53) (-1074) ->
  nearest lo (Zpos M * 2 ^ (e + 1074 + lo)) < 2 ^ (2098 + lo) ->
  let r := binary_round_aux prec emax false (Zpos M) e loc_Exact in
  nonneg r = true
  /\ ulps r * 2 ^ lo = nearest lo (Zpos M * 2 ^ (e + 1074 + lo)).
Proof.
  intros Hlo Hs Het Hov r.
  destruct (binary_round_aux_spec M e Het) as (Hq & Hqn & Hr).
  fold r in Hr.
  set (t := Z.max (Zpos (digits2_pos M) + e - 53) (-1074)) in *.
  set (q := round_even (Zpos M) (t - e)) in *.
  set (s := e + 1074 + lo) in *.
  assert (Hnear : nearest lo (Zpos M * 2 ^ s) = q * 2 ^ (t + 1074) * 2 ^ lo).
  { unfold nearest. rewrite Z.log2_mul_pow2 by lia.
    rewrite <- (digits2_pos_log2 M) || idtac.
    replace (s + Z.log2 (Zpos M) + 1 - 53)
      with (Zpos (digits2_pos M) + s - 53)
      by (rewrite digits2_pos_log2; lia).
    replace (Z.max (Zpos (digits2_pos M) + s - 53) lo) with ((t - e) + s)
      by (subst t s; lia).
    rewrite round_even_scale by lia. fold q.
    replace (t - e + s) with ((t + 1074) + lo) by (subst s; lia).
    rewrite Z.pow_add_r by lia. ring. }
  rewrite Hnear in *.
  assert (Hplo : 0 < 2 ^ lo) by (apply Z.pow_pos_nonneg; lia).
  assert (Hpt : 0 < 2 ^ (t + 1074)) by (apply Z.pow_pos_nonneg; lia).
  assert (Hov' : q * 2 ^ (t + 1074) < 2 ^ 2098).
  { rewrite (Z.pow_add_r 2 2098 lo) in Hov by lia. nia. }
  destruct (Z.eqb_spec q 0) as [E0 | E0].
  - rewrite Hr. split; [ reflexivity | ]. rewrite E0. reflexivity.
  - destruct (Z.ltb_spec q (2 ^ 53)) as [Elt | Ege].
    + assert (Ht : t <= 971).
      { destruct (Z.le_gt_cases t 971) as [|Hgt]; trivial.
        assert (2 ^ 52 <= q) by (apply Hqn; lia).
        assert (2 ^ 2046 <= 2 ^ (t + 1074)) by (apply Z.pow_le_mono_r; lia).
        change (2 ^ 2098) with (2 ^ 52 * 2 ^ 2046) in Hov'. nia. }
      replace (t <=? 971) with true in Hr by (symmetry; apply Z.leb_le; lia).
      rewrite Hr. split.
      * unfold nonneg, valid, valid_binary. rewrite andb_true_r.
        apply bounded_intro; rewrite ?Z2Pos.id by lia; try lia.
      * unfold ulps. rewrite Z2Pos.id by lia. reflexivity.
    + assert (Eq : q = 2 ^ 53) by lia.
      assert (Ht : t + 1 <= 971).
      { destruct (Z.le_gt_cases (t + 1) 971) as [|Hgt]; trivial.
        assert (2 ^ 2045 <= 2 ^ (t + 1074)) by (apply Z.pow_le_mono_r; lia).
        change (2 ^ 2098) with (2 ^ 53 * 2 ^ 2045) in Hov'. nia. }
      replace (t + 1 <=? 971) with true in Hr
        by (symmetry; apply Z.leb_le; lia).
      rewrite Hr. split.
      * unfold nonneg, valid, valid_binary. rewrite andb_true_r.
        apply bounded_intro; try lia; try reflexivity.
      * unfold ulps. rewrite Eq.
        change (Zpos 4503599627370496) with (2 ^ 52).
        replace (t + 1 + 1074) with (1 + (t + 1074)) by lia.
        rewrite (Z.pow_add_r 2 1) by lia.
        change (2 ^ 53) with (2 ^ 52 * 2 ^ 1). ring.
Qed.

Lemma binary_round_nearest (M : positive) (e : Z) :
  -1074 <= e ->
  nearest 0 (Zpos M * 2 ^ (e + 1074)) < 2 ^ 2098 ->
  let r := binary_round prec emax false M e in
  nonneg r = true /\ ulps r = nearest 0 (Zpos M * 2 ^ (e + 1074)).
Proof.
  intros He Hov r. subst r. unfold binary_round. rewrite fexp_eq.
  set (t := Z.max (Zpos (digits2_pos M) + e - 53) (-1074)).
  destruct (Z.le_gt_cases e t) as [Hle | Hgt].
  - rewrite shl_align_noop by lia.
    destruct (binary_round_aux_nearest M e 0) as [Hn Hu];
      rewrite ?Z.add_0_r; try (fold t; lia); trivial.
    rewrite Z.pow_0_r, Z.mul_1_r, Z.add_0_r in Hu. auto.
  - (* the mantissa is first shifted left, to the exponent [t] *)
    pose proof (shl_align_value M e t ltac:(lia)) as Hval.
    assert (Hsnd : snd (shl_align M e t) = t).
    { unfold shl_align. destruct (t - e) eqn:E; try lia. reflexivity. }
    destruct (shl_align M e t) as [M' e']. cbn [fst snd] in *. subst e'.
    assert (Hp : 0 < 2 ^ (e - t)) by (apply Z.pow_pos_nonneg; lia).
    assert (Hd' : Zpos (digits2_pos M') = Zpos (digits2_pos M) + (e - t)).
    { rewrite !digits2_pos_log2, Hval, Z.log2_mul_pow2 by lia. lia. }
    assert (HV : Zpos M' * 2 ^ (t + 1074) = Zpos M * 2 ^ (e + 1074)).
    { rewrite Hval, <- Z.mul_assoc, <- Z.pow_add_r by lia.
      f_equal. f_equal. lia. }
    destruct (binary_round_aux_nearest M' t 0) as [Hn Hu];
      rewrite ?Z.add_0_r, ?HV; try (rewrite ?Hd'; subst t; lia); trivial.
    rewrite Z.pow_0_r, Z.mul_1_r, Z.add_0_r, HV in Hu. auto.
Qed.

Lemma nonneg_cases (x : f64) :
  nonneg x = true ->
  x = pos_zero
  \/ exists m e, x = S754_finite false m e /\ bounded prec emax m e = true.
Proof.
  unfold nonneg, valid. destruct x as [[]|[]| |[] m e]; simpl;
    rewrite ?andb_false_r, ?andb_true_r; try discriminate; eauto.
Qed.

(** The order of the doubles is the order of their magnitudes. *)
Lemma SFcompare_ulps (x y : f64) :
  nonneg x = true -> nonneg y = true ->
  SFcompare x y = Some (ulps x ?= ulps y).
Proof.
  intros Hx Hy.
  destruct (nonneg_cases x Hx) as [-> | (m & e & -> & Hb)];
    destruct (nonneg_cases y Hy) as [-> | (m' & e' & -> & Hb')];
    unfold pos_zero.
  - reflexivity.
  - cbn [SFcompare ulps]. f_equal. symmetry. apply Z.compare_lt_iff.
    assert (0 < 2 ^ (e' + 1074)).
    { apply Z.pow_pos_nonneg; [ lia | ].
      pose proof (canonical_bounds m' e' Hb'). lia. }
    nia.
  - cbn [SFcompare ulps]. f_equal. symmetry. apply Z.compare_gt_iff.
    assert (0 < 2 ^ (e + 1074)).
    { apply Z.pow_pos_nonneg; [ lia | ].
      pose proof (canonical_bounds m e Hb). lia. }
    nia.
  - destruct (canonical_bounds m e Hb) as (He & Hm & Hn).
    destruct (canonical_bounds m' e' Hb') as (He' & Hm' & Hn').
    cbn [SFcompare ulps]. f_equal.
    assert (Hstep : forall (a b : positive) (ea eb : Z),
               -1074 <= ea -> ea < eb -> Zpos a < 2 ^ 53 ->
               2 ^ 52 <= Zpos b ->
               Zpos a * 2 ^ (ea + 1074) < Zpos b * 2 ^ (eb + 1074)).
    { intros a b ea eb H0 H1 Ha Hb0.
      assert (Hpa : 0 < 2 ^ (ea + 1074)) by (apply Z.pow_pos_nonneg; lia).
      assert (2 * 2 ^ (ea + 1074) <= 2 ^ (eb + 1074)).
      { rewrite <- Z.pow_succ_r by lia. apply Z.pow_le_mono_r; lia. }
      change (2 ^ 53) with (2 * 2 ^ 52) in Ha. nia. }
    destruct (Z.compare_spec e e') as [E | E | E].
    + subst e'.
      assert (Hp : 0 < 2 ^ (e + 1074)) by (apply Z.pow_pos_nonneg; lia).
      destruct (compare_cont_spec m m') as [E | E | E];
        symmetry;
        [ apply Z.compare_eq_iff | apply Z.compare_lt_iff
        | apply Z.compare_gt_iff ]; nia.
    + symmetry. apply Z.compare_lt_iff. apply Hstep; try lia.
    + symmetry. apply Z.compare_gt_iff. apply Hstep; try lia.
Qed.

Lemma SFleb_ulps (x y : f64) :
  nonneg x = true -> nonneg y = true ->
  SFleb x y = (ulps x <=? ulps y).
Proof.
  intros Hx Hy. unfold SFleb. rewrite SFcompare_ulps by trivial.
  unfold Z.leb. destruct (ulps x ?= ulps y); reflexivity.
Qed.

Lemma ulps_inj (x y : f64) :
  nonneg x = true -> nonneg y = true -> ulps x = ulps y -> x = y.
Proof.
  intros Hx Hy H.
  pose proof (SFcompare_ulps x y Hx Hy) as Hc.
  rewrite H, Z.compare_refl in Hc.
  destruct (SFcompare_Eq_inv _ _ Hc) as [-> | [Hzx Hzy]]; trivial.
  destruct (nonneg_cases x Hx) as [-> | (m & e & -> & _)];
    destruct (nonneg_cases y Hy) as [-> | (m' & e' & -> & _)];
    trivial; discriminate.
Qed.


Lemma ulps_finite_bounds (m : positive) (e : Z) :
  bounded prec emax m e = true ->
  0 < Zpos m * 2 ^ (e + 1074) < 2 ^ 2098
  /\ nearest 0 (Zpos m * 2 ^ (e + 1074)) = Zpos m * 2 ^ (e + 1074).
Proof.
  intros Hb. destruct (canonical_bounds m e Hb) as (He & Hm & Hn).
  assert (Hp : 0 < 2 ^ (e + 1074)) by (apply Z.pow_pos_nonneg; lia).
  split.
  - split; [ nia | ].
    assert (2 ^ (e + 1074) <= 2 ^ 2045) by (apply Z.pow_le_mono_r; lia).
    change (2 ^ 2098) with (2 ^ 53 * 2 ^ 2045). nia.
  - apply nearest_exact; [ lia | ].
    rewrite Z.log2_mul_pow2 by lia.
    pose proof (digits2_pos_log2 m) as Hd.
    unfold bounded, canonical_mantissa in Hb. apply andb_prop in Hb.
    destruct Hb as [Hc _]. apply Z.eqb_eq in Hc. rewrite fexp_eq in Hc.
    replace (Z.max (e + 1074 + Z.log2 (Zpos m) + 1 - 53) 0) with (e + 1074)
      by lia.
    apply Z.mod_mul. lia.
Qed.

Lemma ulps_nonneg (x : f64) :
  nonneg x = true ->
  0 <= ulps x < 2 ^ 2098 /\ nearest 0 (ulps x) = ulps x.
Proof.
  intros Hx. destruct (nonneg_cases x Hx) as [-> | (m & e & -> & Hb)].
  - split; [ split; [ reflexivity | reflexivity ] | ].
    apply nearest_0. lia.
  - destruct (ulps_finite_bounds m e Hb) as [H1 H2]. cbn [ulps].
    split; [ lia | exact H2 ].
Qed.

Lemma aligned_ulps (m : positive) (e e' : Z) :
  -1074 <= e' <= e ->
  Zpos (fst (shl_align m e e')) * 2 ^ (e' + 1074) = Zpos m * 2 ^ (e + 1074).
Proof.
  intros H. rewrite shl_align_value by lia.
  rewrite <- Z.mul_assoc, <- Z.pow_add_r by lia. f_equal. f_equal. lia.
Qed.

(** The sum of two doubles is their exact sum, rounded. *)
Lemma add_ulps (x y : f64) :
  nonneg x = true -> nonneg y = true ->
  nearest 0 (ulps x + ulps y) < 2 ^ 2098 ->
  nonneg (add x y) = true /\ ulps (add x y) = nearest 0 (ulps x + ulps y).
Proof.
  intros Hx Hy Hov.
  destruct (ulps_nonneg x Hx) as [Hbx Hrx].
  destruct (ulps_nonneg y Hy) as [Hby Hry].
  destruct (nonneg_cases x Hx) as [-> | (m & e & -> & Hb)];
    destruct (nonneg_cases y Hy) as [-> | (m' & e' & -> & Hb')].
  - split; [ reflexivity | ]. symmetry. apply nearest_0. lia.
  - split; [ exact Hy | ]. now rewrite Z.add_0_l.
  - split; [ exact Hx | ].
    change (ulps pos_zero) with 0. now rewrite Z.add_0_r.
  - destruct (canonical_bounds m e Hb) as (He & _).
    destruct (canonical_bounds m' e' Hb') as (He' & _).
    cbn [ulps] in *. unfold add, SFadd. cbn [cond_Zopp].
    set (ez := Z.min e e').
    pose proof (aligned_ulps m e ez ltac:(lia)) as Ha.
    pose proof (aligned_ulps m' e' ez ltac:(lia)) as Ha'.
    set (a := fst (shl_align m e ez)) in *.
    set (a' := fst (shl_align m' e' ez)) in *.
    change (Zpos a + Zpos a') with (Zpos (a + a')).
    cbn [binary_normalize].
    assert (HV : Zpos (a + a') * 2 ^ (ez + 1074)
                 = Zpos m * 2 ^ (e + 1074) + Zpos m' * 2 ^ (e' + 1074)).
    { rewrite Pos2Z.inj_add, Z.mul_add_distr_r, Ha, Ha'. reflexivity. }
    destruct (binary_round_nearest (a + a') ez) as [Hn Hu];
      rewrite ?HV; trivial; try lia.
    rewrite HV in Hu. auto.
Qed.

(** The difference of two doubles, the smaller from the larger, is their
    exact difference, rounded. *)
Lemma sub_ulps (x y : f64) :
  nonneg x = true -> nonneg y = true -> ulps y <= ulps x ->
  nonneg (sub x y) = true /\ ulps (sub x y) = nearest 0 (ulps x - ulps y).
Proof.
  intros Hx Hy Hle.
  destruct (ulps_nonneg x Hx) as [Hbx Hrx].
  destruct (ulps_nonneg y Hy) as [Hby Hry].
  assert (Hov : nearest 0 (ulps x - ulps y) < 2 ^ 2098).
  { apply Z.le_lt_trans with (nearest 0 (ulps x)); [ | lia ].
    apply nearest_mono; lia. }
  destruct (nonneg_cases x Hx) as [-> | (m & e & -> & Hb)];
    destruct (nonneg_cases y Hy) as [-> | (m' & e' & -> & Hb')].
  - split; [ reflexivity | ]. symmetry. apply nearest_0. lia.
  - destruct (ulps_finite_bounds m' e' Hb') as [H _].
    cbn [ulps] in Hle. change (ulps pos_zero) with 0 in Hle. lia.
  - split; [ exact Hx | ].
    change (ulps pos_zero) with 0. now rewrite Z.sub_0_r.
  - destruct (canonical_bounds m e Hb) as (He & _).
    destruct (canonical_bounds m' e' Hb') as (He' & _).
    cbn [ulps] in *. unfold sub, SFsub. cbn [cond_Zopp].
    set (ez := Z.min e e').
    pose proof (aligned_ulps m e ez ltac:(lia)) as Ha.
    pose proof (aligned_ulps m' e' ez ltac:(lia)) as Ha'.
    set (a := fst (shl_align m e ez)) in *.
    set (a' := fst (shl_align m' e' ez)) in *.
    assert (Hp : 0 < 2 ^ (ez + 1074)) by (apply Z.pow_pos_nonneg; lia).
    assert (HV : (Zpos a - Zpos a') * 2 ^ (ez + 1074)
                 = Zpos m * 2 ^ (e + 1074) - Zpos m' * 2 ^ (e' + 1074)).
    { rewrite Z.mul_sub_distr_r, Ha, Ha'. reflexivity. }
    destruct (Zpos a - Zpos a') as [|d|d] eqn:Ed.
    + cbn [binary_normalize]. split; [ reflexivity | ].
      rewrite <- HV. symmetry. apply nearest_0. lia.
    + cbn [binary_normalize].
      destruct (binary_round_nearest d ez) as [Hn Hu];
        rewrite ?HV; trivial; try lia.
      rewrite HV in Hu. auto.
    + pose proof (Pos2Z.neg_is_neg d). nia.
Qed.

(** The product of two doubles is their exact product, rounded. *)
Lemma mul_ulps (x y : f64) :
  nonneg x = true -> nonneg y = true ->
  nearest 1074 (ulps x * ulps y) < 2 ^ (2098 + 1074) ->
  nonneg (mul x y) = true
  /\ ulps (mul x y) * 2 ^ 1074 = nearest 1074 (ulps x * ulps y).
Proof.
  intros Hx Hy Hov.
  destruct (nonneg_cases x Hx) as [-> | (m & e & -> & Hb)];
    destruct (nonneg_cases y Hy) as [-> | (m' & e' & -> & Hb')].
  - split; [ reflexivity | ]. symmetry. apply nearest_0. lia.
  - split; [ reflexivity | ]. symmetry. apply nearest_0. lia.
  - split; [ reflexivity | ].
    change (ulps pos_zero) with 0. rewrite Z.mul_0_r.
    symmetry. apply nearest_0. lia.
  - destruct (canonical_bounds m e Hb) as (He & Hm & Hn).
    destruct (canonical_bounds m' e' Hb') as (He' & Hm' & Hn').
    cbn [ulps] in *. unfold mul, SFmul. cbn [xorb].
    assert (HV : Zpos (m * m') * 2 ^ (e + e' + 1074 + 1074)
                 = Zpos m * 2 ^ (e + 1074) * (Zpos m' * 2 ^ (e' + 1074))).
    { rewrite Pos2Z.inj_mul.
      replace (e + e' + 1074 + 1074) with ((e + 1074) + (e' + 1074)) by lia.
      rewrite Z.pow_add_r by lia. ring. }
    destruct (binary_round_aux_nearest (m * m') (e + e') 1074) as [Hn0 Hu];
      rewrite ?HV; trivial; try lia.
    + (* the product has 53 bits at least, or lies under the subnormals *)
      destruct (Z.eq_dec e (-1074)) as [E | E];
        destruct (Z.eq_dec e' (-1074)) as [E' | E']; try lia.
      * assert (2 ^ 52 <= Zpos (m * m')).
        { rewrite Pos2Z.inj_mul. specialize (Hn' ltac:(lia)). nia. }
        assert (53 <= Zpos (digits2_pos (m * m'))).
        { destruct (Z.le_gt_cases 53 (Zpos (digits2_pos (m * m')))); trivial.
          pose proof (digits2_pos_bounds (m * m')) as [_ Hhi].
          assert (2 ^ Zpos (digits2_pos (m * m')) <= 2 ^ 52)
            by (apply Z.pow_le_mono_r; lia).
          lia. }
        lia.
      * assert (2 ^ 52 <= Zpos (m * m')).
        { rewrite Pos2Z.inj_mul. specialize (Hn ltac:(lia)). nia. }
        assert (53 <= Zpos (digits2_pos (m * m'))).
        { destruct (Z.le_gt_cases 53 (Zpos (digits2_pos (m * m')))); trivial.
          pose proof (digits2_pos_bounds (m * m')) as [_ Hhi].
          assert (2 ^ Zpos (digits2_pos (m * m')) <= 2 ^ 52)
            by (apply Z.pow_le_mono_r; lia).
          lia. }
        lia.
      * assert (2 ^ 52 <= Zpos (m * m')).
        { rewrite Pos2Z.inj_mul. specialize (Hn ltac:(lia)). nia. }
        assert (53 <= Zpos (digits2_pos (m * m'))).
        { destruct (Z.le_gt_cases 53 (Zpos (digits2_pos (m * m')))); trivial.
          pose proof (digits2_pos_bounds (m * m')) as [_ Hhi].
          assert (2 ^ Zpos (digits2_pos (m * m')) <= 2 ^ 52)
            by (apply Z.pow_le_mono_r; lia).
          lia. }
        lia.
    + rewrite HV in Hu. auto.
Qed.


Lemma nearest_scale (lo s V : Z) :
  0 <= lo -> 0 <= s -> 0 <= V ->
  nearest (lo + s) (V * 2 ^ s) = nearest lo V * 2 ^ s.
Proof.
  intros Hlo Hs HV. destruct (Z.eq_dec V 0) as [-> | Hne].
  - rewrite Z.mul_0_l, !nearest_0 by lia. reflexivity.
  - unfold nearest. rewrite Z.log2_mul_pow2 by lia.
    replace (Z.max (s + Z.log2 V + 1 - 53) (lo + s))
      with (Z.max (Z.log2 V + 1 - 53) lo + s) by lia.
    rewrite round_even_scale, Z.pow_add_r by lia. ring.
Qed.

Lemma nonneg_one : nonneg one = true.
Proof. reflexivity. Qed.

Lemma ulps_one : ulps one = 2 ^ 1074.
Proof. reflexivity. Qed.

(** A product by 1, by its value. *)
Lemma mul_one_value (x : f64) : nonneg x = true -> mul x one = x.
Proof.
  intros Hx. destruct (ulps_nonneg x Hx) as [Hb Hr].
  assert (Hn : nearest 1074 (ulps x * ulps one) = ulps x * 2 ^ 1074).
  { rewrite ulps_one. rewrite (nearest_scale 0 1074) by lia. now rewrite Hr. }
  destruct (mul_ulps x one Hx nonneg_one) as [Hn' Hu].
  - rewrite Hn. rewrite (Z.pow_add_r 2 2098 1074) by lia.
    apply Z.mul_lt_mono_pos_r; [ apply Z.pow_pos_nonneg; lia | lia ].
  - apply ulps_inj; trivial. rewrite Hn in Hu.
    apply Z.mul_reg_r in Hu; trivial. apply Z.pow_nonzero; lia.
Qed.

Lemma mul_one_l_value (x : f64) : nonneg x = true -> mul one x = x.
Proof.
  intros Hx. destruct (ulps_nonneg x Hx) as [Hb Hr].
  assert (Hn : nearest 1074 (ulps one * ulps x) = ulps x * 2 ^ 1074).
  { rewrite ulps_one, Z.mul_comm.
    rewrite (nearest_scale 0 1074) by lia. now rewrite Hr. }
  destruct (mul_ulps one x nonneg_one Hx) as [Hn' Hu].
  - rewrite Hn. rewrite (Z.pow_add_r 2 2098 1074) by lia.
    apply Z.mul_lt_mono_pos_r; [ apply Z.pow_pos_nonneg; lia | lia ].
  - apply ulps_inj; trivial. rewrite Hn in Hu.
    apply Z.mul_reg_r in Hu; trivial. apply Z.pow_nonzero; lia.
Qed.

Section Recurrence.
Variable a : f64.
Hypothesis a_nonneg : nonneg a = true.
Hypothesis a_le_1 : ulps a <= 2 ^ 1074.

Lemma fb_nonneg : nonneg (sub one a) = true /\ ulps (sub one a) = nearest 0 (2 ^ 1074 - ulps a).
Proof.
  destruct (sub_ulps one a nonneg_one a_nonneg) as [H1 H2].
  - now rewrite ulps_one.
  - rewrite ulps_one in H2. split; assumption.
Qed.

Lemma nearest_one : nearest 0 (2 ^ 1074) = 2 ^ 1074.
Proof. rewrite <- ulps_one. apply ulps_nonneg. reflexivity. Qed.

Lemma fb_le_1 : ulps (sub one a) <= 2 ^ 1074.
Proof.
  destruct fb_nonneg as [_ ->]. destruct (ulps_nonneg a a_nonneg) as [Ha _].
  rewrite <- nearest_one at 2. apply nearest_mono; lia.
Qed.

(** [1 - a] is at most [2^-54] away from its double. *)
Lemma fb_error : 2 * Z.abs (ulps (sub one a) - (2 ^ 1074 - ulps a)) <= 2 ^ 1022.
Proof.
  destruct fb_nonneg as [_ ->]. destruct (ulps_nonneg a a_nonneg) as [Ha _].
  pose proof (nearest_error 0 (2 ^ 1074 - ulps a) ltac:(lia)) as He.
  apply Z.le_trans with (1 := He). apply Z.pow_le_mono_r; [ lia | ].
  assert (Z.log2 (2 ^ 1074 - ulps a) <= Z.log2 (2 ^ 1074))
    by (apply Z.log2_le_mono; lia).
  rewrite Z.log2_pow2 in H by lia. lia.
Qed.

Lemma nearest_above_one : nearest 0 (2 ^ 1074 + 2 ^ 1021) = 2 ^ 1074.
Proof. vm_compute. reflexivity. Qed.

Lemma product_ulps (y : f64) :
  nonneg y = true -> ulps y <= 2 ^ 1074 ->
  nonneg (mul y (sub one a)) = true
  /\ ulps (mul y (sub one a)) * 2 ^ 1074 = nearest 1074 (ulps y * ulps (sub one a))
  /\ ulps (mul y (sub one a)) <= ulps (sub one a).
Proof.
  intros Hy Hy1.
  destruct fb_nonneg as [Hf _]. pose proof fb_le_1 as Hf1.
  destruct (ulps_nonneg y Hy) as [Hby _].
  destruct (ulps_nonneg (sub one a) Hf) as [Hbf Hrf].
  assert (Hp : 0 < 2 ^ 1074) by (apply Z.pow_pos_nonneg; lia).
  assert (Hle : nearest 1074 (ulps y * ulps (sub one a)) <= ulps (sub one a) * 2 ^ 1074).
  { replace (ulps (sub one a) * 2 ^ 1074) with (nearest 1074 (ulps (sub one a) * 2 ^ 1074)).
    - apply nearest_mono; [ lia | ]. split; [ nia | ].
      rewrite Z.mul_comm. apply Z.mul_le_mono_nonneg_l; lia.
    - rewrite (nearest_scale 0 1074) by lia. now rewrite Hrf. }
  destruct (mul_ulps y (sub one a) Hy Hf) as [Hn Hu].
  - apply Z.le_lt_trans with (1 := Hle).
    rewrite (Z.pow_add_r 2 2098 1074) by lia.
    apply Z.mul_lt_mono_pos_r; lia.
  - split; [ exact Hn | split; [ exact Hu | ] ].
    rewrite <- Hu in Hle. apply Z.mul_le_mono_pos_r in Hle; lia.
Qed.

Lemma step_ulps (y : f64) :
  nonneg y = true -> ulps y <= 2 ^ 1074 ->
  nonneg (step a y) = true
  /\ ulps (step a y) = nearest 0 (ulps a + ulps (mul y (sub one a)))
  /\ ulps (step a y) <= 2 ^ 1074.
Proof.
  intros Hy Hy1. unfold step. rewrite (mul_one_l_value a a_nonneg).
  destruct (product_ulps y Hy Hy1) as (Hp & _ & Hpf).
  destruct (ulps_nonneg a a_nonneg) as [Ha _].
  destruct (ulps_nonneg _ Hp) as [Hbp _].
  pose proof fb_error as He.
  assert (Hsum : ulps a + ulps (mul y (sub one a)) <= 2 ^ 1074 + 2 ^ 1021).
  { change (2 ^ 1022) with (2 * 2 ^ 1021) in He. lia. }
  assert (Hle : nearest 0 (ulps a + ulps (mul y (sub one a))) <= 2 ^ 1074).
  { rewrite <- nearest_above_one. apply nearest_mono; lia. }
  destruct (add_ulps a (mul y (sub one a)) a_nonneg Hp) as [Hn Hu].
  - apply Z.le_lt_trans with (1 := Hle). apply Z.pow_lt_mono_r; lia.
  - split; [ exact Hn | split; [ exact Hu | now rewrite Hu ] ].
Qed.

Lemma step_mono (y y' : f64) :
  nonneg y = true -> nonneg y' = true ->
  ulps y <= ulps y' -> ulps y' <= 2 ^ 1074 ->
  ulps (step a y) <= ulps (step a y').
Proof.
  intros Hy Hy' Hle Hy1.
  destruct (product_ulps y Hy ltac:(lia)) as (Hp & Hu & _).
  destruct (product_ulps y' Hy' Hy1) as (Hp' & Hu' & _).
  destruct (step_ulps y Hy ltac:(lia)) as (_ & -> & _).
  destruct (step_ulps y' Hy' Hy1) as (_ & -> & _).
  destruct fb_nonneg as [Hf _].
  destruct (ulps_nonneg (sub one a) Hf) as [Hbf _].
  destruct (ulps_nonneg y Hy) as [Hby _].
  destruct (ulps_nonneg a a_nonneg) as [Ha _].
  destruct (ulps_nonneg _ Hp) as [Hbp _].
  assert (H2 : 0 < 2 ^ 1074) by (apply Z.pow_pos_nonneg; lia).
  assert (Hm : ulps (mul y (sub one a)) <= ulps (mul y' (sub one a))).
  { apply (Z.mul_le_mono_pos_r _ _ (2 ^ 1074)); trivial.
    rewrite Hu, Hu'. apply nearest_mono; [ lia | ]. split; [ nia | ].
    apply Z.mul_le_mono_nonneg_r; lia. }
  apply nearest_mono; lia.
Qed.

End Recurrence.

Lemma nearest_near_one_lo : nearest 0 (2 ^ 1074 - 2 ^ 1020) = 2 ^ 1074.
Proof. vm_compute. reflexivity. Qed.

Lemma nearest_near_one_hi : nearest 0 (2 ^ 1074 + 2 ^ 1020) = 2 ^ 1074.
Proof. vm_compute. reflexivity. Qed.

(** In doubles [a + (1 - a)] is 1 for every [a] from 0 to 1. *)
Lemma add_sub_one (a : f64) :
  nonneg a = true -> ulps a <= 2 ^ 1074 -> add a (sub one a) = one.
Proof.
  intros Ha Ha1.
  destruct (fb_nonneg a Ha Ha1) as [Hf HF].
  destruct (ulps_nonneg a Ha) as [Hba _].
  set (U := 2 ^ 1074) in *.
  assert (HU : 0 < U) by (subst U; apply Z.pow_pos_nonneg; lia).
  assert (Hsum : U - 2 ^ 1020 <= ulps a + ulps (sub one a) <= U + 2 ^ 1020).
  { destruct (Z.eq_dec (ulps a) 0) as [E0 | Hne0].
    - rewrite HF, E0, Z.sub_0_r. unfold U. rewrite nearest_one. lia.
    - destruct (Z.eq_dec (ulps a) U) as [EU | HneU].
      + rewrite HF, EU, Z.sub_diag, nearest_0 by lia. lia.
      + pose proof (nearest_error 0 (U - ulps a) ltac:(lia)) as He.
        rewrite <- HF in He.
        assert (Hlog : Z.log2 (U - ulps a) < 1074).
        { apply Z.log2_lt_pow2; [ lia | ]. fold U. lia. }
        assert (2 ^ Z.max (Z.log2 (U - ulps a) + 1 - 53) 0 <= 2 ^ 1021)
          by (apply Z.pow_le_mono_r; lia).
        change (2 ^ 1021) with (2 * 2 ^ 1020) in H. lia. }
  assert (Hn : nearest 0 (ulps a + ulps (sub one a)) = U).
  { apply Z.le_antisymm.
    - unfold U. rewrite <- nearest_near_one_hi. apply nearest_mono; lia.
    - unfold U. rewrite <- nearest_near_one_lo. fold U.
      apply nearest_mono; [ lia | ]. split; [ | lia ].
      subst U. vm_compute. discriminate. }
  destruct (add_ulps a (sub one a) Ha Hf) as [Hn' Hu].
  - rewrite Hn. subst U. apply Z.pow_lt_mono_r; lia.
  - apply ulps_inj; trivial. rewrite Hu, Hn. reflexivity.
Qed.


Lemma positive_at_most_one (a : f64) :
  valid a = true -> SFltb pos_zero a = true -> SFleb a one = true ->
  nonneg a = true /\ 0 < ulps a <= 2 ^ 1074
  /\ exists m e, a = S754_finite false m e.
Proof.
  intros Hv H0 H1.
  assert (Hn : nonneg a = true).
  { unfold nonneg. rewrite Hv.
    destruct a as [[]|[]| |[] m e]; try discriminate; reflexivity. }
  split; [ exact Hn | ].
  rewrite (SFleb_ulps a one Hn nonneg_one), ulps_one in H1.
  apply Z.leb_le in H1.
  destruct (nonneg_cases a Hn) as [-> | (m & e & -> & Hb)];
    [ discriminate | ].
  destruct (ulps_finite_bounds m e Hb) as [Hp _].
  split; [ cbn [ulps] in *; lia | eauto ].
Qed.

Section LowpassF64.
Variable a : f64.
Hypothesis a_nonneg : nonneg a = true.
Hypothesis a_le_1 : ulps a <= 2 ^ 1074.

Lemma Lowpass_feed_F64 (this : Lowpass.t f64) (y0 : f64) (n : nat) :
  Lowpass.inputScale this = a ->
  Lowpass.feedbackScale this = sub one a ->
  Lowpass.outputValueLast this = Some y0 ->
  nonneg y0 = true -> ulps y0 <= 2 ^ 1074 -> ulps y0 <= ulps (step a y0) ->
  let this' := Lowpass.feed this one n in
  Lowpass.inputScale this' = a
  /\ Lowpass.feedbackScale this' = sub one a
  /\ exists y, Lowpass.outputValueLast this' = Some y
               /\ nonneg y = true /\ ulps y <= 2 ^ 1074
               /\ ulps y <= ulps (step a y).
Proof.
  intros Ha Hb Hl Hy0 Hy1 Hym. induction n as [|n IH].
  - simpl. eauto 8.
  - destruct IH as (Ha' & Hb' & y & Hy & Hn & H1 & Hm).
    cbn [Lowpass.feed]. split; [ exact Ha' | split; [ exact Hb' | ] ].
    exists (step a y).
    destruct (step_ulps a a_nonneg a_le_1 y Hn H1) as (Hsn & _ & Hs1).
    split; [ | split; [ exact Hsn | split; [ exact Hs1 | ] ] ].
    + unfold Lowpass.process. cbn [snd Lowpass.outputValueLast].
      rewrite Hy, Ha', Hb'. reflexivity.
    + now apply step_mono.
Qed.

Lemma Lowpass_outputs_F64 (this : Lowpass.t f64) (n : nat) :
  Lowpass.inputScale this = a ->
  Lowpass.feedbackScale this = sub one a ->
  Lowpass.outputValueLast this = Some pos_zero ->
  SFleb (Lowpass.output this one n) (Lowpass.output this one (S n)) = true
  /\ SFleb (Lowpass.output this one n) one = true.
Proof.
  intros Ha Hb Hl.
  assert (H0 : ulps pos_zero <= ulps (step a pos_zero)).
  { destruct (step_ulps a a_nonneg a_le_1 pos_zero eq_refl) as (Hn & _).
    - change (ulps pos_zero) with 0. apply Z.pow_nonneg. lia.
    - destruct (ulps_nonneg _ Hn) as [H _]. exact (proj1 H). }
  destruct (Lowpass_feed_F64 this pos_zero n Ha Hb Hl eq_refl)
    as (Ha' & Hb' & y & Hy & Hn & H1 & Hm); trivial.
  { change (ulps pos_zero) with 0. apply Z.pow_nonneg. lia. }
  assert (Eo : Lowpass.output this one n = step a y).
  { unfold Lowpass.output, Lowpass.process. cbn [fst].
    rewrite Hy, Ha', Hb'. reflexivity. }
  assert (Eo' : Lowpass.output this one (S n) = step a (step a y)).
  { unfold Lowpass.output. cbn [Lowpass.feed].
    unfold Lowpass.process at 1. cbn [fst].
    unfold Lowpass.process. cbn [snd Lowpass.outputValueLast
      Lowpass.inputScale Lowpass.feedbackScale].
    rewrite Hy, Ha', Hb'. reflexivity. }
  destruct (step_ulps a a_nonneg a_le_1 y Hn H1) as (Hsn & _ & Hs1).
  destruct (step_ulps a a_nonneg a_le_1 _ Hsn Hs1) as (Hssn & _ & _).
  rewrite Eo, Eo'. split.
  - rewrite SFleb_ulps by trivial. apply Z.leb_le. now apply step_mono.
  - rewrite SFleb_ulps by (trivial; reflexivity). apply Z.leb_le.
    now rewrite ulps_one.
Qed.

End LowpassF64.

(** A last output of [-0] is as good as one of [+0]. *)
Lemma Lowpass_process_zero (this this0 : Lowpass.t f64) (y0 : f64) :
  Lowpass.sampleRate this0 = Lowpass.sampleRate this ->
  Lowpass.lowpassFrequency this0 = Lowpass.lowpassFrequency this ->
  Lowpass.inputScale this0 = Lowpass.inputScale this ->
  Lowpass.feedbackScale this0 = Lowpass.feedbackScale this ->
  Lowpass.outputValueLast this = Some y0 -> is_zero y0 = true ->
  Lowpass.outputValueLast this0 = Some pos_zero ->
  nonneg (Lowpass.feedbackScale this) = true ->
  (exists m e, Lowpass.inputScale this = S754_finite false m e) ->
  nonneg (Lowpass.inputScale this) = true ->
  Lowpass.process this one = Lowpass.process this0 one.
Proof.
  intros Hsr Hf Ha Hb Hl Hz Hl0 Hfb (m & e & Em) Hn.
  unfold Lowpass.process. rewrite Hl, Hl0, Hsr, Hf, Ha, Hb.
  assert (E : (one * Lowpass.inputScale this
               + y0 * Lowpass.feedbackScale this)%js
              = (one * Lowpass.inputScale this
                 + pos_zero * Lowpass.feedbackScale this)%js).
  { cbn [js_add js_mul number]. rewrite (mul_one_l_value _ Hn), Em.
    destruct y0 as [[]| | |]; try discriminate; trivial.
    destruct (nonneg_cases _ Hfb) as [-> | (m' & e' & -> & _)]; reflexivity. }
  now rewrite E.
Qed.

End RoundingTheory.

(** ** The sum of the coefficients in doubles *)

Section CoefficientSum.
Import F64 Rounding.
Variable hertzToNormalised : f64 -> f64 -> f64.

(** A double from 0 to 1 and its complement to 1 have sum 1. *)
Lemma unit_interval_sum_one (x : f64) :
  valid x = true -> in_unit_interval x = true -> add x (sub one x) = one.
Proof.
  intros Hv Hu. unfold in_unit_interval in Hu.
  apply andb_prop in Hu. destruct Hu as [H0 H1].
  change (SFleb pos_zero x = true) in H0.
  change (SFleb x one = true) in H1.
  destruct x as [[]|[]| |[] m e]; try discriminate; try reflexivity.
  assert (Hn : nonneg (S754_finite false m e) = true).
  { unfold nonneg. now rewrite Hv. }
  apply add_sub_one; trivial.
  rewrite (SFleb_ulps _ one Hn nonneg_one), ulps_one in H1.
  now apply Z.leb_le.
Qed.

Lemma clamp_valid (x : f64) :
  valid x = true -> is_nan x = false ->
  valid (max pos_zero (min one x)) = true.
Proof.
  intros Hv Hx.
  assert (Hm : is_nan (min one x) = false).
  { destruct (min_cases one x eq_refl Hx) as [-> | ->]; trivial. }
  destruct (max_cases pos_zero (min one x) eq_refl Hm) as [-> | ->];
    [ reflexivity | ].
  destruct (min_cases one x eq_refl Hx) as [-> | ->]; [ reflexivity | exact Hv ].
Qed.

Lemma clamp_sum_one (x : f64) :
  valid x = true -> is_nan x = false ->
  let a := max pos_zero (min one x) in
  add a (sub one a) = one.
Proof.
  intros Hv Hx a. apply unit_interval_sum_one.
  - now apply clamp_valid.
  - now apply clamp_in_unit_interval.
Qed.

Lemma init_coefficients_sum_F64 :
  (forall this : Lowpass.t f64,
      let this' := Lowpass.init hertzToNormalised this in
      let v := hertzToNormalised (Lowpass.lowpassFrequency this)
                 (Lowpass.sampleRate this) in
      valid v = true -> is_nan v = false ->
      (Lowpass.inputScale this' + Lowpass.feedbackScale this')%js = num_1)
  /\ (forall this : Hysteresis.t f64,
      let this' := Hysteresis.init hertzToNormalised this in
      let vUp := hertzToNormalised (Hysteresis.lowpassFrequencyUp this)
                   (Hysteresis.sampleRate this) in
      let vDown := hertzToNormalised (Hysteresis.lowpassFrequencyDown this)
                     (Hysteresis.sampleRate this) in
      (valid vUp = true -> is_nan vUp = false ->
       (Hysteresis.inputScale (Hysteresis.up this')
        + Hysteresis.feedbackScale (Hysteresis.up this'))%js = num_1)
      /\ (valid vDown = true -> is_nan vDown = false ->
          (Hysteresis.inputScale (Hysteresis.down this')
           + Hysteresis.feedbackScale (Hysteresis.down this'))%js = num_1)).
Proof.
  split; [ | split ]; intros; now apply clamp_sum_one.
Qed.

End CoefficientSum.

(** C7, amended.  After the constructor and after [set], whatever the
    attributes, each pair has [feedbackScale = 1 - inputScale], and
    [0 <= inputScale <= 1] provided [hertzToNormalised] did not return NaN
    for the cutoff of that pair (an infinite value is clamped).  Under the
    same proviso the two coefficients [init] derives, at the end of the
    constructor and of [set], have sum 1 in doubles, the rounding of
    [1 - inputScale] notwithstanding.  In exact arithmetic, where there is
    no NaN, [init] always leaves [inputScale] in [0, 1] and the two
    coefficients of a pair with sum 1. *)
Theorem coefficients_after_init :
  (forall h : F64.f64 -> F64.f64 -> F64.f64,
      (forall sampleRate lowpassFrequency : F64.f64,
          let this := Lowpass.new h sampleRate lowpassFrequency in
          Lowpass.feedbackScale this = (num_1 - Lowpass.inputScale this)%js
          /\ (F64.is_nan (h lowpassFrequency sampleRate) = false ->
              in_unit_interval (Lowpass.inputScale this) = true))
      /\ (forall (this : Lowpass.t F64.f64)
            (attributes : list (Lowpass.attribute F64.f64)),
          let this' := Lowpass.set h this attributes in
          Lowpass.feedbackScale this' = (num_1 - Lowpass.inputScale this')%js
          /\ (F64.is_nan (h (Lowpass.lowpassFrequency this')
                            (Lowpass.sampleRate this')) = false ->
              in_unit_interval (Lowpass.inputScale this') = true))
      /\ (forall sampleRate lowpassFrequencyUp lowpassFrequencyDown : F64.f64,
          let this :=
            Hysteresis.new h sampleRate lowpassFrequencyUp
              lowpassFrequencyDown in
          Hysteresis.feedbackScale (Hysteresis.up this)
          = (num_1 - Hysteresis.inputScale (Hysteresis.up this))%js
          /\ Hysteresis.feedbackScale (Hysteresis.down this)
             = (num_1 - Hysteresis.inputScale (Hysteresis.down this))%js
          /\ (F64.is_nan (h lowpassFrequencyUp sampleRate) = false ->
              in_unit_interval (Hysteresis.inputScale (Hysteresis.up this))
              = true)
          /\ (F64.is_nan (h lowpassFrequencyDown sampleRate) = false ->
              in_unit_interval (Hysteresis.inputScale (Hysteresis.down this))
              = true))
      /\ (forall (this : Hysteresis.t F64.f64)
            (attributes : list (Hysteresis.attribute F64.f64)),
          let this' := Hysteresis.set h this attributes in
          Hysteresis.feedbackScale (Hysteresis.up this')
          = (num_1 - Hysteresis.inputScale (Hysteresis.up this'))%js
          /\ Hysteresis.feedbackScale (Hysteresis.down this')
             = (num_1 - Hysteresis.inputScale (Hysteresis.down this'))%js
          /\ (F64.is_nan (h (Hysteresis.lowpassFrequencyUp this')
                            (Hysteresis.sampleRate this')) = false ->
              in_unit_interval (Hysteresis.inputScale (Hysteresis.up this'))
              = true)
          /\ (F64.is_nan (h (Hysteresis.lowpassFrequencyDown this')
                            (Hysteresis.sampleRate this')) = false ->
              in_unit_interval
                (Hysteresis.inputScale (Hysteresis.down this'))
              = true)))
  /\ (forall h : F64.f64 -> F64.f64 -> F64.f64,
      (forall this : Lowpass.t F64.f64,
          let this' := Lowpass.init h this in
          let v := h (Lowpass.lowpassFrequency this)
                     (Lowpass.sampleRate this) in
          F64.valid v = true -> F64.is_nan v = false ->
          (Lowpass.inputScale this' + Lowpass.feedbackScale this')%js
          = num_1)
      /\ (forall this : Hysteresis.t F64.f64,
          let this' := Hysteresis.init h this in
          let vUp := h (Hysteresis.lowpassFrequencyUp this)
                       (Hysteresis.sampleRate this) in
          let vDown := h (Hysteresis.lowpassFrequencyDown this)
                         (Hysteresis.sampleRate this) in
          (F64.valid vUp = true -> F64.is_nan vUp = false ->
           (Hysteresis.inputScale (Hysteresis.up this')
            + Hysteresis.feedbackScale (Hysteresis.up this'))%js = num_1)
          /\ (F64.valid vDown = true -> F64.is_nan vDown = false ->
              (Hysteresis.inputScale (Hysteresis.down this')
               + Hysteresis.feedbackScale (Hysteresis.down this'))%js
              = num_1)))
  /\ (forall h : R -> R -> R,
      (forall this : Lowpass.t R,
          let this' := Lowpass.init h this in
          (0 <= Lowpass.inputScale this' <= 1)%R
          /\ (Lowpass.inputScale this' + Lowpass.feedbackScale this' = 1)%R)
      /\ (forall this : Hysteresis.t R,
          let this' := Hysteresis.init h this in
          ((0 <= Hysteresis.inputScale (Hysteresis.up this') <= 1)%R
           /\ (Hysteresis.inputScale (Hysteresis.up this')
               + Hysteresis.feedbackScale (Hysteresis.up this') = 1)%R)
          /\ ((0 <= Hysteresis.inputScale (Hysteresis.down this') <= 1)%R
              /\ (Hysteresis.inputScale (Hysteresis.down this')
                  + Hysteresis.feedbackScale (Hysteresis.down this')
                  = 1)%R))).
Proof.
  split; [ | split ].
  - exact init_coefficients_F64.
  - exact init_coefficients_sum_F64.
  - exact init_coefficients_exact.
Qed.

Lemma coefficients_after_init_witness :
  in_unit_interval (Lowpass.inputScale Examples.lowpass_09) = true
  /\ in_unit_interval
       (Hysteresis.inputScale (Hysteresis.down Examples.hysteresis_09_01))
     = true
  /\ (Lowpass.inputScale Examples.lowpass_03
      + Lowpass.feedbackScale Examples.lowpass_03)%js = num_1.
Proof.
  destruct coefficients_after_init as (HF & HS & _).
  destruct (HF (@hertzToNormalised _ F64.number)) as (HL & _ & HH & _).
  destruct (HS (@hertzToNormalised _ F64.number)) as (HSL & _).
  split; [ | split ].
  - destruct (HL F64.two (F64.of_ratio 9 10)) as [_ H].
    apply H. vm_compute. reflexivity.
  - destruct (HH F64.two (F64.of_ratio 9 10) (F64.of_ratio 1 10))
      as (_ & _ & _ & H).
    apply H. vm_compute. reflexivity.
  - apply (HSL Examples.lowpass_03); vm_compute; reflexivity.
Defined.

(** C7 as stated fails when the conversion returns NaN, as the division
    [2 * 0 / 0] does for a sample rate and a cutoff of 0: NaN is not clamped,
    [inputScale] is NaN and neither [0 <= inputScale] nor [inputScale <= 1]
    holds. *)
Lemma coefficients_NaN :
  F64.is_nan (hertzToNormalised F64.pos_zero F64.pos_zero) = true
  /\ Lowpass.inputScale Examples.lowpass_0_0 = F64.NaN
  /\ in_unit_interval (Lowpass.inputScale Examples.lowpass_0_0) = false
  /\ (num_0 <= Lowpass.inputScale Examples.lowpass_0_0)%js = false
  /\ (Lowpass.inputScale Examples.lowpass_0_0 <= num_1)%js = false.
Proof. vm_compute. repeat split. Qed.

(** ** The step response in doubles *)

Section Stall.
Import F64.
Local Open Scope js_scope.

Lemma on_grid_valid (y : f64) : Examples.on_grid y -> valid y = true.
Proof.
  intros (m & j & -> & Hm & Hj & _).
  unfold valid, valid_binary, bounded, canonical_mantissa.
  rewrite (digits2_pos_unique m 53) by (simpl (53 - 1)%Z; lia).
  apply andb_true_intro. split.
  - apply Z.eqb_eq. unfold fexp, emin, prec, emax. lia.
  - apply Z.leb_le. unfold prec, emax. lia.
Qed.

Lemma on_grid_below_half (y : f64) :
  Examples.on_grid y -> SFleb y Examples.half = true.
Proof.
  intros (m & j & -> & Hm & Hj & _).
  assert (E : (j - 106 ?= -53)%Z = Lt) by (apply Z.compare_lt_iff; lia).
  unfold SFleb, SFcompare, Examples.half. now rewrite E.
Qed.

Lemma two_pow_m54_on_grid : Examples.on_grid Examples.two_pow_m54.
Proof.
  exists 4503599627370496%positive, 0%Z.
  split; [ reflexivity | ].
  split; [ split; [ apply Z.leb_le | apply Z.ltb_lt ]; reflexivity | ].
  split; [ lia | ].
  exists 1%Z. reflexivity.
Qed.

(** One more [process(1)]: [1 * 2^-54 + y * 1]. *)
Lemma step_on_grid (y : f64) :
  Examples.on_grid_or_end y ->
  Examples.on_grid_or_end (one * Examples.two_pow_m54 + y * one).
Proof.
  change (one * Examples.two_pow_m54) with Examples.two_pow_m54.
  intros [-> | [Hy | ->]].
  - right. left. exact two_pow_m54_on_grid.
  - simpl. rewrite mul_one_r.
    + destruct (add_tiny_on_grid y Hy) as [H | H].
      * right. left. exact H.
      * right. right. exact H.
    + now apply on_grid_valid.
    + destruct Hy as (m & j & -> & _). reflexivity.
  - right. right. vm_compute. reflexivity.
Qed.

Lemma on_grid_or_end_below_half (y : f64) :
  Examples.on_grid_or_end y -> (y <= Examples.half) = true.
Proof.
  intros [-> | [Hy | ->]]; try reflexivity. now apply on_grid_below_half.
Qed.

Lemma Lowpass_feed_tiny (this : Lowpass.t f64) (n : nat) :
  Lowpass.inputScale this = Examples.two_pow_m54 ->
  Lowpass.feedbackScale this = one ->
  (exists y, Lowpass.outputValueLast this = Some y
             /\ Examples.on_grid_or_end y) ->
  let this' := Lowpass.feed this one n in
  Lowpass.inputScale this' = Examples.two_pow_m54
  /\ Lowpass.feedbackScale this' = one
  /\ exists y, Lowpass.outputValueLast this' = Some y
               /\ Examples.on_grid_or_end y.
Proof.
  intros Ha Hb Hl. induction n as [|n IH]; simpl.
  - auto.
  - destruct IH as (Ha' & Hb' & y & Hy & Hg). repeat split; trivial.
    rewrite Hy, Ha', Hb'. eexists. split; [ reflexivity | ].
    now apply step_on_grid.
Qed.

(** C4 as stated fails in doubles.  With a cutoff of [2 ** -54] at sample
    rate 2, [inputScale] is [2 ** -54], in (0, 1], and [feedbackScale],
    [1 - 2 ** -54], rounds to 1.  From an [outputValueLast] of 0 every
    [process(1)] returns [2 ** -54 + outputValueLast]: the outputs climb by
    [2 ** -54] up to one half, where the sum rounds back to one half.  No
    output exceeds one half: the outputs do not converge toward 1. *)
Lemma Lowpass_tiny_stalls :
  let this := Examples.lowpass_tiny_zero in
  Lowpass.reachable hertzToNormalised this
  /\ Lowpass.outputValueLast this = Some pos_zero
  /\ (pos_zero < Lowpass.inputScale this) = true
  /\ (Lowpass.inputScale this <= one) = true
  /\ forall n : nat, (Lowpass.output this one n <= Examples.half) = true.
Proof.
  intros this.
  split; [ apply Lowpass.reachable_process, Lowpass.reachable_new | ].
  split; [ vm_compute; reflexivity | ].
  split; [ vm_compute; reflexivity | ].
  split; [ vm_compute; reflexivity | ].
  intros n.
  destruct (Lowpass_feed_tiny this n) as (Ha & Hb & y & Hy & Hg).
  - vm_compute. reflexivity.
  - vm_compute. reflexivity.
  - exists pos_zero. split; [ vm_compute; reflexivity | now left ].
  - apply on_grid_or_end_below_half.
    unfold Lowpass.output, Lowpass.process. rewrite Hy, Ha, Hb.
    now apply step_on_grid.
Qed.
End Stall.

Section StepResponse.
Local Open Scope R_scope.
Variable hertzToNormalised : R -> R -> R.

(** The state after [n] calls [process(1)] from a last output of 0. *)
Lemma Lowpass_feed_one (this : Lowpass.t R) (n : nat) :
  Lowpass.feedbackScale this = 1 - Lowpass.inputScale this ->
  Lowpass.outputValueLast this = Some 0 ->
  let this' := Lowpass.feed this 1 n in
  Lowpass.inputScale this' = Lowpass.inputScale this
  /\ Lowpass.feedbackScale this' = Lowpass.feedbackScale this
  /\ Lowpass.outputValueLast this'
     = Some (1 - (1 - Lowpass.inputScale this) ^ n).
Proof.
  intros Hb H0. induction n as [|n IH]; simpl.
  - rewrite H0. repeat split. f_equal. lra.
  - destruct IH as (Ha' & Hb' & Hl'). repeat split; trivial.
    rewrite Hl', Ha', Hb', Hb. f_equal. ring.
Qed.

Lemma Lowpass_output_one (this : Lowpass.t R) (n : nat) :
  Lowpass.feedbackScale this = 1 - Lowpass.inputScale this ->
  Lowpass.outputValueLast this = Some 0 ->
  Lowpass.output this 1 n = 1 - (1 - Lowpass.inputScale this) ^ S n.
Proof.
  intros Hb H0. unfold Lowpass.output.
  destruct (Lowpass_feed_one this n Hb H0) as (Ha' & Hb' & Hl').
  unfold Lowpass.process. rewrite Hl', Ha', Hb', Hb. simpl. ring.
Qed.

(** In exact arithmetic the output of call [n + 1] is
    [1 - (1 - inputScale) ^ (n + 1)]. *)
Lemma Lowpass_outputs_exact (this : Lowpass.t R) :
  Lowpass.reachable hertzToNormalised this ->
  Lowpass.outputValueLast this = Some 0 ->
  0 < Lowpass.inputScale this <= 1 ->
  (forall n : nat, Lowpass.output this 1 n <= Lowpass.output this 1 (S n))
  /\ (forall n : nat, Lowpass.output this 1 n <= 1)
  /\ (forall eps : R, 0 < eps ->
      exists n0 : nat, forall n : nat, (n0 <= n)%nat ->
      Rabs (Lowpass.output this 1 n - 1) < eps)
  /\ (forall n : nat,
      Lowpass.output this 1 n = 1 - (1 - Lowpass.inputScale this) ^ S n).
Proof.
  intros Hreach H0 Ha.
  destruct (Lowpass_reachable_coefficients _ _ Hreach) as [_ Hb].
  pose proof (fun n => Lowpass_output_one this n Hb H0) as Hout.
  set (q := 1 - Lowpass.inputScale this) in *.
  assert (Hq : 0 <= q < 1) by (subst q; lra).
  assert (Hpow : forall n, 0 <= q ^ n) by (intros n; apply pow_le; lra).
  repeat split.
  - intros n. rewrite !Hout.
    assert (q ^ S (S n) <= q ^ S n).
    { change (q ^ S (S n)) with (q * q ^ S n). specialize (Hpow (S n)). nra. }
    lra.
  - intros n. rewrite Hout. specialize (Hpow (S n)). lra.
  - intros eps Heps.
    destruct (pow_lt_1_zero q) with (y := eps) as [n0 Hn0]; trivial.
    { rewrite Rabs_pos_eq; lra. }
    exists n0. intros n Hn. rewrite Hout.
    replace (1 - q ^ S n - 1) with (- q ^ S n) by ring.
    rewrite Rabs_Ropp. apply Hn0. lia.
  - exact Hout.
Qed.
End StepResponse.

Section StepResponseF64.
Import F64 Rounding.
Variable hertzToNormalised : f64 -> f64 -> f64.

(** In doubles, from a last output of [+0] or [-0] and with an [inputScale]
    in (0, 1], no output of [process(1)] is below the one before it and none
    is above 1. *)
Lemma Lowpass_outputs_monotone_F64 (this : Lowpass.t f64) (y0 : f64) :
  Lowpass.reachable hertzToNormalised this ->
  Lowpass.outputValueLast this = Some y0 -> is_zero y0 = true ->
  valid (Lowpass.inputScale this) = true ->
  SFltb pos_zero (Lowpass.inputScale this) = true ->
  SFleb (Lowpass.inputScale this) one = true ->
  forall n : nat,
    SFleb (Lowpass.output this one n) (Lowpass.output this one (S n)) = true
    /\ SFleb (Lowpass.output this one n) one = true.
Proof.
  intros Hreach Hl Hz Hv H0 H1.
  destruct (Lowpass_reachable_coefficients _ _ Hreach) as [_ Hb].
  change (Lowpass.feedbackScale this = sub one (Lowpass.inputScale this))
    in Hb.
  destruct (positive_at_most_one _ Hv H0 H1) as (Hn & [_ Hu] & Hfin).
  destruct (fb_nonneg _ Hn Hu) as [Hfb _].
  set (this0 := Lowpass.assign this (Lowpass.set_outputValueLast (Some pos_zero))).
  assert (Hp : Lowpass.process this one = Lowpass.process this0 one).
  { apply (Lowpass_process_zero this this0 y0); trivial.
    now rewrite Hb. }
  assert (Hfeed : forall n,
    Lowpass.feed this one (S n) = Lowpass.feed this0 one (S n)).
  { induction n as [|n IH].
    - cbn [Lowpass.feed]. now rewrite Hp.
    - change (snd (Lowpass.process (Lowpass.feed this one (S n)) one)
              = snd (Lowpass.process (Lowpass.feed this0 one (S n)) one)).
      now rewrite IH. }
  assert (Hout : forall n,
    Lowpass.output this one n = Lowpass.output this0 one n).
  { intros [|n]; unfold Lowpass.output.
    - cbn [Lowpass.feed]. now rewrite Hp.
    - now rewrite Hfeed. }
  intros n. rewrite !Hout.
  apply (Lowpass_outputs_F64 (Lowpass.inputScale this) Hn Hu this0 n);
    trivial.
Qed.

End StepResponseF64.

(** C4, amended.  For a Lowpass whose [inputScale] is in (0, 1] and whose
    [outputValueLast] is 0, the outputs of repeated [process(1)] are
    non-decreasing and never exceed 1, in doubles (where the last output
    may be [+0] or [-0], and [inputScale] is a double the machine holds)
    and in exact arithmetic; in exact arithmetic they converge to 1, the
    output of call [n + 1] being [1 - (1 - inputScale) ^ (n + 1)]. *)
Theorem Lowpass_step_response :
  (forall (h : F64.f64 -> F64.f64 -> F64.f64) (this : Lowpass.t F64.f64)
      (y0 : F64.f64),
      Lowpass.reachable h this ->
      Lowpass.outputValueLast this = Some y0 -> F64.is_zero y0 = true ->
      F64.valid (Lowpass.inputScale this) = true ->
      (num_0 < Lowpass.inputScale this)%js = true ->
      (Lowpass.inputScale this <= num_1)%js = true ->
      forall n : nat,
        (Lowpass.output this num_1 n <= Lowpass.output this num_1 (S n))%js
        = true
        /\ (Lowpass.output this num_1 n <= num_1)%js = true)
  /\ (forall (h : R -> R -> R) (this : Lowpass.t R),
      Lowpass.reachable h this ->
      Lowpass.outputValueLast this = Some 0 ->
      0 < Lowpass.inputScale this <= 1 ->
      (forall n : nat, Lowpass.output this 1 n <= Lowpass.output this 1 (S n))
      /\ (forall n : nat, Lowpass.output this 1 n <= 1)
      /\ (forall eps : R, 0 < eps ->
          exists n0 : nat, forall n : nat, (n0 <= n)%nat ->
          Rabs (Lowpass.output this 1 n - 1) < eps)
      /\ (forall n : nat,
          Lowpass.output this 1 n
          = 1 - (1 - Lowpass.inputScale this) ^ S n))%R.
Proof.
  split.
  - intros h this y0. apply Lowpass_outputs_monotone_F64.
  - intros h this. apply Lowpass_outputs_exact.
Qed.

Lemma Lowpass_step_response_witness :
  ((Lowpass.output Examples.lowpass_tiny_zero num_1 60
    <= Lowpass.output Examples.lowpass_tiny_zero num_1 61)%js = true
   /\ (Lowpass.output Examples.lowpass_tiny_zero num_1 60 <= num_1)%js = true)
  /\ (Lowpass.output Examples.lowpass_quarter_zero 1 0
      <= Lowpass.output Examples.lowpass_quarter_zero 1 1)%R
  /\ (Lowpass.output Examples.lowpass_quarter_zero 1 3 <= 1)%R.
Proof.
  destruct Lowpass_step_response as [HF HR]. split.
  - apply (HF hertzToNormalised Examples.lowpass_tiny_zero F64.pos_zero).
    + apply Lowpass.reachable_process, Lowpass.reachable_new.
    + vm_compute. reflexivity.
    + reflexivity.
    + vm_compute. reflexivity.
    + vm_compute. reflexivity.
    + vm_compute. reflexivity.
  - assert (Hc : Lowpass.inputScale Examples.lowpass_quarter_zero
                 = (1 / 4)%R).
    { simpl. unfold hertzToNormalised, Rmin, Rmax. simpl.
      destruct (Rle_dec 1 (2 * (1 / 4) / 2)); try lra.
      destruct (Rle_dec 0 (2 * (1 / 4) / 2)); lra. }
    destruct (HR hertzToNormalised Examples.lowpass_quarter_zero)
      as (Hmono & Hle & _).
    + apply Lowpass.reachable_process, Lowpass.reachable_new.
    + simpl. f_equal. ring.
    + rewrite Hc. lra.
    + split; [ apply Hmono | apply Hle ].
Defined.

(** * Further properties *)

(** ** More on the order of doubles *)

Section OrderFacts.
Import F64.

Lemma SFleb_trans (x y z : f64) :
  SFleb x y = true -> SFleb y z = true -> SFleb x z = true.
Proof.
  intros Hxy Hyz.
  destruct (SFleb_not_nan _ _ Hxy) as [Hx Hy].
  destruct (SFleb_not_nan _ _ Hyz) as [_ Hz].
  destruct (SFltb z x) eqn:E.
  - unfold SFleb in Hxy, Hyz. unfold SFltb in E.
    destruct (SFcompare x y) as [[]|] eqn:Exy; try discriminate.
    + rewrite <- (SFcompare_Eq_compat_l _ _ z Exy) in Hyz.
      rewrite (SFcompare_antisym z x) in Hyz.
      destruct (SFcompare z x) as [[]|]; discriminate.
    + destruct (SFcompare y z) as [[]|] eqn:Eyz; try discriminate.
      * rewrite (SFcompare_Eq_compat_r _ _ x Eyz) in Exy.
        rewrite (SFcompare_antisym z x) in Exy.
        destruct (SFcompare z x) as [[]|]; discriminate.
      * assert (Hxz : SFltb x z = true).
        { apply SFltb_trans with y; unfold SFltb;
            [ now rewrite Exy | now rewrite Eyz ]. }
        unfold SFltb in Hxz. rewrite (SFcompare_antisym z x) in Hxz.
        destruct (SFcompare z x) as [[]|]; discriminate.
  - now apply SFltb_false_SFleb.
Qed.

Lemma max_same (a : f64) : max a a = a.
Proof.
  unfold max. rewrite SFltb_irrefl.
  destruct a as [[]|[]| |[] m e]; reflexivity.
Qed.

Lemma min_same (a : f64) : min a a = a.
Proof.
  unfold min. rewrite SFltb_irrefl.
  destruct a as [[]|[]| |[] m e]; reflexivity.
Qed.

Lemma max_nan_r (a : f64) : max a NaN = NaN.
Proof. unfold max. now rewrite orb_true_r. Qed.

Lemma min_nan_r (a : f64) : min a NaN = NaN.
Proof. unfold min. now rewrite orb_true_r. Qed.

Lemma max_is_nan (a b : f64) :
  is_nan (max a b) = is_nan a || is_nan b.
Proof.
  destruct (is_nan a) eqn:Ha, (is_nan b) eqn:Hb; simpl;
    try (unfold max; rewrite Ha, Hb; reflexivity).
  destruct (max_cases a b Ha Hb) as [-> | ->]; trivial.
Qed.

Lemma min_is_nan (a b : f64) :
  is_nan (min a b) = is_nan a || is_nan b.
Proof.
  destruct (is_nan a) eqn:Ha, (is_nan b) eqn:Hb; simpl;
    try (unfold min; rewrite Ha, Hb; reflexivity).
  destruct (min_cases a b Ha Hb) as [-> | ->]; trivial.
Qed.

Lemma is_nan_true (a : f64) : is_nan a = true -> a = NaN.
Proof. destruct a; try discriminate. reflexivity. Qed.

(** [Math.max(a, Math.max(a, b))] is [Math.max(a, b)]. *)
Lemma max_max_l (a b : f64) : max a (max a b) = max a b.
Proof.
  destruct (is_nan (max a b)) eqn:E.
  - rewrite (is_nan_true _ E). apply max_nan_r.
  - rewrite max_is_nan in E. apply orb_false_elim in E. destruct E as [Ha Hb].
    destruct (max_cases a b Ha Hb) as [E | E]; rewrite E.
    + apply max_same.
    + exact E.
Qed.

Lemma min_min_l (a b : f64) : min a (min a b) = min a b.
Proof.
  destruct (is_nan (min a b)) eqn:E.
  - rewrite (is_nan_true _ E). apply min_nan_r.
  - rewrite min_is_nan in E. apply orb_false_elim in E. destruct E as [Ha Hb].
    destruct (min_cases a b Ha Hb) as [E | E]; rewrite E.
    + apply min_same.
    + exact E.
Qed.

(** [Math.min(b, Math.max(a, b))] is [b]. *)
Lemma min_max_absorb (a b : f64) :
  is_nan a = false -> is_nan b = false -> min b (max a b) = b.
Proof.
  intros Ha Hb. unfold max. rewrite Ha, Hb. cbn [orb].
  destruct (SFltb a b) eqn:E.
  - assert (G : (match a, b with
                 | S754_zero true, S754_zero false => b
                 | _, _ => b
                 end) = b)
      by (destruct a as [[]| | |], b as [[]| | |]; reflexivity).
    replace (match a, b with
             | S754_zero true, S754_zero false => b
             | _, _ => b
             end) with b by (symmetry; exact G).
    apply min_same.
  - destruct a as [[]|[]| |[] m e], b as [[]|[]| |[] m' e'];
      try discriminate; try reflexivity;
      unfold min; cbn [is_nan orb]; rewrite ?E; try reflexivity.
Qed.

Lemma le_max_r (a b : f64) :
  is_nan a = false -> is_nan b = false -> SFleb b (max a b) = true.
Proof.
  intros Ha Hb. unfold max. rewrite Ha, Hb. simpl.
  assert (G : SFleb b (if SFltb a b then b else a) = true).
  { destruct (SFltb a b) eqn:E.
    - now apply SFleb_refl.
    - now apply SFltb_false_SFleb. }
  destruct a as [[]| | |], b as [[]| | |]; auto.
Qed.

Lemma min_le_r (a b : f64) :
  is_nan a = false -> is_nan b = false -> SFleb (min a b) b = true.
Proof.
  intros Ha Hb. unfold min. rewrite Ha, Hb. simpl.
  assert (G : SFleb (if SFltb b a then b else a) b = true).
  { destruct (SFltb b a) eqn:E.
    - now apply SFleb_refl.
    - now apply SFltb_false_SFleb. }
  destruct a as [[]| | |], b as [[]| | |]; auto.
Qed.

(** [Math.max] and [Math.min] are non-decreasing in their second
    argument. *)
Lemma max_mono_r (a x y : f64) :
  is_nan a = false -> SFleb x y = true ->
  SFleb (max a x) (max a y) = true.
Proof.
  intros Ha Hxy. destruct (SFleb_not_nan _ _ Hxy) as [Hx Hy].
  destruct (max_cases a x Ha Hx) as [-> | ->].
  - now apply le_max_l.
  - apply SFleb_trans with y; trivial. now apply le_max_r.
Qed.

Lemma min_mono_r (a x y : f64) :
  is_nan a = false -> SFleb x y = true ->
  SFleb (min a x) (min a y) = true.
Proof.
  intros Ha Hxy. destruct (SFleb_not_nan _ _ Hxy) as [Hx Hy].
  destruct (min_cases a y Ha Hy) as [-> | ->].
  - now apply min_le_l.
  - apply SFleb_trans with x; trivial. now apply min_le_r.
Qed.

End OrderFacts.

(** ** Clipper: the defaults, twice, and the order *)

Section ClipperMore.
Import F64.
Local Open Scope js_scope.

(** X1.  A Clipper built without options returns every input as it is:
    the infinities, both zeros and NaN included.  With [min] alone it
    is [Math.max(min, x)], with [max] alone [Math.min(max, x)]. *)
Theorem Clipper_defaults (x : f64) :
  Clipper.process (Clipper.constructor None None) x = x
  /\ (forall min : f64,
        Clipper.process (Clipper.constructor (Some min) None) x
        = Math_max min x)
  /\ (forall max : f64,
        Clipper.process (Clipper.constructor None (Some max)) x
        = Math_min max x).
Proof.
  split; [ | split ].
  - destruct x as [[]|[]| |[] m e]; reflexivity.
  - intros lo. unfold Clipper.process. cbn.
    destruct (is_nan (max lo x)) eqn:E.
    + now rewrite (is_nan_true _ E).
    + unfold min. rewrite E. cbn [is_nan orb].
      destruct (max lo x) as [[]|[]| |[] m e]; try discriminate; reflexivity.
  - intros hi. unfold Clipper.process. cbn.
    destruct x as [[]|[]| |[] m e]; reflexivity.
Qed.

(** X2.  Clipping twice is clipping once, whatever the bounds and the
    input: [process(process(x))] is [process(x)]. *)
Theorem Clipper_process_twice (c : Clipper.t f64) (x : f64) :
  Clipper.process c (Clipper.process c x) = Clipper.process c x.
Proof.
  unfold Clipper.process. cbn [Math_min Math_max number].
  set (lo := Clipper.min c). set (hi := Clipper.max c).
  destruct (is_nan (min hi (max lo x))) eqn:E.
  - rewrite (is_nan_true _ E). now rewrite max_nan_r, min_nan_r.
  - rewrite min_is_nan, max_is_nan in E.
    apply orb_false_elim in E. destruct E as [Hhi E].
    apply orb_false_elim in E. destruct E as [Hlo Hx].
    assert (Hm : is_nan (max lo x) = false)
      by (rewrite max_is_nan, Hlo, Hx; reflexivity).
    destruct (min_cases hi (max lo x) Hhi Hm) as [E | E].
    + rewrite E. apply min_max_absorb; trivial.
    + rewrite E at 1. rewrite max_max_l. reflexivity.
Qed.

(** X3.  A Clipper keeps the order of its inputs: when neither bound is
    NaN and [x <= y], [process(x) <= process(y)]. *)
Theorem Clipper_process_monotone (c : Clipper.t f64) (x y : f64) :
  is_nan (Clipper.min c) = false -> is_nan (Clipper.max c) = false ->
  (x <= y) = true ->
  (Clipper.process c x <= Clipper.process c y) = true.
Proof.
  intros Hlo Hhi Hxy. unfold Clipper.process.
  cbn [Math_min Math_max js_le number].
  apply min_mono_r; trivial. apply max_mono_r; trivial.
Qed.

End ClipperMore.

Lemma Clipper_process_monotone_witness :
  (Clipper.process Examples.clipper_unit (F64.of_ratio 1 2)
   <= Clipper.process Examples.clipper_unit F64.two)%js = true.
Proof.
  apply Clipper_process_monotone; vm_compute; reflexivity.
Defined.

(** ** [set] after [set] *)

Section SetComposition.
Context {num : Type} {N : JSNumber num}.
Variable hertzToNormalised : num -> num -> num.
Local Open Scope js_scope.

(** [init] reads the options and [outputValueLast] only. *)
Lemma Lowpass_init_reads (this this' : Lowpass.t num) :
  Lowpass.sampleRate this = Lowpass.sampleRate this' ->
  Lowpass.lowpassFrequency this = Lowpass.lowpassFrequency this' ->
  Lowpass.outputValueLast this = Lowpass.outputValueLast this' ->
  Lowpass.init hertzToNormalised this = Lowpass.init hertzToNormalised this'.
Proof. intros H1 H2 H3. unfold Lowpass.init. now rewrite H1, H2, H3. Qed.

(** What [init] has written is overwritten by the next [init], whatever was
    assigned in between. *)
Lemma Lowpass_assign_reads (attributes : list (Lowpass.attribute num))
  (this this' : Lowpass.t num) :
  Lowpass.sampleRate this = Lowpass.sampleRate this' ->
  Lowpass.lowpassFrequency this = Lowpass.lowpassFrequency this' ->
  Lowpass.outputValueLast this = Lowpass.outputValueLast this' ->
  let r := fold_left Lowpass.assign attributes this in
  let r' := fold_left Lowpass.assign attributes this' in
  Lowpass.sampleRate r = Lowpass.sampleRate r'
  /\ Lowpass.lowpassFrequency r = Lowpass.lowpassFrequency r'
  /\ Lowpass.outputValueLast r = Lowpass.outputValueLast r'.
Proof.
  revert this this'. induction attributes as [|a rest IH]; intros this this'.
  - simpl. auto.
  - intros H1 H2 H3. cbn [fold_left]. apply IH; destruct a; simpl; trivial.
Qed.

Lemma Hysteresis_init_reads (this this' : Hysteresis.t num) :
  Hysteresis.sampleRate this = Hysteresis.sampleRate this' ->
  Hysteresis.lowpassFrequencyUp this = Hysteresis.lowpassFrequencyUp this' ->
  Hysteresis.lowpassFrequencyDown this
  = Hysteresis.lowpassFrequencyDown this' ->
  Hysteresis.outputValueLast this = Hysteresis.outputValueLast this' ->
  Hysteresis.init hertzToNormalised this
  = Hysteresis.init hertzToNormalised this'.
Proof.
  intros H1 H2 H3 H4. unfold Hysteresis.init. now rewrite H1, H2, H3, H4.
Qed.

Lemma Hysteresis_assign_reads (attributes : list (Hysteresis.attribute num))
  (this this' : Hysteresis.t num) :
  Hysteresis.sampleRate this = Hysteresis.sampleRate this' ->
  Hysteresis.lowpassFrequencyUp this = Hysteresis.lowpassFrequencyUp this' ->
  Hysteresis.lowpassFrequencyDown this
  = Hysteresis.lowpassFrequencyDown this' ->
  Hysteresis.outputValueLast this = Hysteresis.outputValueLast this' ->
  let r := fold_left Hysteresis.assign attributes this in
  let r' := fold_left Hysteresis.assign attributes this' in
  Hysteresis.sampleRate r = Hysteresis.sampleRate r'
  /\ Hysteresis.lowpassFrequencyUp r = Hysteresis.lowpassFrequencyUp r'
  /\ Hysteresis.lowpassFrequencyDown r = Hysteresis.lowpassFrequencyDown r'
  /\ Hysteresis.outputValueLast r = Hysteresis.outputValueLast r'.
Proof.
  revert this this'. induction attributes as [|a rest IH]; intros this this'.
  - simpl. auto.
  - intros H1 H2 H3 H4. cbn [fold_left].
    apply IH; destruct a; simpl; trivial.
Qed.

(** X4.  Two calls of [set] in a row leave a Clipper, a Lowpass and a
    Hysteresis as one call of [set] with the attributes of the first
    followed by those of the second does: the coefficients the first call
    derived are derived again by the second. *)
Theorem set_set :
  (forall (this : Clipper.t num)
      (attributes1 attributes2 : list (Clipper.attribute num)),
      Clipper.set (Clipper.set this attributes1) attributes2
      = Clipper.set this (attributes1 ++ attributes2))
  /\ (forall (this : Lowpass.t num)
      (attributes1 attributes2 : list (Lowpass.attribute num)),
      Lowpass.set hertzToNormalised
        (Lowpass.set hertzToNormalised this attributes1) attributes2
      = Lowpass.set hertzToNormalised this (attributes1 ++ attributes2))
  /\ (forall (this : Hysteresis.t num)
        (attributes1 attributes2 : list (Hysteresis.attribute num)),
      Hysteresis.set hertzToNormalised
        (Hysteresis.set hertzToNormalised this attributes1) attributes2
      = Hysteresis.set hertzToNormalised this (attributes1 ++ attributes2)).
Proof.
  split; [ | split ]; intros this a1 a2.
  - unfold Clipper.set. now rewrite fold_left_app.
  - unfold Lowpass.set. rewrite fold_left_app.
    apply Lowpass_init_reads;
      apply (Lowpass_assign_reads a2); reflexivity.
  - unfold Hysteresis.set. rewrite fold_left_app.
    apply Hysteresis_init_reads;
      apply (Hysteresis_assign_reads a2); reflexivity.
Qed.

(** X5.  On an object the constructor built, whatever methods were called
    since, [set({})] changes nothing: the coefficients are at all times the
    ones [init] derives from the options. *)
Theorem set_nothing :
  (forall this : Lowpass.t num,
      Lowpass.reachable hertzToNormalised this ->
      Lowpass.set hertzToNormalised this [] = this)
  /\ (forall this : Hysteresis.t num,
        Hysteresis.reachable hertzToNormalised this ->
        Hysteresis.set hertzToNormalised this [] = this).
Proof.
  split; intros this Hreach.
  - destruct (Lowpass_reachable_coefficients _ _ Hreach) as [Ha Hb].
    unfold Lowpass.set, Lowpass.init. cbn [fold_left].
    destruct this as [sr f a b last]. simpl in *. unfold coefficient in Ha.
    now rewrite <- Ha, <- Hb.
  - pose proof (Hysteresis_reachable_coefficients _ _ Hreach) as H.
    unfold Hysteresis.set, Hysteresis.init. cbn [fold_left].
    destruct this as [sr fu fd [au bu] [ad bd] last]. simpl in *.
    unfold coefficient in H. destruct H as ((Hau & Hbu) & Had & Hbd).
    now rewrite <- Hau, <- Hbu, <- Had, <- Hbd.
Qed.

End SetComposition.

Lemma set_nothing_witness :
  Lowpass.set hertzToNormalised
    (snd (Lowpass.process Examples.lowpass_09 F64.one)) []
  = snd (Lowpass.process Examples.lowpass_09 F64.one)
  /\ Hysteresis.set hertzToNormalised
       (Hysteresis.reset Examples.hysteresis_09_01) []
     = Hysteresis.reset Examples.hysteresis_09_01.
Proof.
  destruct (set_nothing (@hertzToNormalised _ F64.number)) as [HL HH].
  split.
  - apply HL. apply Lowpass.reachable_process, Lowpass.reachable_new.
  - apply HH. apply Hysteresis.reachable_reset, Hysteresis.reachable_new.
Defined.

(** ** [reset] *)

Section ResetFacts.
Context {num : Type} {N : JSNumber num}.
Variable hertzToNormalised : num -> num -> num.
Local Open Scope js_scope.

Lemma Lowpass_run_reset (inputs : list num) (this : Lowpass.t num) :
  Lowpass.reset (snd (Lowpass.run this inputs)) = Lowpass.reset this.
Proof.
  revert this. induction inputs as [|x rest IH]; intros this.
  - reflexivity.
  - cbn [Lowpass.run].
    destruct (Lowpass.process this x) as [y this'] eqn:Ep.
    specialize (IH this').
    destruct (Lowpass.run this' rest) as [ys this''].
    cbn [snd] in *. rewrite IH.
    unfold Lowpass.process in Ep. injection Ep as _ <-. reflexivity.
Qed.

Lemma Hysteresis_run_reset (inputs : list num) (this : Hysteresis.t num) :
  Hysteresis.reset (snd (Hysteresis.run this inputs)) = Hysteresis.reset this.
Proof.
  revert this. induction inputs as [|x rest IH]; intros this.
  - reflexivity.
  - cbn [Hysteresis.run].
    destruct (Hysteresis.process this x) as [y this'] eqn:Ep.
    specialize (IH this').
    destruct (Hysteresis.run this' rest) as [ys this''].
    cbn [snd] in *. rewrite IH.
    unfold Hysteresis.process in Ep. injection Ep as _ <-. reflexivity.
Qed.

(** X6.  [reset()] forgets what was processed: after any inputs, a
    Lowpass, or a Hysteresis, that is reset is the object the constructor
    returned, and it answers as that one does. *)
Theorem reset_forgets :
  (forall (sampleRate lowpassFrequency : num) (inputs : list num),
      Lowpass.reset
        (snd (Lowpass.run
                (Lowpass.new hertzToNormalised sampleRate lowpassFrequency)
                inputs))
      = Lowpass.new hertzToNormalised sampleRate lowpassFrequency)
  /\ (forall (sampleRate lowpassFrequencyUp lowpassFrequencyDown : num)
        (inputs : list num),
      Hysteresis.reset
        (snd (Hysteresis.run
                (Hysteresis.new hertzToNormalised sampleRate
                   lowpassFrequencyUp lowpassFrequencyDown)
                inputs))
      = Hysteresis.new hertzToNormalised sampleRate lowpassFrequencyUp
          lowpassFrequencyDown).
Proof.
  split; intros.
  - now rewrite Lowpass_run_reset.
  - now rewrite Hysteresis_run_reset.
Qed.

End ResetFacts.

(** ** NaN in a filter *)

Section NaNFacts.
Import F64.
Local Open Scope js_scope.

Lemma add_nan_l (x : f64) : add NaN x = NaN.
Proof. reflexivity. Qed.

Lemma add_nan_r (x : f64) : add x NaN = NaN.
Proof. destruct x as [[]|[]| |[] m e]; reflexivity. Qed.

Lemma mul_nan_l (x : f64) : mul NaN x = NaN.
Proof. reflexivity. Qed.

Lemma mul_nan_r (x : f64) : mul x NaN = NaN.
Proof. destruct x as [[]|[]| |[] m e]; reflexivity. Qed.

Lemma Lowpass_process_after_NaN (this : Lowpass.t f64) (x : f64) :
  Lowpass.outputValueLast this = Some NaN ->
  fst (Lowpass.process this x) = NaN
  /\ Lowpass.outputValueLast (snd (Lowpass.process this x)) = Some NaN.
Proof.
  intros Hl. unfold Lowpass.process. rewrite Hl.
  cbn [fst snd Lowpass.outputValueLast js_add js_mul number].
  now rewrite mul_nan_l, add_nan_r.
Qed.

Lemma Lowpass_run_after_NaN (inputs : list f64) (this : Lowpass.t f64) :
  Lowpass.outputValueLast this = Some NaN ->
  Forall (fun y => y = NaN) (fst (Lowpass.run this inputs)).
Proof.
  revert this. induction inputs as [|x rest IH]; intros this Hl.
  - constructor.
  - cbn [Lowpass.run].
    destruct (Lowpass_process_after_NaN this x Hl) as [Hy Hl'].
    destruct (Lowpass.process this x) as [y this'].
    specialize (IH this' Hl').
    destruct (Lowpass.run this' rest) as [ys this''].
    cbn [fst] in *. now constructor.
Qed.

Lemma Hysteresis_process_after_NaN (this : Hysteresis.t f64) (x : f64) :
  Hysteresis.outputValueLast this = Some NaN ->
  fst (Hysteresis.process this x) = NaN
  /\ Hysteresis.outputValueLast (snd (Hysteresis.process this x)) = Some NaN.
Proof.
  intros Hl. unfold Hysteresis.process. rewrite Hl.
  cbn [fst snd Hysteresis.outputValueLast js_add js_mul number].
  now rewrite mul_nan_l, add_nan_r.
Qed.

Lemma Hysteresis_run_after_NaN (inputs : list f64)
  (this : Hysteresis.t f64) :
  Hysteresis.outputValueLast this = Some NaN ->
  Forall (fun y => y = NaN) (fst (Hysteresis.run this inputs)).
Proof.
  revert this. induction inputs as [|x rest IH]; intros this Hl.
  - constructor.
  - cbn [Hysteresis.run].
    destruct (Hysteresis_process_after_NaN this x Hl) as [Hy Hl'].
    destruct (Hysteresis.process this x) as [y this'].
    specialize (IH this' Hl').
    destruct (Hysteresis.run this' rest) as [ys this''].
    cbn [fst] in *. now constructor.
Qed.

(** X7.  NaN stays: [process(NaN)] returns NaN, whatever the state and the
    coefficients of a Lowpass or a Hysteresis, and every call of [process]
    that follows returns NaN, whatever the inputs, as long as [reset()] is
    not called. *)
Theorem NaN_stays :
  (forall (this : Lowpass.t f64) (inputs : list f64),
      fst (Lowpass.process this NaN) = NaN
      /\ Forall (fun y => y = NaN)
           (fst (Lowpass.run (snd (Lowpass.process this NaN)) inputs)))
  /\ (forall (this : Hysteresis.t f64) (inputs : list f64),
      fst (Hysteresis.process this NaN) = NaN
      /\ Forall (fun y => y = NaN)
           (fst (Hysteresis.run (snd (Hysteresis.process this NaN))
                   inputs))).
Proof.
  split; intros this inputs.
  - assert (E : fst (Lowpass.process this NaN) = NaN).
    { unfold Lowpass.process. cbn [fst js_add js_mul number].
      now rewrite mul_nan_l. }
    split; [ exact E | ]. apply Lowpass_run_after_NaN.
    unfold Lowpass.process in *. cbn [fst snd Lowpass.outputValueLast] in *.
    now rewrite E.
  - assert (E : fst (Hysteresis.process this NaN) = NaN).
    { unfold Hysteresis.process. cbn [fst js_add js_mul number].
      now rewrite mul_nan_l. }
    split; [ exact E | ]. apply Hysteresis_run_after_NaN.
    unfold Hysteresis.process in *.
    cbn [fst snd Hysteresis.outputValueLast] in *.
    now rewrite E.
Qed.

End NaNFacts.

(** ** The cutoffs that switch a Lowpass off *)

Section Bypass.
Import F64.
Variable hertzToNormalised : f64 -> f64 -> f64.
Local Open Scope js_scope.

Lemma add_zero_r (x : f64) (s : bool) :
  is_finite x = true ->
  SFeqb (add x (S754_zero s)) x = true
  /\ (is_zero x = false -> add x (S754_zero s) = x).
Proof.
  destruct x as [[]|[]| |[] m e], s; try discriminate; intros _;
    (split; [ try reflexivity | try discriminate; try reflexivity ]);
    unfold SFeqb; rewrite SFcompare_refl; reflexivity.
Qed.

Lemma add_zero_l (x : f64) (s : bool) :
  is_finite x = true ->
  SFeqb (add (S754_zero s) x) x = true
  /\ (is_zero x = false -> add (S754_zero s) x = x).
Proof.
  destruct x as [[]|[]| |[] m e], s; try discriminate; intros _;
    (split; [ try reflexivity | try discriminate; try reflexivity ]);
    unfold SFeqb; rewrite SFcompare_refl; reflexivity.
Qed.

Lemma mul_zero_r (x : f64) :
  is_finite x = true -> exists s, mul x pos_zero = S754_zero s.
Proof.
  destruct x as [[]|[]| |[] m e]; try discriminate; intros _;
    eexists; reflexivity.
Qed.

(** X8.  A cutoff at the Nyquist frequency or above ([hertzToNormalised]
    returns 1 or more, [Infinity] included) switches the smoothing off: a
    Lowpass that holds a finite last output returns every finite input as it
    is.  A cutoff of zero or below freezes the filter: every finite input
    returns the last output. *)
Theorem Lowpass_cutoff_ends (this : Lowpass.t f64) (x y : f64) :
  Lowpass.reachable hertzToNormalised this ->
  Lowpass.outputValueLast this = Some y ->
  valid x = true -> is_finite x = true ->
  valid y = true -> is_finite y = true ->
  let v := hertzToNormalised (Lowpass.lowpassFrequency this)
             (Lowpass.sampleRate this) in
  let out := fst (Lowpass.process this x) in
  ((num_1 <= v) = true ->
   (out === x) = true /\ (is_zero x = false -> out = x))
  /\ ((v <= num_0) = true ->
      (out === y) = true /\ (is_zero y = false -> out = y)).
Proof.
  intros Hreach Hl Hvx Hfx Hvy Hfy v out.
  destruct (Lowpass_reachable_coefficients _ _ Hreach) as [Ha Hb].
  unfold coefficient in Ha. cbn [Math_max Math_min num_0 num_1 number] in Ha.
  fold v in Ha. cbn [js_sub num_1 number] in Hb.
  assert (Eout : out = add (mul x (Lowpass.inputScale this))
                         (mul y (Lowpass.feedbackScale this))).
  { subst out. unfold Lowpass.process. rewrite Hl. reflexivity. }
  cbn [js_le js_eq num_0 num_1 number]. split; intros Hv.
  - rewrite (clamp_above v Hv) in Ha. rewrite Ha in Hb.
    change (sub one one) with pos_zero in Hb.
    rewrite Eout, Ha, Hb, (mul_one_r x Hvx Hfx).
    destruct (mul_zero_r y Hfy) as [s ->]. now apply add_zero_r.
  - rewrite (clamp_below v Hv) in Ha. rewrite Ha in Hb.
    change (sub one pos_zero) with one in Hb.
    rewrite Eout, Ha, Hb, (mul_one_r y Hvy Hfy).
    destruct (mul_zero_r x Hfx) as [s ->]. now apply add_zero_l.
Qed.

End Bypass.

Lemma Lowpass_cutoff_ends_witness :
  let this := snd (Lowpass.process Examples.lowpass_1 F64.pos_zero) in
  fst (Lowpass.process this F64.two) = F64.two.
Proof.
  intros this.
  destruct (Lowpass_cutoff_ends hertzToNormalised this F64.two F64.pos_zero)
    as [H _].
  - apply Lowpass.reachable_process, Lowpass.reachable_new.
  - vm_compute. reflexivity.
  - reflexivity.
  - reflexivity.
  - reflexivity.
  - reflexivity.
  - destruct H as [_ H]; [ vm_compute; reflexivity | ].
    apply H. reflexivity.
Defined.

(** ** A Hysteresis of one frequency *)

Section OneFrequency.
Context {num : Type} {N : JSNumber num}.
Variable hertzToNormalised : num -> num -> num.
Local Open Scope js_scope.

(** A Hysteresis and a Lowpass in step: the same coefficients up, down and
    in the Lowpass, and the same last output. *)
Lemma Hysteresis_process_as_Lowpass (hy : Hysteresis.t num)
  (lp : Lowpass.t num) (x : num) :
  Hysteresis.up hy = Hysteresis.down hy ->
  Hysteresis.inputScale (Hysteresis.down hy) = Lowpass.inputScale lp ->
  Hysteresis.feedbackScale (Hysteresis.down hy) = Lowpass.feedbackScale lp ->
  Hysteresis.outputValueLast hy = Lowpass.outputValueLast lp ->
  let (y, hy') := Hysteresis.process hy x in
  let (z, lp') := Lowpass.process lp x in
  y = z
  /\ Hysteresis.up hy' = Hysteresis.down hy'
  /\ Hysteresis.inputScale (Hysteresis.down hy') = Lowpass.inputScale lp'
  /\ Hysteresis.feedbackScale (Hysteresis.down hy')
     = Lowpass.feedbackScale lp'
  /\ Hysteresis.outputValueLast hy' = Lowpass.outputValueLast lp'.
Proof.
  intros Hud Ha Hb Hl. unfold Hysteresis.process, Lowpass.process.
  assert (Hsel : forall d, Hysteresis.select hy d = Hysteresis.down hy)
    by (intros []; simpl; congruence).
  rewrite Hsel, Ha, Hb, Hl. simpl. auto.
Qed.

Lemma Hysteresis_run_as_Lowpass (inputs : list num) (hy : Hysteresis.t num)
  (lp : Lowpass.t num) :
  Hysteresis.up hy = Hysteresis.down hy ->
  Hysteresis.inputScale (Hysteresis.down hy) = Lowpass.inputScale lp ->
  Hysteresis.feedbackScale (Hysteresis.down hy) = Lowpass.feedbackScale lp ->
  Hysteresis.outputValueLast hy = Lowpass.outputValueLast lp ->
  fst (Hysteresis.run hy inputs) = fst (Lowpass.run lp inputs).
Proof.
  revert hy lp. induction inputs as [|x rest IH]; intros hy lp Hud Ha Hb Hl.
  - reflexivity.
  - pose proof (Hysteresis_process_as_Lowpass hy lp x Hud Ha Hb Hl) as Hp.
    cbn [Hysteresis.run Lowpass.run].
    destruct (Hysteresis.process hy x) as [y hy'].
    destruct (Lowpass.process lp x) as [z lp'].
    destruct Hp as (-> & Hud' & Ha' & Hb' & Hl').
    specialize (IH hy' lp' Hud' Ha' Hb' Hl').
    destruct (Hysteresis.run hy' rest) as [ys hy''].
    destruct (Lowpass.run lp' rest) as [zs lp''].
    simpl in *. now rewrite IH.
Qed.

(** X9.  A Hysteresis whose two frequencies are the same is a Lowpass of
    that frequency: built with the same sample rate, and after [set] has
    given both the same options, the two return the same outputs on every
    sequence of inputs. *)
Theorem Hysteresis_one_frequency
  (sampleRate lowpassFrequency : num) (inputs : list num) :
  fst (Hysteresis.run
         (Hysteresis.new hertzToNormalised sampleRate lowpassFrequency
            lowpassFrequency) inputs)
  = fst (Lowpass.run
           (Lowpass.new hertzToNormalised sampleRate lowpassFrequency)
           inputs)
  /\ forall (hy : Hysteresis.t num) (lp : Lowpass.t num)
       (sampleRate' lowpassFrequency' : num),
      Hysteresis.outputValueLast hy = Lowpass.outputValueLast lp ->
      fst (Hysteresis.run
             (Hysteresis.set hertzToNormalised hy
                [Hysteresis.set_sampleRate sampleRate';
                 Hysteresis.set_lowpassFrequencyUp lowpassFrequency';
                 Hysteresis.set_lowpassFrequencyDown lowpassFrequency'])
             inputs)
      = fst (Lowpass.run
               (Lowpass.set hertzToNormalised lp
                  [Lowpass.set_sampleRate sampleRate';
                   Lowpass.set_lowpassFrequency lowpassFrequency'])
               inputs).
Proof.
  split; [ | intros hy lp sr' f' Hl ];
    apply Hysteresis_run_as_Lowpass; trivial; reflexivity.
Qed.

End OneFrequency.

Lemma Hysteresis_one_frequency_witness :
  fst (Hysteresis.run
         (Hysteresis.set hertzToNormalised Examples.hysteresis_09_01
            [Hysteresis.set_sampleRate F64.two;
             Hysteresis.set_lowpassFrequencyUp (F64.of_ratio 3 10);
             Hysteresis.set_lowpassFrequencyDown (F64.of_ratio 3 10)])
         [F64.pos_zero; F64.one; F64.one])
  = fst (Lowpass.run
           (Lowpass.set hertzToNormalised Examples.lowpass_09
              [Lowpass.set_sampleRate F64.two;
               Lowpass.set_lowpassFrequency (F64.of_ratio 3 10)])
           [F64.pos_zero; F64.one; F64.one]).
Proof.
  destruct (Hysteresis_one_frequency (@hertzToNormalised _ F64.number)
              F64.two (F64.of_ratio 3 10) [F64.pos_zero; F64.one; F64.one])
    as [_ H].
  apply H. reflexivity.
Defined.

(** ** The filters in exact arithmetic *)

Section FiltersExact.
Local Open Scope R_scope.
Variable hertzToNormalised : R -> R -> R.

Lemma ltb_true (x y : R) : Exact.ltb x y = true -> x < y.
Proof. unfold Exact.ltb. now destruct (Rlt_dec x y). Qed.

Lemma ltb_false (x y : R) : Exact.ltb x y = false -> y <= x.
Proof. unfold Exact.ltb. destruct (Rlt_dec x y); [ discriminate | lra ]. Qed.











End FiltersExact.

(** ** The helper of the tests, in exact arithmetic *)

Section TestsExact.
Local Open Scope R_scope.


End TestsExact.

Section FiltersExactInstances.
Local Open Scope R_scope.





End FiltersExactInstances.

(** ** The filters on the unit interval, in doubles *)

Section UnitInterval.
Import F64 Rounding.
Local Open Scope Z_scope.

(** A product of two doubles from 0 to 1 is under each of them. *)
Lemma mul_below (y f : f64) :
  nonneg y = true -> nonneg f = true ->
  ulps y <= 2 ^ 1074 -> ulps f <= 2 ^ 1074 ->
  nonneg (mul y f) = true
  /\ ulps (mul y f) * 2 ^ 1074 = nearest 1074 (ulps y * ulps f)
  /\ ulps (mul y f) <= ulps f.
Proof.
  intros Hy Hf Hy1 Hf1.
  destruct (ulps_nonneg y Hy) as [Hby _].
  destruct (ulps_nonneg f Hf) as [Hbf Hrf].
  assert (Hp : 0 < 2 ^ 1074) by (apply Z.pow_pos_nonneg; lia).
  assert (Hle : nearest 1074 (ulps y * ulps f) <= ulps f * 2 ^ 1074).
  { replace (ulps f * 2 ^ 1074) with (nearest 1074 (ulps f * 2 ^ 1074)).
    - apply nearest_mono; [ lia | ]. split; [ nia | ].
      rewrite Z.mul_comm. apply Z.mul_le_mono_nonneg_l; lia.
    - rewrite (nearest_scale 0 1074) by lia. now rewrite Hrf. }
  destruct (mul_ulps y f Hy Hf) as [Hn Hu].
  - apply Z.le_lt_trans with (1 := Hle).
    rewrite (Z.pow_add_r 2 2098 1074) by lia.
    apply Z.mul_lt_mono_pos_r; lia.
  - split; [ exact Hn | split; [ exact Hu | ] ].
    rewrite <- Hu in Hle. apply Z.mul_le_mono_pos_r in Hle; lia.
Qed.

Lemma max_pos_zero_sign (z : f64) : max pos_zero z <> neg_zero.
Proof. destruct z as [[]|[]| |[] m e]; discriminate. Qed.

(** The coefficient [init] derives from a number is a double from [+0]
    to 1. *)
Lemma clamp_nonneg (v : f64) :
  valid v = true -> is_nan v = false ->
  let a := max pos_zero (min one v) in
  nonneg a = true /\ ulps a <= 2 ^ 1074.
Proof.
  intros Hv Hn a.
  pose proof (clamp_valid v Hv Hn) as Hva. fold a in Hva.
  pose proof (clamp_in_unit_interval v Hn) as Hu.
  cbn [Math_max Math_min num_0 num_1 number] in Hu. fold a in Hu.
  unfold in_unit_interval in Hu. apply andb_prop in Hu.
  destruct Hu as [H0 H1]. cbn [js_le num_0 num_1 number] in H0, H1.
  pose proof (max_pos_zero_sign (min one v)) as Hs. fold a in Hs.
  assert (Ha : nonneg a = true).
  { unfold nonneg. rewrite Hva.
    destruct a as [[]|[]| |[] m e]; try discriminate; try reflexivity.
    now elim Hs. }
  split; [ exact Ha | ].
  rewrite (SFleb_ulps a one Ha nonneg_one), ulps_one in H1.
  now apply Z.leb_le.
Qed.

(** The doubles from 0 to 1: [-0], and those from [+0] on. *)
Lemma unit_cases (x : f64) :
  valid x = true -> in_unit_interval x = true ->
  x = neg_zero \/ (nonneg x = true /\ ulps x <= 2 ^ 1074).
Proof.
  intros Hv Hu. unfold in_unit_interval in Hu. apply andb_prop in Hu.
  destruct Hu as [H0 H1]. cbn [js_le num_0 num_1 number] in H0, H1.
  destruct x as [[]|[]| |[] m e]; try discriminate; auto; right.
  - split; reflexivity || (change (ulps pos_zero) with 0;
      apply Z.pow_nonneg; lia).
  - assert (Hn : nonneg (S754_finite false m e) = true)
      by (unfold nonneg; now rewrite Hv).
    split; [ exact Hn | ].
    rewrite (SFleb_ulps _ one Hn nonneg_one), ulps_one in H1.
    now apply Z.leb_le.
Qed.

Lemma unit_intro (x : f64) :
  nonneg x = true -> ulps x <= 2 ^ 1074 ->
  valid x = true /\ in_unit_interval x = true.
Proof.
  intros Hn Hu. unfold nonneg in Hn. apply andb_prop in Hn.
  destruct Hn as [Hv Hs]. split; [ exact Hv | ].
  assert (Hn : nonneg x = true) by (unfold nonneg; now rewrite Hv, Hs).
  unfold in_unit_interval. cbn [js_le num_0 num_1 number].
  rewrite (SFleb_ulps x one Hn nonneg_one), ulps_one.
  replace (ulps x <=? 2 ^ 1074) with true by (symmetry; now apply Z.leb_le).
  rewrite andb_true_r.
  destruct x as [[]|[]| |[] m e]; try discriminate; reflexivity.
Qed.

Lemma add_neg_zero_l (q : f64) : nonneg q = true -> add neg_zero q = q.
Proof.
  intros H. destruct (nonneg_cases q H) as [-> | (m & e & -> & _)];
    reflexivity.
Qed.

Lemma add_neg_zero_r (p : f64) : nonneg p = true -> add p neg_zero = p.
Proof.
  intros H. destruct (nonneg_cases p H) as [-> | (m & e & -> & _)];
    reflexivity.
Qed.

Lemma mul_neg_zero_l (f : f64) : nonneg f = true -> mul neg_zero f = neg_zero.
Proof.
  intros H. destruct (nonneg_cases f H) as [-> | (m & e & -> & _)];
    reflexivity.
Qed.

(** One call of [process] with coefficients [a] and [1 - a], on an input
    and a last output from 0 to 1. *)
Lemma process_unit (a x y : f64) :
  nonneg a = true -> ulps a <= 2 ^ 1074 ->
  valid x = true -> in_unit_interval x = true ->
  valid y = true -> in_unit_interval y = true ->
  let out := add (mul x a) (mul y (sub one a)) in
  valid out = true /\ in_unit_interval out = true.
Proof.
  intros Ha Ha1 Hvx Hux Hvy Huy out.
  destruct (fb_nonneg a Ha Ha1) as [Hf _].
  pose proof (fb_le_1 a Ha Ha1) as Hf1.
  pose proof (fb_error a Ha Ha1) as He.
  destruct (ulps_nonneg a Ha) as [Hba _].
  destruct (unit_cases x Hvx Hux) as [-> | [Hx Hx1]];
    destruct (unit_cases y Hvy Huy) as [-> | [Hy Hy1]]; subst out.
  - rewrite !mul_neg_zero_l by trivial. split; reflexivity.
  - destruct (product_ulps a Ha Ha1 y Hy Hy1) as (Hq & _ & Hqf).
    rewrite mul_neg_zero_l, add_neg_zero_l by trivial.
    apply unit_intro; trivial. lia.
  - destruct (mul_below x a Hx Ha Hx1 Ha1) as (Hp & _ & Hpa).
    rewrite (mul_neg_zero_l _ Hf), add_neg_zero_r by trivial.
    apply unit_intro; trivial. lia.
  - destruct (product_ulps a Ha Ha1 y Hy Hy1) as (Hq & _ & Hqf).
    destruct (mul_below x a Hx Ha Hx1 Ha1) as (Hp & _ & Hpa).
    destruct (ulps_nonneg _ Hp) as [Hbp _].
    destruct (ulps_nonneg _ Hq) as [Hbq _].
    assert (Hsum : ulps (mul x a) + ulps (mul y (sub one a))
                   <= 2 ^ 1074 + 2 ^ 1021).
    { change (2 ^ 1022) with (2 * 2 ^ 1021) in He. lia. }
    assert (Hle : nearest 0 (ulps (mul x a) + ulps (mul y (sub one a)))
                  <= 2 ^ 1074).
    { rewrite <- nearest_above_one. apply nearest_mono; lia. }
    destruct (add_ulps _ _ Hp Hq) as [Hn Hu].
    + apply Z.le_lt_trans with (1 := Hle). apply Z.pow_lt_mono_r; lia.
    + apply unit_intro; trivial. now rewrite Hu.
Qed.

Variable hertzToNormalised : f64 -> f64 -> f64.

Lemma Lowpass_run_unit (inputs : list f64) (this : Lowpass.t f64) :
  nonneg (Lowpass.inputScale this) = true ->
  ulps (Lowpass.inputScale this) <= 2 ^ 1074 ->
  Lowpass.feedbackScale this = sub one (Lowpass.inputScale this) ->
  (forall y, Lowpass.outputValueLast this = Some y ->
             valid y = true /\ in_unit_interval y = true) ->
  Forall (fun x => valid x = true /\ in_unit_interval x = true) inputs ->
  Forall (fun y => valid y = true /\ in_unit_interval y = true)
    (fst (Lowpass.run this inputs)).
Proof.
  revert this. induction inputs as [|x rest IH];
    intros this Ha Ha1 Hb Hl Hin.
  - constructor.
  - inversion Hin as [|x' rest' [Hvx Hux] Hrest]; subst.
    cbn [Lowpass.run].
    destruct (Lowpass.process this x) as [out this'] eqn:Ep.
    unfold Lowpass.process in Ep. injection Ep as Eout Ethis.
    assert (Hout : valid out = true /\ in_unit_interval out = true).
    { rewrite <- Eout, Hb. cbn [js_add js_mul number].
      destruct (Lowpass.outputValueLast this) as [y|] eqn:El.
      - destruct (Hl y eq_refl) as [Hvy Huy]. now apply process_unit.
      - now apply process_unit. }
    specialize (IH this').
    destruct (Lowpass.run this' rest) as [ys this''].
    cbn [fst] in *. constructor; [ exact Hout | ].
    apply IH; subst this'; cbn [Lowpass.inputScale Lowpass.feedbackScale
      Lowpass.outputValueLast]; trivial.
    intros y Hy. injection Hy as <-. now rewrite Eout.
Qed.

Lemma Hysteresis_run_unit (inputs : list f64) (this : Hysteresis.t f64) :
  (forall d : Hysteresis.direction,
      let c := Hysteresis.select this d in
      nonneg (Hysteresis.inputScale c) = true
      /\ ulps (Hysteresis.inputScale c) <= 2 ^ 1074
      /\ Hysteresis.feedbackScale c = sub one (Hysteresis.inputScale c)) ->
  (forall y, Hysteresis.outputValueLast this = Some y ->
             valid y = true /\ in_unit_interval y = true) ->
  Forall (fun x => valid x = true /\ in_unit_interval x = true) inputs ->
  Forall (fun y => valid y = true /\ in_unit_interval y = true)
    (fst (Hysteresis.run this inputs)).
Proof.
  revert this. induction inputs as [|x rest IH]; intros this Hc Hl Hin.
  - constructor.
  - inversion Hin as [|x' rest' [Hvx Hux] Hrest]; subst.
    cbn [Hysteresis.run].
    destruct (Hysteresis.process this x) as [out this'] eqn:Ep.
    unfold Hysteresis.process in Ep. injection Ep as Eout Ethis.
    assert (Hout : valid out = true /\ in_unit_interval out = true).
    { rewrite <- Eout.
      match goal with
      | |- context [Hysteresis.select this ?d] =>
          destruct (Hc d) as (Ha & Ha1 & ->)
      end.
      cbn [js_add js_mul number].
      destruct (Hysteresis.outputValueLast this) as [y|] eqn:El.
      - destruct (Hl y eq_refl) as [Hvy Huy]. now apply process_unit.
      - now apply process_unit. }
    specialize (IH this').
    destruct (Hysteresis.run this' rest) as [ys this''].
    cbn [fst] in *. constructor; [ exact Hout | ].
    apply IH; trivial.
    + intros d. subst this'. destruct d; apply (Hc Hysteresis.Up)
        || apply (Hc Hysteresis.Down).
    + intros y Hy. subst this'. cbn [Hysteresis.outputValueLast] in Hy.
      injection Hy as <-. now rewrite Eout.
Qed.

(** X14.  In doubles a Lowpass, and a Hysteresis, keep a signal that is
    between 0 and 1 between 0 and 1: when [hertzToNormalised] returned
    numbers (no NaN), the last output, if there is one, is between 0 and 1
    and so is every input, then every output is between 0 and 1, the
    roundings of the products and of the sum notwithstanding. *)
Theorem unit_interval_kept :
  (forall (this : Lowpass.t f64) (inputs : list f64),
      Lowpass.reachable hertzToNormalised this ->
      let v := hertzToNormalised (Lowpass.lowpassFrequency this)
                 (Lowpass.sampleRate this) in
      valid v = true -> is_nan v = false ->
      (forall y, Lowpass.outputValueLast this = Some y ->
                 valid y = true /\ in_unit_interval y = true) ->
      Forall (fun x => valid x = true /\ in_unit_interval x = true) inputs ->
      Forall (fun y => valid y = true /\ in_unit_interval y = true)
        (fst (Lowpass.run this inputs)))
  /\ (forall (this : Hysteresis.t f64) (inputs : list f64),
      Hysteresis.reachable hertzToNormalised this ->
      let vUp := hertzToNormalised (Hysteresis.lowpassFrequencyUp this)
                   (Hysteresis.sampleRate this) in
      let vDown := hertzToNormalised (Hysteresis.lowpassFrequencyDown this)
                     (Hysteresis.sampleRate this) in
      valid vUp = true -> is_nan vUp = false ->
      valid vDown = true -> is_nan vDown = false ->
      (forall y, Hysteresis.outputValueLast this = Some y ->
                 valid y = true /\ in_unit_interval y = true) ->
      Forall (fun x => valid x = true /\ in_unit_interval x = true) inputs ->
      Forall (fun y => valid y = true /\ in_unit_interval y = true)
        (fst (Hysteresis.run this inputs))).
Proof.
  split.
  - intros this inputs Hreach v Hv Hn Hl Hin.
    destruct (Lowpass_reachable_coefficients _ _ Hreach) as [Ha Hb].
    unfold coefficient in Ha. fold v in Ha.
    destruct (clamp_nonneg v Hv Hn) as [Hna Hua].
    cbn [Math_max Math_min num_0 num_1 number] in Ha.
    apply Lowpass_run_unit; trivial; rewrite Ha; trivial.
  - intros this inputs Hreach vUp vDown Hvu Hnu Hvd Hnd Hl Hin.
    destruct (Hysteresis_reachable_coefficients _ _ Hreach)
      as ((Hau & Hbu) & Had & Hbd).
    unfold coefficient in Hau, Had. fold vUp in Hau. fold vDown in Had.
    cbn [Math_max Math_min num_0 num_1 number] in Hau, Had.
    destruct (clamp_nonneg vUp Hvu Hnu) as [Hnau Huau].
    destruct (clamp_nonneg vDown Hvd Hnd) as [Hnad Huad].
    apply Hysteresis_run_unit; trivial.
    intros [|]; cbn [Hysteresis.select];
      [ rewrite Hau | rewrite Had ]; repeat split; trivial;
      [ rewrite <- Hau | rewrite <- Had ]; assumption.
Qed.

End UnitInterval.

Lemma unit_interval_kept_witness :
  Forall (fun y => F64.valid y = true /\ in_unit_interval y = true)
    (fst (Lowpass.run Examples.lowpass_03
            [F64.one; F64.of_ratio 1 3; F64.pos_zero])).
Proof.
  destruct (unit_interval_kept hertzToNormalised) as [HL _].
  apply HL.
  - apply Lowpass.reachable_new.
  - vm_compute. reflexivity.
  - vm_compute. reflexivity.
  - intros y Hy. discriminate Hy.
  - repeat constructor.
Defined.

(** ** The step response of a Hysteresis, in doubles *)

Section HysteresisStep.
Import F64 Rounding.
Local Open Scope Z_scope.
Variable hertzToNormalised : f64 -> f64 -> f64.
Variables au ad : f64.
Hypothesis au_nonneg : nonneg au = true.
Hypothesis au_le_1 : ulps au <= 2 ^ 1074.
Hypothesis ad_nonneg : nonneg ad = true.
Hypothesis ad_le_1 : ulps ad <= 2 ^ 1074.

Lemma step_at_one (a : f64) :
  nonneg a = true -> ulps a <= 2 ^ 1074 -> step a one = one.
Proof.
  intros Ha Ha1. unfold step. destruct (fb_nonneg a Ha Ha1) as [Hf _].
  rewrite !mul_one_l_value by trivial. now apply add_sub_one.
Qed.

Lemma add_pos_zero_r (p : f64) : nonneg p = true -> add p pos_zero = p.
Proof.
  intros H. destruct (nonneg_cases p H) as [-> | (m & e & -> & _)];
    reflexivity.
Qed.

Lemma mul_pos_zero_l (f : f64) : nonneg f = true -> mul pos_zero f = pos_zero.
Proof.
  intros H. destruct (nonneg_cases f H) as [-> | (m & e & -> & _)];
    reflexivity.
Qed.

Lemma step_at_zero (a y0 : f64) :
  nonneg a = true -> ulps a <= 2 ^ 1074 -> is_zero y0 = true ->
  add (mul one a) (mul y0 (sub one a)) = a.
Proof.
  intros Ha Ha1 Hz. destruct (fb_nonneg a Ha Ha1) as [Hf _].
  rewrite mul_one_l_value by trivial.
  destruct y0 as [[]| | |]; try discriminate.
  - change (S754_zero true) with neg_zero.
    rewrite mul_neg_zero_l by trivial. now apply add_neg_zero_r.
  - change (S754_zero false) with pos_zero.
    rewrite mul_pos_zero_l by trivial. now apply add_pos_zero_r.
Qed.

(** What [process(1)] returns on a last output [y] is a step of [up]
    under 1 and a step of [down] from 1 on.  The last outputs the response
    runs through are from [+0] to 1, and not above their own step of
    [up]. *)
Lemma rising_step (y : f64) :
  nonneg y = true -> ulps y <= 2 ^ 1074 -> ulps y <= ulps (step au y) ->
  let y' := if SFltb y one then step au y else step ad y in
  nonneg y' = true /\ ulps y' <= 2 ^ 1074 /\ ulps y' <= ulps (step au y')
  /\ ulps y <= ulps y'.
Proof.
  intros Hn H1 Hm y'. subst y'.
  destruct (SFltb y one) eqn:E.
  - destruct (step_ulps au au_nonneg au_le_1 y Hn H1) as (Hsn & _ & Hs1).
    split; [ exact Hsn | split; [ exact Hs1 | split; [ | exact Hm ] ] ].
    now apply step_mono.
  - assert (Hle : SFleb one y = true).
    { apply SFltb_false_SFleb; trivial.
      destruct y as [[]|[]| |[] m e]; try discriminate; reflexivity. }
    rewrite (SFleb_ulps one y nonneg_one Hn), ulps_one in Hle.
    apply Z.leb_le in Hle.
    assert (Ey : y = one).
    { apply ulps_inj; trivial. rewrite ulps_one. lia. }
    subst y. rewrite (step_at_one ad ad_nonneg ad_le_1).
    rewrite (step_at_one au au_nonneg au_le_1).
    split; [ reflexivity | ]. rewrite ulps_one. lia.
Qed.

Lemma rising_first :
  nonneg au = true /\ ulps au <= 2 ^ 1074 /\ ulps au <= ulps (step au au).
Proof.
  split; [ exact au_nonneg | split; [ exact au_le_1 | ] ].
  assert (E : step au pos_zero = au)
    by (apply step_at_zero; trivial).
  apply Z.le_trans with (ulps (step au pos_zero)); [ rewrite E; lia | ].
  apply step_mono; trivial.
  change (ulps pos_zero) with 0.
  destruct (ulps_nonneg au au_nonneg) as [H _]. lia.
Qed.

Variable this : Hysteresis.t f64.
Hypothesis this_up :
  Hysteresis.inputScale (Hysteresis.up this) = au
  /\ Hysteresis.feedbackScale (Hysteresis.up this) = sub one au.
Hypothesis this_down :
  Hysteresis.inputScale (Hysteresis.down this) = ad
  /\ Hysteresis.feedbackScale (Hysteresis.down this) = sub one ad.

Lemma Hysteresis_process_one (s : Hysteresis.t f64) (y : f64) :
  Hysteresis.up s = Hysteresis.up this ->
  Hysteresis.down s = Hysteresis.down this ->
  Hysteresis.outputValueLast s = Some y ->
  fst (Hysteresis.process s one)
  = if SFltb y one
    then add (mul one au) (mul y (sub one au))
    else add (mul one ad) (mul y (sub one ad)).
Proof.
  intros Hu Hd Hl. destruct this_up as [Eau Ebu].
  destruct this_down as [Ead Ebd].
  unfold Hysteresis.process. rewrite Hl. cbn [fst].
  unfold Hysteresis.direction_of. cbn [js_lt js_add js_mul number].
  destruct (SFltb y one); cbn [Hysteresis.select].
  - now rewrite Hu, Eau, Ebu.
  - now rewrite Hd, Ead, Ebd.
Qed.

Lemma Hysteresis_feed_rising (y0 : f64) (n : nat) :
  Hysteresis.outputValueLast this = Some y0 -> is_zero y0 = true ->
  let s := Hysteresis.feed this one (S n) in
  Hysteresis.up s = Hysteresis.up this
  /\ Hysteresis.down s = Hysteresis.down this
  /\ exists y, Hysteresis.outputValueLast s = Some y
               /\ (nonneg y = true /\ ulps y <= 2 ^ 1074
                   /\ ulps y <= ulps (step au y))
               /\ Hysteresis.output this one n = y.
Proof.
  intros Hl Hz. induction n as [|n IH].
  - assert (E : fst (Hysteresis.process this one) = au).
    { rewrite (Hysteresis_process_one this y0 eq_refl eq_refl Hl).
      replace (SFltb y0 one) with true
        by (destruct y0 as [[]| | |]; try discriminate; reflexivity).
      now apply step_at_zero. }
    cbn [Hysteresis.feed]. unfold Hysteresis.output.
    cbn [Hysteresis.feed].
    split; [ reflexivity | split; [ reflexivity | ] ].
    exists au. split; [ | split; [ exact rising_first | exact E ] ].
    unfold Hysteresis.process in *.
    cbn [fst snd Hysteresis.outputValueLast] in *. now rewrite E.
  - destruct IH as (Hu & Hd & y & Hy & (Hn & H1 & Hm) & Ho).
    set (s := Hysteresis.feed this one (S n)) in *.
    assert (E : fst (Hysteresis.process s one)
                = if SFltb y one then step au y else step ad y)
      by (now rewrite (Hysteresis_process_one s y Hu Hd Hy)).
    change (Hysteresis.feed this one (S (S n)))
      with (snd (Hysteresis.process s one)).
    change (Hysteresis.output this one (S n))
      with (fst (Hysteresis.process s one)).
    split; [ exact Hu | split; [ exact Hd | ] ].
    exists (if SFltb y one then step au y else step ad y).
    split; [ | split; [ | exact E ] ].
    + unfold Hysteresis.process in *.
      cbn [fst snd Hysteresis.outputValueLast] in *. now rewrite E.
    + destruct (rising_step y Hn H1 Hm) as (Ha & Hb & Hc & _).
      auto.
Qed.

Lemma Hysteresis_outputs_rising (y0 : f64) (n : nat) :
  Hysteresis.outputValueLast this = Some y0 -> is_zero y0 = true ->
  SFleb (Hysteresis.output this one n) (Hysteresis.output this one (S n))
  = true
  /\ SFleb (Hysteresis.output this one n) one = true.
Proof.
  intros Hl Hz.
  destruct (Hysteresis_feed_rising y0 n Hl Hz)
    as (Hu & Hd & y & Hy & (Hn & H1 & Hm) & Ho).
  assert (E : Hysteresis.output this one (S n)
              = if SFltb y one then step au y else step ad y).
  { change (Hysteresis.output this one (S n))
      with (fst (Hysteresis.process (Hysteresis.feed this one (S n)) one)).
    now rewrite (Hysteresis_process_one _ y Hu Hd Hy). }
  rewrite E, Ho.
  destruct (rising_step y Hn H1 Hm) as (Hn' & _ & _ & Hle).
  split.
  - rewrite SFleb_ulps by trivial. now apply Z.leb_le.
  - rewrite (SFleb_ulps y one Hn nonneg_one), ulps_one. now apply Z.leb_le.
Qed.

End HysteresisStep.

Section HysteresisStepResponse.
Import F64 Rounding.
Variable hertzToNormalised : f64 -> f64 -> f64.
Local Open Scope js_scope.

(** X15.  In doubles the response of a Hysteresis to a step is as the one
    of a Lowpass: when [hertzToNormalised] returned numbers (no NaN) and
    the last output is 0, the outputs of repeated [process(1)] never
    decrease and never exceed 1, the roundings notwithstanding. *)
Theorem Hysteresis_rises_to_one (this : Hysteresis.t f64) (y0 : f64) :
  Hysteresis.reachable hertzToNormalised this ->
  let vUp := hertzToNormalised (Hysteresis.lowpassFrequencyUp this)
               (Hysteresis.sampleRate this) in
  let vDown := hertzToNormalised (Hysteresis.lowpassFrequencyDown this)
                 (Hysteresis.sampleRate this) in
  valid vUp = true -> is_nan vUp = false ->
  valid vDown = true -> is_nan vDown = false ->
  Hysteresis.outputValueLast this = Some y0 -> is_zero y0 = true ->
  forall n : nat,
    (Hysteresis.output this num_1 n <= Hysteresis.output this num_1 (S n))
    = true
    /\ (Hysteresis.output this num_1 n <= num_1) = true.
Proof.
  intros Hreach vUp vDown Hvu Hnu Hvd Hnd Hl Hz n.
  destruct (Hysteresis_reachable_coefficients _ _ Hreach)
    as ((Hau & Hbu) & Had & Hbd).
  unfold coefficient in Hau, Had. fold vUp in Hau. fold vDown in Had.
  cbn [Math_max Math_min num_0 num_1 js_sub number] in Hau, Had, Hbu, Hbd.
  destruct (clamp_nonneg vUp Hvu Hnu) as [Hnau Huau].
  destruct (clamp_nonneg vDown Hvd Hnd) as [Hnad Huad].
  cbn [js_le num_1 number].
  apply (Hysteresis_outputs_rising
           (Hysteresis.inputScale (Hysteresis.up this))
           (Hysteresis.inputScale (Hysteresis.down this))) with (y0 := y0);
    trivial; try (rewrite Hau; assumption); try (rewrite Had; assumption);
    split; trivial.
Qed.

End HysteresisStepResponse.

Lemma Hysteresis_rises_to_one_witness :
  let this :=
    snd (Hysteresis.process Examples.hysteresis_09_03 F64.pos_zero) in
  (Hysteresis.output this num_1 7 <= Hysteresis.output this num_1 8)%js
  = true
  /\ (Hysteresis.output this num_1 7 <= num_1)%js = true.
Proof.
  intros this.
  apply (Hysteresis_rises_to_one hertzToNormalised this F64.pos_zero).
  - apply Hysteresis.reachable_process, Hysteresis.reachable_new.
  - vm_compute. reflexivity.
  - vm_compute. reflexivity.
  - vm_compute. reflexivity.
  - vm_compute. reflexivity.
  - vm_compute. reflexivity.
  - reflexivity.
Defined.

(** ** Scaler: the type, and what [init] derives *)

Section ScalerType.
Context {num : Type} {N : JSNumber num} {M : JSMath num}.
Local Open Scope js_scope.
Local Open Scope string_scope.

Lemma normalise_type_other (type : string) :
  type <> "lin" -> type <> "log" -> type <> "exp" ->
  Scaler.normalise_type type = type.
Proof.
  intros H1 H2 H3. unfold Scaler.normalise_type.
  apply String.eqb_neq in H1, H2, H3. now rewrite H1, H2, H3.
Qed.

Lemma normalise_type_twice (type : string) :
  Scaler.normalise_type (Scaler.normalise_type type)
  = Scaler.normalise_type type.
Proof.
  destruct (String.eqb_spec type "lin") as [-> | H1]; [ reflexivity | ].
  destruct (String.eqb_spec type "log") as [-> | H2]; [ reflexivity | ].
  destruct (String.eqb_spec type "exp") as [-> | H3]; [ reflexivity | ].
  now rewrite !(normalise_type_other type H1 H2 H3).
Qed.

(** X16.  The abbreviations ['lin'], ['log'] and ['exp'] make the scaler
    of the full name; and a type that is none of ['lin'], ['linear'],
    ['log'], ['logarithmic'] makes the exponential scaler: an unknown type
    is not refused, it is read as ['exponential']. *)
Theorem Scaler_type_dispatch
  (inputStart inputEnd outputStart outputEnd : num) (clip : bool)
  (base : num) :
  Scaler.new inputStart inputEnd outputStart outputEnd clip "lin" base
  = Scaler.new inputStart inputEnd outputStart outputEnd clip "linear" base
  /\ Scaler.new inputStart inputEnd outputStart outputEnd clip "log" base
     = Scaler.new inputStart inputEnd outputStart outputEnd clip
         "logarithmic" base
  /\ Scaler.new inputStart inputEnd outputStart outputEnd clip "exp" base
     = Scaler.new inputStart inputEnd outputStart outputEnd clip
         "exponential" base
  /\ forall (type : string) (inputValue : num),
      type <> "lin" -> type <> "linear" ->
      type <> "log" -> type <> "logarithmic" ->
      Scaler.process
        (Scaler.new inputStart inputEnd outputStart outputEnd clip type base)
        inputValue
      = Scaler.process
          (Scaler.new inputStart inputEnd outputStart outputEnd clip
             "exponential" base)
          inputValue.
Proof.
  split; [ reflexivity | split; [ reflexivity | split; [ reflexivity | ] ] ].
  intros type x H1 H2 H3 H4.
  destruct (String.eqb_spec type "exp") as [-> | H5]; [ reflexivity | ].
  unfold Scaler.new, Scaler.init, Scaler.process, Scaler.degenerate,
    Scaler.linear.
  cbn [Scaler.type Scaler.base Scaler.inputRange Scaler.outputRange
       Scaler.inputMin Scaler.inputMax Scaler.logBase Scaler.clip
       Scaler.inputStart Scaler.inputEnd Scaler.outputStart
       Scaler.outputEnd].
  rewrite (normalise_type_other type H1 H3 H5).
  apply String.eqb_neq in H2, H4. rewrite H2, H4. reflexivity.
Qed.

End ScalerType.

Lemma Scaler_type_dispatch_witness :
  Scaler.process (M := F64.math_nan)
    (Scaler.new (M := F64.math_nan) F64.pos_zero F64.one F64.pos_zero
       F64.two false "cubic" F64.two)
    F64.one
  = Scaler.process (M := F64.math_nan)
      (Scaler.new (M := F64.math_nan) F64.pos_zero F64.one F64.pos_zero
         F64.two false "exponential" F64.two)
      F64.one.
Proof.
  destruct (Scaler_type_dispatch (M := F64.math_nan)
              F64.pos_zero F64.one F64.pos_zero F64.two false F64.two)
    as (_ & _ & _ & H).
  apply H; discriminate.
Defined.

Section ScalerInit.
Import F64.
Variable M : JSMath f64.
Local Open Scope js_scope.
Local Open Scope string_scope.

(** X17.  What [init] leaves, at the end of the constructor and of [set]:
    a type that is no abbreviation; a base that is [+0] at least, a
    negative base and [-0] being replaced by [+0] (NaN stays); and, when
    neither end of the input range is NaN, [inputMin <= inputMax], with
    both ends of the input range between them, whatever their order. *)
Theorem Scaler_init_bounds (this : Scaler.t f64) :
  let s := Scaler.init this in
  (Scaler.type s <> "lin" /\ Scaler.type s <> "log"
   /\ Scaler.type s <> "exp")
  /\ (is_nan (Scaler.base this) = false ->
      (num_0 <= Scaler.base s) = true
      /\ ((Scaler.base this <= num_0) = true -> Scaler.base s = pos_zero))
  /\ (is_nan (Scaler.inputStart this) = false ->
      is_nan (Scaler.inputEnd this) = false ->
      (Scaler.inputMin s <= Scaler.inputMax s) = true
      /\ (Scaler.inputMin s <= Scaler.inputStart s) = true
      /\ (Scaler.inputStart s <= Scaler.inputMax s) = true
      /\ (Scaler.inputMin s <= Scaler.inputEnd s) = true
      /\ (Scaler.inputEnd s <= Scaler.inputMax s) = true).
Proof.
  intros s. split; [ | split ].
  - subst s. cbn [Scaler.init Scaler.type]. unfold Scaler.normalise_type.
    destruct (String.eqb_spec (Scaler.type this) "lin");
      [ repeat split; discriminate | ].
    destruct (String.eqb_spec (Scaler.type this) "log");
      [ repeat split; discriminate | ].
    destruct (String.eqb_spec (Scaler.type this) "exp");
      [ repeat split; discriminate | auto ].
  - intros Hb. subst s. cbn [Scaler.init Scaler.base].
    cbn [Math_max num_0 js_le number]. split.
    + now apply le_max_l.
    + intros Hle. unfold max. rewrite Hb. cbn [is_nan orb].
      rewrite (SFleb_SFltb_false _ _ Hle).
      destruct (Scaler.base this) as [[]|[]| |[] m e]; reflexivity.
  - intros Hs He. subst s.
    cbn [Scaler.init Scaler.inputMin Scaler.inputMax Scaler.inputStart
         Scaler.inputEnd Math_max Math_min js_le number].
    assert (H1 := min_le_l _ _ Hs He). assert (H2 := min_le_r _ _ Hs He).
    assert (H3 := le_max_l _ _ Hs He). assert (H4 := le_max_r _ _ Hs He).
    repeat split; trivial. eapply SFleb_trans; eassumption.
Qed.

Lemma Scaler_assign_reads (attributes : list (Scaler.attribute f64))
  (this this' : Scaler.t f64) :
  Scaler.inputStart this = Scaler.inputStart this' ->
  Scaler.inputEnd this = Scaler.inputEnd this' ->
  Scaler.outputStart this = Scaler.outputStart this' ->
  Scaler.outputEnd this = Scaler.outputEnd this' ->
  Scaler.clip this = Scaler.clip this' ->
  Scaler.normalise_type (Scaler.type this)
  = Scaler.normalise_type (Scaler.type this') ->
  max pos_zero (Scaler.base this) = max pos_zero (Scaler.base this') ->
  Scaler.init (fold_left Scaler.assign attributes this)
  = Scaler.init (fold_left Scaler.assign attributes this').
Proof.
  revert this this'. induction attributes as [|a rest IH]; intros this this'.
  - intros H1 H2 H3 H4 H5 H6 H7. unfold Scaler.init. cbn [fold_left].
    cbn [Math_max num_0 number]. now rewrite H1, H2, H3, H4, H5, H6, H7.
  - intros H1 H2 H3 H4 H5 H6 H7. cbn [fold_left].
    apply IH; destruct a; simpl; trivial.
Qed.

(** X18.  Two calls of [set] in a row leave a Scaler as one call with the
    attributes of the first followed by those of the second does: the type
    and the base [init] has rewritten are left as they are by the next
    [init]. *)
Theorem Scaler_set_twice (this : Scaler.t f64)
  (attributes1 attributes2 : list (Scaler.attribute f64)) :
  Scaler.set (Scaler.set this attributes1) attributes2
  = Scaler.set this (attributes1 ++ attributes2).
Proof.
  unfold Scaler.set. rewrite fold_left_app.
  apply Scaler_assign_reads; try reflexivity.
  - cbn [Scaler.init Scaler.type]. apply normalise_type_twice.
  - cbn [Scaler.init Scaler.base Math_max num_0 number]. apply max_max_l.
Qed.

End ScalerInit.

Lemma Scaler_init_bounds_witness :
  let s :=
    Scaler.new (M := F64.math_nan) F64.one F64.pos_zero F64.pos_zero
      F64.one false "linear" (F64.of_Z (-2)) in
  Scaler.base s = F64.pos_zero
  /\ (Scaler.inputMin s <= Scaler.inputMax s)%js = true.
Proof.
  intros s.
  destruct (Scaler_init_bounds F64.math_nan
              {| Scaler.inputStart := F64.one;
                 Scaler.inputEnd := F64.pos_zero;
                 Scaler.outputStart := F64.pos_zero;
                 Scaler.outputEnd := F64.one;
                 Scaler.clip := false;
                 Scaler.type := "linear";
                 Scaler.base := F64.of_Z (-2);
                 Scaler.inputRange := num_0;
                 Scaler.outputRange := num_0;
                 Scaler.inputMin := num_0;
                 Scaler.inputMax := num_0;
                 Scaler.logBase := num_0 |}) as (_ & Hb & Hi).
  split.
  - destruct Hb as [_ Hb]; [ reflexivity | ].
    apply Hb. vm_compute. reflexivity.
  - destruct Hi as [Hi _]; [ reflexivity | reflexivity | exact Hi ].
Defined.

(** ** Scaler in doubles: the ends of the input range *)

Section ScalerEnds.
Import F64.
Variable M : JSMath f64.
Local Open Scope js_scope.

Lemma min_gt (a b : f64) : SFltb b a = true -> min a b = b.
Proof.
  intros H. destruct (SFltb_not_nan _ _ H) as [Hb Ha].
  unfold min. rewrite Ha, Hb, H. simpl.
  destruct a as [[]| | |], b as [[]| | |]; reflexivity.
Qed.

Lemma max_gt (a b : f64) : SFltb b a = true -> max a b = a.
Proof.
  intros H. destruct (SFltb_not_nan _ _ H) as [Hb Ha].
  unfold max. rewrite Ha, Hb, (SFleb_SFltb_false _ _ (SFltb_SFleb _ _ H)).
  simpl. destruct a as [[]| | |], b as [[]| | |]; try reflexivity.
  discriminate.
Qed.

Lemma sub_same (x : f64) : is_finite x = true -> sub x x = pos_zero.
Proof.
  destruct x as [[]|[]| |s m e]; try discriminate; intros _;
    try reflexivity.
  unfold sub, SFsub. cbv zeta. now rewrite Z.sub_diag.
Qed.

Lemma sub_equal (x y : f64) :
  is_finite x = true -> SFcompare x y = Some Eq ->
  SFeqb (sub y x) pos_zero = true.
Proof.
  intros Hf H. destruct (SFcompare_Eq_inv _ _ H) as [<- | [Hx Hy]].
  - now rewrite sub_same.
  - destruct x as [[]| | |], y as [[]| | |]; try discriminate; reflexivity.
Qed.

(** The two ends of an input range of non-zero width are in order, and
    [init] finds which is which. *)
Lemma input_bounds (iS iE : f64) :
  is_finite iS = true -> is_finite iE = true ->
  SFeqb (sub iE iS) pos_zero = false ->
  (SFltb iS iE = true /\ min iS iE = iS /\ max iS iE = iE)
  \/ (SFltb iE iS = true /\ min iS iE = iE /\ max iS iE = iS).
Proof.
  intros HS HE Hd.
  assert (HnS : is_nan iS = false) by (destruct iS; try discriminate; trivial).
  assert (HnE : is_nan iE = false) by (destruct iE; try discriminate; trivial).
  destruct (SFcompare_not_nan iS iE HnS HnE) as [c Hc].
  destruct c.
  - rewrite (sub_equal iS iE HS Hc) in Hd. discriminate.
  - left. assert (H : SFltb iS iE = true) by (unfold SFltb; now rewrite Hc).
    split; [ exact H | split; [ now apply min_lt | now apply max_lt ] ].
  - right. assert (H : SFltb iE iS = true).
    { unfold SFltb. rewrite (SFcompare_antisym iS iE), Hc. reflexivity. }
    split; [ exact H | split; [ now apply min_gt | now apply max_gt ] ].
Qed.

Lemma not_degenerate (s : Scaler.t f64) :
  Scaler.degenerate s = false ->
  SFeqb (Scaler.inputRange s) pos_zero = false
  /\ SFeqb (Scaler.outputRange s) pos_zero = false.
Proof.
  unfold Scaler.degenerate. intros H. apply orb_false_elim in H. exact H.
Qed.

(** X19.  With [clip], a scaler of any type, with a range of finite ends,
    returns beyond the input range what it returns at the end of the range
    on that side: above [inputMax] the output at [inputMax], below
    [inputMin] the output at [inputMin]. *)
Theorem Scaler_clip_saturates
  (inputStart inputEnd outputStart outputEnd : f64) (type : string)
  (base x : f64) :
  is_finite inputStart = true -> is_finite inputEnd = true ->
  let s :=
    Scaler.new inputStart inputEnd outputStart outputEnd true type base in
  Scaler.degenerate s = false ->
  ((Scaler.inputMax s < x) = true ->
   Scaler.process s x = Scaler.process s (Scaler.inputMax s))
  /\ ((x < Scaler.inputMin s) = true ->
      Scaler.process s x = Scaler.process s (Scaler.inputMin s)).
Proof.
  intros HS HE s Hd.
  destruct (not_degenerate s Hd) as [Hi _].
  assert (Hlt : SFltb (Scaler.inputMin s) (Scaler.inputMax s) = true).
  { change (Scaler.inputMin s) with (min inputStart inputEnd).
    change (Scaler.inputMax s) with (max inputStart inputEnd).
    destruct (input_bounds inputStart inputEnd HS HE Hi)
      as [(H & -> & ->) | (H & -> & ->)]; exact H. }
  assert (Hin : forall v,
    Math_max (Scaler.inputMin s) (Math_min (Scaler.inputMax s) v)
    = Math_max (Scaler.inputMin s) (Math_min (Scaler.inputMax s) x) ->
    Scaler.process s v = Scaler.process s x).
  { intros v Hv. unfold Scaler.process. rewrite Hd.
    change (Scaler.clip s) with true. cbv iota. now rewrite Hv. }
  cbn [js_lt number]. split; intros Hx; symmetry; apply Hin;
    cbn [Math_max Math_min number].
  - now rewrite min_same, (min_lt _ _ Hx).
  - rewrite (min_gt _ _ Hlt), max_same.
    rewrite (min_gt _ x (SFltb_trans _ _ _ Hx Hlt)).
    now rewrite (max_gt _ _ Hx).
Qed.

Lemma div_zero (s : bool) (d : f64) :
  is_finite d = true -> is_zero d = false ->
  exists s', div (S754_zero s) d = S754_zero s'.
Proof.
  destruct d as [[]|[]| |[] m e]; try discriminate; intros _ _;
    eexists; reflexivity.
Qed.

(** X20.  In doubles a linear scaler sends [inputStart] to [outputStart]
    with no rounding: when the ends of the two ranges are finite, and so
    are the widths the scaler derives from them, none of them zero,
    [process(inputStart) === outputStart], with or without [clip]. *)
Theorem Scaler_start
  (inputStart inputEnd outputStart outputEnd : f64) (clip : bool)
  (type : string) (base : f64) :
  is_finite inputStart = true -> is_finite inputEnd = true ->
  is_finite outputStart = true ->
  let s :=
    Scaler.new inputStart inputEnd outputStart outputEnd clip type base in
  is_finite (Scaler.inputRange s) = true ->
  is_finite (Scaler.outputRange s) = true ->
  Scaler.degenerate s = false -> Scaler.linear s = true ->
  (Scaler.process s inputStart === outputStart) = true
  /\ (is_zero outputStart = false ->
      Scaler.process s inputStart = outputStart).
Proof.
  intros HS HE HoS s HiR HoR Hd Hl.
  destruct (not_degenerate s Hd) as [Hi _].
  assert (Hin : (if clip
                 then max (Scaler.inputMin s)
                        (min (Scaler.inputMax s) inputStart)
                 else inputStart) = inputStart).
  { destruct clip; trivial.
    change (Scaler.inputMin s) with (min inputStart inputEnd).
    change (Scaler.inputMax s) with (max inputStart inputEnd).
    destruct (input_bounds inputStart inputEnd HS HE Hi)
      as [(H & -> & ->) | (H & -> & ->)].
    - now rewrite (min_gt _ _ H), max_same.
    - now rewrite min_same, (max_lt _ _ H). }
  assert (Hz : is_zero (Scaler.inputRange s) = false).
  { destruct (Scaler.inputRange s) as [[]| | |]; try discriminate;
      reflexivity. }
  assert (E : Scaler.process s inputStart
              = add outputStart
                  (div (mul (Scaler.outputRange s) (sub inputStart inputStart))
                     (Scaler.inputRange s))).
  { unfold Scaler.process. rewrite Hd, Hl.
    change (Scaler.clip s) with clip.
    cbn [Math_max Math_min js_add js_sub js_mul js_div number].
    now rewrite Hin. }
  rewrite E, (sub_same inputStart HS).
  destruct (mul_zero_r _ HoR) as [s1 ->].
  destruct (div_zero s1 _ HiR Hz) as [s2 ->].
  cbn [js_eq number]. now apply add_zero_r.
Qed.

End ScalerEnds.

(** ** Scaler: the default base *)

Section ScalerBase.
Local Open Scope js_scope.
Local Open Scope string_scope.

(** X21.  The default base is 1, and with a base of 1 every type is
    linear: a scaler built with a type and no base returns what the linear
    scaler of the same ranges returns, in doubles and in exact
    arithmetic. *)
Theorem Scaler_default_base :
  (forall (M : JSMath F64.f64)
      (inputStart inputEnd outputStart outputEnd : option F64.f64)
      (clip : option bool) (type : string) (x : F64.f64),
      Scaler.process
        (Scaler.constructor inputStart inputEnd outputStart outputEnd clip
           (Some type) None) x
      = Scaler.process
          (Scaler.constructor inputStart inputEnd outputStart outputEnd clip
             (Some "linear") None) x)
  /\ (forall (inputStart inputEnd outputStart outputEnd : option R)
        (clip : option bool) (type : string) (x : R),
      Scaler.process
        (Scaler.constructor inputStart inputEnd outputStart outputEnd clip
           (Some type) None) x
      = Scaler.process
          (Scaler.constructor inputStart inputEnd outputStart outputEnd clip
             (Some "linear") None) x).
Proof.
  split.
  - intros M iS iE oS oE clip type x.
    unfold Scaler.process, Scaler.linear, Scaler.degenerate. reflexivity.
  - intros iS iE oS oE clip type x.
    unfold Scaler.process, Scaler.linear, Scaler.degenerate.
    cbn [Scaler.constructor Scaler.new Scaler.init Scaler.base
         Scaler.type Scaler.inputRange Scaler.outputRange Scaler.clip
         Scaler.inputMin Scaler.inputMax Scaler.inputStart Scaler.inputEnd
         Scaler.outputStart Scaler.outputEnd Scaler.logBase default
         Math_max num_0 num_1 js_eq Exact.number].
    assert (E : Exact.eqb (Rmax 0 1) 1 = true).
    { unfold Rmax, Exact.eqb. destruct (Rle_dec 0 1); [ | lra ].
      destruct (Req_dec_T 1 1); [ reflexivity | lra ]. }
    rewrite E. reflexivity.
Qed.

End ScalerBase.

Lemma Scaler_clip_saturates_witness :
  let s :=
    Scaler.new (M := F64.math_nan) F64.pos_zero (F64.of_Z 10) F64.pos_zero
      (F64.of_Z 100) true "linear" F64.one in
  Scaler.process (M := F64.math_nan) s (F64.of_Z 25)
  = Scaler.process (M := F64.math_nan) s (Scaler.inputMax s).
Proof.
  intros s.
  destruct (Scaler_clip_saturates F64.math_nan F64.pos_zero (F64.of_Z 10)
              F64.pos_zero (F64.of_Z 100) "linear" F64.one (F64.of_Z 25))
    as [H _].
  - reflexivity.
  - reflexivity.
  - vm_compute. reflexivity.
  - apply H. vm_compute. reflexivity.
Defined.

Lemma Scaler_start_witness :
  let s :=
    Scaler.new (M := F64.math_nan) (F64.of_Z 69) (F64.of_Z 81)
      (F64.of_Z 440) (F64.of_Z 880) true "linear" F64.two in
  Scaler.process (M := F64.math_nan) s (F64.of_Z 69) = F64.of_Z 440.
Proof.
  intros s.
  destruct (Scaler_start F64.math_nan (F64.of_Z 69) (F64.of_Z 81)
              (F64.of_Z 440) (F64.of_Z 880) true "linear" F64.two)
    as [_ H].
  - reflexivity.
  - reflexivity.
  - reflexivity.
  - vm_compute. reflexivity.
  - vm_compute. reflexivity.
  - vm_compute. reflexivity.
  - vm_compute. reflexivity.
  - apply H. vm_compute. reflexivity.
Defined.

(** ** Scaler in exact arithmetic: the three curves *)

Section ScalerCurves.
Local Open Scope R_scope.
















End ScalerCurves.

Section ScalerCurvesInstances.
Local Open Scope R_scope.




End ScalerCurvesInstances.

(** ** NaN in a Clipper, a Scaler and the assertions *)

Section NaNThrough.
Import F64.
Variable M : JSMath f64.
Local Open Scope js_scope.

Lemma sub_nan_l (x : f64) : sub NaN x = NaN.
Proof. reflexivity. Qed.

Lemma sub_nan_r (x : f64) : sub x NaN = NaN.
Proof. destruct x as [[]|[]| |[] m e]; reflexivity. Qed.

Lemma div_nan_l (x : f64) : div NaN x = NaN.
Proof. reflexivity. Qed.

Lemma SFleb_nan_l (x : f64) : SFleb NaN x = false.
Proof. reflexivity. Qed.

Lemma SFleb_nan_r (x : f64) : SFleb x NaN = false.
Proof. destruct x as [[]|[]| |[] m e]; reflexivity. Qed.

(** X25.  A Clipper returns NaN for NaN, whatever its bounds, and returns
    NaN for every input when one of its bounds is NaN. *)
Theorem Clipper_returns_NaN (c : Clipper.t f64) (x : f64) :
  Clipper.process c NaN = NaN
  /\ (is_nan (Clipper.min c) || is_nan (Clipper.max c) = true ->
      Clipper.process c x = NaN).
Proof.
  unfold Clipper.process. cbn [Math_min Math_max number]. split.
  - now rewrite max_nan_r, min_nan_r.
  - intros H. apply is_nan_true. rewrite min_is_nan, max_is_nan.
    apply orb_true_iff in H. destruct H as [H | H]; rewrite H;
      now rewrite ?orb_true_r.
Qed.

(** X26.  A linear scaler with ranges of non-zero width returns NaN for
    NaN, with or without [clip]; where a range has width zero it returns
    [outputEnd]. *)
Theorem Scaler_NaN_linear (s : Scaler.t f64) :
  Scaler.linear s = true ->
  Scaler.process s NaN
  = if Scaler.degenerate s then Scaler.outputEnd s else NaN.
Proof.
  intros Hl. unfold Scaler.process. rewrite Hl.
  destruct (Scaler.degenerate s).
  - cbn [js_le number]. now rewrite SFleb_nan_l.
  - cbn [Math_max Math_min js_add js_sub js_mul js_div number].
    assert (E : (if Scaler.clip s
                 then max (Scaler.inputMin s) (min (Scaler.inputMax s) NaN)
                 else NaN) = NaN).
    { destruct (Scaler.clip s); trivial.
      now rewrite min_nan_r, max_nan_r. }
    now rewrite E, sub_nan_l, mul_nan_r, div_nan_l, add_nan_r.
Qed.

(** X27.  The assertions of the tests never pass on NaN: neither
    [assertWithin] nor [assertWithRelativeError] accepts a value that is
    NaN, and the second accepts no value when the expected value is NaN. *)
Theorem assertions_reject_NaN (x y z : f64) :
  within NaN x y = false
  /\ withRelativeError NaN x y = false
  /\ withRelativeError x NaN y = false.
Proof.
  unfold within, withRelativeError.
  cbn [js_le js_add js_sub js_mul Math_abs number].
  rewrite !SFleb_nan_r, sub_nan_l, SFleb_nan_l. repeat split.
Qed.

End NaNThrough.

Lemma Clipper_returns_NaN_witness :
  Clipper.process (Clipper.new F64.NaN F64.one) F64.two = F64.NaN.
Proof.
  apply (Clipper_returns_NaN (Clipper.new F64.NaN F64.one) F64.two).
  reflexivity.
Defined.

Lemma Scaler_NaN_linear_witness :
  Scaler.process (M := F64.math_nan)
    (Scaler.new (M := F64.math_nan) F64.pos_zero F64.one F64.pos_zero
       F64.two true "linear" F64.two) F64.NaN
  = F64.NaN.
Proof.
  apply (Scaler_NaN_linear F64.math_nan). reflexivity.
Defined.

(** ** Linear scalers in a chain *)

Section ScalerChain.
Local Open Scope R_scope.



End ScalerChain.
